(** * planqtn.symplectic: symplectic vectors over GF(2) and the packed-bit rank engine

    A shallow embedding of [src/planqtn/symplectic.py].  NumPy arrays are
    lists (one-dimensional) or records carrying a shape and a list of rows
    (two-dimensional); GF(2) elements are booleans; Python integers are [Z];
    exceptions are the [Raise] branch of [result]. *)

From Stdlib Require Import ZArith List Bool String Ascii Lia.
From Stdlib Require Import Floats.SpecFloat.
From stdpp Require Import base numbers list gmap.

Local Open Scope nat_scope.

(** ** Exceptions *)

Inductive exn : Set := ValueError | IndexError.

Inductive result (A : Type) : Type :=
  | Ok (a : A)
  | Raise (e : exn).
Arguments Ok {A} a.
Arguments Raise {A} e.

#[global] Instance result_ret : MRet result := λ A a, Ok a.
#[global] Instance result_bind : MBind result :=
  λ A B f m, match m with Ok a => f a | Raise e => Raise e end.

(** A list comprehension whose body may raise. *)
Fixpoint collect {A B : Type} (f : A → result B) (l : list A) : result (list B) :=
  match l with
  | [] => Ok []
  | x :: l' => y ← f x; ys ← collect f l'; Ok (y :: ys)
  end.

(** ** Python and NumPy indexing *)

(** [range(n)] *)
Definition range (n : nat) : list Z := Z.of_nat <$> seq 0 n.

(** An integer index into a sequence of length [len]: negative indices count
    from the end, anything outside [-len, len) is an [IndexError]. *)
Definition norm_index (len : nat) (i : Z) : result nat :=
  if decide (0 ≤ i < Z.of_nat len)%Z then Ok (Z.to_nat i)
  else if decide (- Z.of_nat len ≤ i < 0)%Z then Ok (Z.to_nat (i + Z.of_nat len))
  else Raise IndexError.

(** [a[i]] *)
Definition getitem {A : Type} (a : list A) (i : Z) : result A :=
  k ← norm_index (length a) i;
  match a !! k with Some x => Ok x | None => Raise IndexError end.

(** [a[idx]] for an integer index array [idx]. *)
Definition getitems {A : Type} (a : list A) (idx : list Z) : result (list A) :=
  collect (getitem a) idx.

(** [np.array(l)] used as an index array.  [np.array([])] has dtype float64,
    and NumPy refuses a float array as an index even when it is empty. *)
Definition as_index_array (l : list Z) : result (list Z) :=
  match l with
  | [] => Raise IndexError
  | _ => Ok l
  end.

(** The right-hand side of an indexed assignment is broadcast to the number of
    indexed positions: same length, or a single value repeated. *)
Definition broadcast {A : Type} (m : nat) (vals : list A) : result (list A) :=
  if decide (length vals = m) then Ok vals
  else match vals with
       | [x] => Ok (replicate m x)
       | _ => Raise ValueError
       end.

(** [a[idx] = vals], the assignments done in index order. *)
Definition setitems {A : Type} (a : list A) (idx : list Z) (vals : list A)
  : result (list A) :=
  ks ← collect (norm_index (length a)) idx;
  vs ← broadcast (length idx) vals;
  Ok (foldl (λ acc kv, <[kv.1 := kv.2]> acc) a (zip ks vs)).

(** A bound of a Python slice, clamped to [0, len]. *)
Definition slice_bound (len : nat) (i : Z) : nat :=
  if decide (i < 0)%Z then Z.to_nat (Z.max 0 (i + Z.of_nat len))
  else Z.to_nat (Z.min i (Z.of_nat len)).

(** [a[start:stop]] *)
Definition getslice {A : Type} (a : list A) (start stop : Z) : list A :=
  let lo := slice_bound (length a) start in
  let hi := slice_bound (length a) stop in
  take (hi - lo) (drop lo a).

(** [np.concatenate] of one-dimensional arrays; an empty sequence of arrays is
    a [ValueError]. *)
Definition np_concatenate {A : Type} (arrs : list (list A)) : result (list A) :=
  match arrs with
  | [] => Raise ValueError
  | _ => Ok (concat arrs)
  end.

(** ** GF(2) *)

(** A GF(2) element is a bit. *)
Abbreviation GF2 := bool (only parsing).

(** [int(b)] for a GF(2) element. *)
Definition int (b : GF2) : Z := Z.b2z b.

(** ** Two-dimensional arrays *)

Record ndarray2 (A : Type) : Type := Array2 {
  shape0 : nat;
  shape1 : nat;
  data : list (list A)
}.
Arguments Array2 {A} shape0 shape1 data.
Arguments shape0 {A} _.
Arguments shape1 {A} _.
Arguments data {A} _.

(** The rows agree with the shape. *)
Definition wf_array {A : Type} (M : ndarray2 A) : Prop :=
  length (data M) = shape0 M ∧ Forall (λ r, length r = shape1 M) (data M).

(** ** weight *)

Definition count_nonzero (l : list GF2) : nat := length (filter (λ b, b = true) l).

Definition weight (op : list GF2) (skip_indices : list Z) : result nat :=
  let n := length op / 2 in
  let x_inds := filter (λ i, i ∉ skip_indices) (range n) in
  let z_inds := (λ i, i + Z.of_nat n)%Z <$> x_inds in
  if decide (length x_inds = 0 ∧ length z_inds = 0) then Ok 0
  else
    xs ← getitems op x_inds;
    zs ← getitems op z_inds;
    Ok (count_nonzero (zip_with orb xs zs)).

(** ** symp_to_str and sympl_to_pauli_repr *)

Definition symp_to_str (vec : list GF2) (swapxz : bool) : result string :=
  let p := ["I"; "X"; "Z"; "Y"]%string in
  let p := if swapxz then ["I"; "Z"; "X"; "Y"]%string else p in
  let n := length vec / 2 in
  chars ← collect (λ i, z ← getitem vec (i + Z.of_nat n)%Z;
                        x ← getitem vec i;
                        getitem p (2 * int z + int x)%Z) (range n);
  Ok (String.concat "" chars).

Definition sympl_to_pauli_repr (op : list GF2) : result (list Z) :=
  let n := length op / 2 in
  collect (λ i, z ← getitem op (i + Z.of_nat n)%Z;
                x ← getitem op i;
                Ok (2 * int z + int x)%Z) (range n).

(** ** omega *)

(** [GF2.Zeros((r, c))] *)
Definition GF2_Zeros (r c : nat) : ndarray2 GF2 :=
  Array2 r c (replicate r (replicate c false)).

(** [GF2.Identity(n)] *)
Definition GF2_Identity (n : nat) : ndarray2 GF2 :=
  Array2 n n ((λ i, (λ j, bool_decide (i = j)) <$> seq 0 n) <$> seq 0 n).

(** [np.block([[a, b], [c, d]])] *)
Definition np_block {A : Type} (a b c d : ndarray2 A) : ndarray2 A :=
  Array2 (shape0 a + shape0 c) (shape1 a + shape1 b)
         (zip_with app (data a) (data b) ++ zip_with app (data c) (data d)).

Definition omega (n : nat) : ndarray2 GF2 :=
  np_block (GF2_Zeros n n) (GF2_Identity n)
           (GF2_Identity n) (GF2_Zeros n n).

(** ** sslice *)

(** The dynamic type of the [indices] argument. *)
Inductive py_indices : Type :=
  | IdxList (l : list Z)                      (* a Python list of ints *)
  | IdxArray (a : list Z)                     (* an integer np.ndarray *)
  | IdxSlice (start stop step : option Z)     (* slice(start, stop, step) *)
  | IdxOther.                                 (* any other object *)

Definition sslice (op : list GF2) (indices : py_indices) : result (list GF2) :=
  let n := length op / 2 in
  match indices with
  | IdxList l | IdxArray l =>
      if decide (length l = 0) then Ok []
      else
        xs ← getitems op l;
        zs ← getitems op ((λ i, i + Z.of_nat n)%Z <$> l);
        Ok (xs ++ zs)
  | IdxSlice start stop _ =>
      let x_start := match start with None => 0%Z | Some s => s end in
      let x_stop := match stop with None => Z.of_nat n | Some s => s end in
      let z_start := (x_start + Z.of_nat n)%Z in
      let z_stop := (x_stop + Z.of_nat n)%Z in
      Ok (getslice op x_start x_stop ++ getslice op z_start z_stop)
  | IdxOther => Raise ValueError
  end.

(** ** replace_with_op_on_indices *)

Definition replace_with_op_on_indices (indices : list Z) (op target : list GF2)
  : result (list GF2) :=
  let m := length indices in
  let n := length op / 2 in
  let res := target in
  res ← setitems res indices (getslice op 0 (Z.of_nat m));
  z_idx ← as_index_array indices;
  res ← setitems res ((λ i, i + Z.of_nat n)%Z <$> z_idx)
                 (getslice op (Z.of_nat m) (Z.of_nat (length op)));
  Ok res.

(** ** sconcat *)

(** [astype(np.int8)]: wrap into [-128, 128). *)
Definition astype_int8 (x : Z) : Z := ((x + 128) `mod` 256 - 128)%Z.

Definition sconcat (ops : list (list Z)) : result (list Z) :=
  let ns := (λ op, length op / 2) <$> ops in
  xpart ← np_concatenate
            (zip_with (λ n op, getslice op 0 (Z.of_nat n)) ns ops);
  zpart ← np_concatenate
            (zip_with (λ n op, getslice op (Z.of_nat n) (Z.of_nat (length op))) ns ops);
  Ok (astype_int8 <$> ((astype_int8 <$> xpart) ++ (astype_int8 <$> zpart))).

(** ** sstr *)

Definition newline : string := String (ascii_of_nat 10) EmptyString.

(** ["_1"[int(b)]] *)
Definition bit_char (b : GF2) : result string :=
  c ← getitem (list_ascii_of_string "_1") (int b);
  Ok (String c EmptyString).

Definition sstr (h : ndarray2 GF2) : result string :=
  let n := shape1 h / 2 in
  lines ← collect (λ row,
             xs ← collect bit_char (getslice row 0 (Z.of_nat n));
             zs ← collect bit_char (getslice row (Z.of_nat n) (Z.of_nat (length row)));
             Ok (String.concat "" xs ++ "|" ++ String.concat "" zs)%string)
           (data h);
  Ok (String.concat newline lines).

(** ** to_symplectic *)

(** [l[0::2]] and [l[1::2]] *)
Fixpoint evens {A : Type} (l : list A) : list A :=
  match l with
  | [] => []
  | x :: l' => x :: odds l'
  end
with odds {A : Type} (l : list A) : list A :=
  match l with
  | [] => []
  | _ :: l' => evens l'
  end.

Definition to_symplectic {A : Type} (matrix : ndarray2 A) : ndarray2 A :=
  let x_bits := evens <$> data matrix in
  let z_bits := odds <$> data matrix in
  Array2 (shape0 matrix)
         (Nat.div2 (S (shape1 matrix)) + Nat.div2 (shape1 matrix))
         (zip_with app x_bits z_bits).

(** ** rank_gf2 *)

(** Byte [w] of [np.packbits(row, bitorder="little")]: entry [8w + k] of the
    row is bit [k] of the byte; any nonzero entry packs as a 1 and positions
    past the end of the row pack as 0. *)
Definition pack_byte (row : list Z) (w : nat) : Z :=
  foldr (λ k acc,
           Z.lor (Z.shiftl (Z.b2z (bool_decide (default 0%Z (row !! (8 * w + k)) ≠ 0%Z)))
                           (Z.of_nat k)) acc)
        0%Z (seq 0 8).

(** [np.packbits(matrix, axis=1, bitorder="little")] *)
Definition np_packbits (matrix : ndarray2 Z) : ndarray2 Z :=
  let nbytes := (shape1 matrix + 7) / 8 in
  Array2 (shape0 matrix) nbytes
         ((λ row, pack_byte row <$> seq 0 nbytes) <$> data matrix).

(** [np.where(a)[0]]: the positions of the nonzero entries. *)
Fixpoint np_where (a : list Z) : list nat :=
  match a with
  | [] => []
  | x :: a' =>
      if decide (x ≠ 0%Z) then 0 :: (S <$> np_where a') else S <$> np_where a'
  end.

(** [packed[[rank, pivot]] = packed[[pivot, rank]]]: the right-hand side is a
    copy, assigned to rows [rank] and [pivot] in that order. *)
Definition swap_rows (rank pivot : nat) (packed : list (list Z)) : list (list Z) :=
  let rhs0 := packed !!! pivot in
  let rhs1 := packed !!! rank in
  <[pivot := rhs1]> (<[rank := rhs0]> packed).

(** One pass of the inner loop body:
    [if packed[i, word] & mask: packed[i, :] ^= packed[rank, :]]. *)
Definition eliminate_row (word : nat) (mask : Z) (rank : nat)
    (packed : list (list Z)) (i : nat) : list (list Z) :=
  if decide (Z.land ((packed !!! i) !!! word) mask ≠ 0%Z)
  then <[i := zip_with Z.lxor (packed !!! i) (packed !!! rank)]> packed
  else packed.

(** The loop [for col in range(n)] over the remaining columns, with the
    state [(packed, rank)]; [continue] moves to the next column, [break]
    returns.  Every subscript is in bounds ([col < n] gives
    [word < (n + 7) / 8], and [rank], [pivot], [i] are below [m]), so the
    total lookup [!!!] never falls back on its default. *)
Fixpoint rank_gf2_loop (m : nat) (cols : list nat)
    (packed : list (list Z)) (rank : nat) : nat :=
  match cols with
  | [] => rank
  | col :: cols' =>
      let word := col / 8 in
      let bit := col mod 8 in
      let mask := Z.shiftl 1 (Z.of_nat bit) in
      let pivot_rows :=
        np_where ((λ row, Z.land (row !!! word) mask) <$> drop rank packed) in
      match pivot_rows with
      | [] => rank_gf2_loop m cols' packed rank
      | first :: _ =>
          let pivot := first + rank in
          let packed :=
            if decide (pivot ≠ rank) then swap_rows rank pivot packed
            else packed in
          let packed :=
            foldl (eliminate_row word mask rank) packed
                  (seq (rank + 1) (m - (rank + 1))) in
          let rank := rank + 1 in
          if decide (rank = m) then rank
          else rank_gf2_loop m cols' packed rank
      end
  end.

Definition rank_gf2 (matrix : ndarray2 Z) : nat :=
  let m := shape0 matrix in
  let n := shape1 matrix in
  let packed := data (np_packbits matrix) in
  rank_gf2_loop m (seq 0 n) packed 0.

(** ** count_matching_stabilizers_ratio_all_pairs *)

(** Modelled from the spec: [StabilizerCodeTensorEnumerator] is declared in
    [planqtn.stabilizer_tensor_enumerator], outside this module.  The function
    uses its parity-check matrix [h], in interleaved column layout, and its
    lookup [get_col_indices] from a set of legs to an integer array of column
    indices. *)
Record StabilizerCodeTensorEnumerator (TensorLeg : Type) : Type := {
  h : ndarray2 Z;
  get_col_indices : list TensorLeg → list Z
}.
Arguments h {TensorLeg} _.
Arguments get_col_indices {TensorLeg} _ _.

(** [matrix[:, idx]]: every index is checked against the number of columns,
    also when the matrix has no rows. *)
Definition getcols (matrix : ndarray2 Z) (idx : list Z) : result (ndarray2 Z) :=
  _ ← collect (norm_index (shape1 matrix)) idx;
  rows ← collect (λ row, getitems row idx) (data matrix);
  Ok (Array2 (shape0 matrix) (length idx) rows).

(** [np.vstack([a, b])]: the column counts must agree. *)
Definition np_vstack (a b : ndarray2 Z) : result (ndarray2 Z) :=
  if decide (shape1 a = shape1 b)
  then Ok (Array2 (shape0 a + shape0 b) (shape1 a) (data a ++ data b))
  else Raise ValueError.

(** [np.array(a, dtype=np.uint8) & 1] *)
Definition uint8_and_1 (a : ndarray2 Z) : ndarray2 Z :=
  Array2 (shape0 a) (shape1 a)
         ((λ row : list Z, (λ x : Z, Z.land (x `mod` 256) 1) <$> row) <$> data a).

(** Python floats are IEEE 754 binary64 numbers. *)
Definition float_prec : Z := 53.
Definition float_emax : Z := 1024.

Inductive py_number : Set :=
  | PyInt (z : Z)
  | PyFloat (f : spec_float).

(** [float(z)], for [z] of magnitude below 2^53. *)
Definition float_of_int (z : Z) : spec_float :=
  binary_normalize float_prec float_emax z 0 false.

(** [2 ** e] for an int [e]: an int when [e >= 0]; for [e < 0] the float power
    [pow(2.0, e)], the binary64 number nearest to 2^e, which is 0.0 without
    an exception when 2^e underflows. *)
Definition py_pow2 (e : Z) : py_number :=
  if decide (0 ≤ e)%Z then PyInt (2 ^ e)
  else PyFloat (SFldexp float_prec float_emax (float_of_int 1) e).

(** [float(x)] *)
Definition py_float (x : py_number) : spec_float :=
  match x with
  | PyInt z => float_of_int z
  | PyFloat f => f
  end.

Definition count_matching_stabilizers_ratio_all_pairs {TensorLeg : Type}
    (pte1 pte2 : StabilizerCodeTensorEnumerator TensorLeg)
    (join_legs1 join_legs2 : list TensorLeg) : result spec_float :=
  idx1 ← np_concatenate ((λ leg, get_col_indices pte1 [leg]) <$> join_legs1);
  idx2 ← np_concatenate ((λ leg, get_col_indices pte2 [leg]) <$> join_legs2);
  cols1 ← getcols (h pte1) idx1;
  let join_legs_matrix1 := to_symplectic cols1 in
  cols2 ← getcols (h pte2) idx2;
  let join_legs_matrix2 := to_symplectic cols2 in
  stacked ← np_vstack join_legs_matrix1 join_legs_matrix2;
  let stacked := uint8_and_1 stacked in
  Ok (py_float (py_pow2 (- Z.of_nat (rank_gf2 stacked)))).

(** ** sprint *)

(** [print(sstr(h), end=end)], with standard output as the text written so
    far; nothing is written when [sstr] raises. *)
Definition sprint (h : ndarray2 GF2) (end_ : string) (stdout : string)
  : result string :=
  text ← sstr h;
  Ok (stdout ++ text ++ end_)%string.

(** * planqtn.operation_tracker *)

(** Objects live in a heap and are known by their identity, so that the
    module-level singleton can be shared by every caller of [get_tracker]. *)
Module operation_tracker.

Record OperationTracker : Set := { count : Z }.

(** [OperationTracker()]: a new object, [__init__] sets its count to 0. *)
Definition new (heap : gmap nat OperationTracker) : nat * gmap nat OperationTracker :=
  let self := fresh (dom heap) in
  (self, <[self := {| count := 0 |}]> heap).

(** [self.count += by] *)
Definition increment (self : nat) (by_ : Z) (heap : gmap nat OperationTracker)
  : gmap nat OperationTracker :=
  alter (λ obj, {| count := count obj + by_ |}) self heap.

(** [self.count = 0] *)
Definition reset (self : nat) (heap : gmap nat OperationTracker)
  : gmap nat OperationTracker :=
  alter (λ _, {| count := 0 |}) self heap.

(** [return self.count] *)
Definition get (self : nat) (heap : gmap nat OperationTracker) : option Z :=
  count <$> heap !! self.

(** The module after import: [operations_tracker = OperationTracker()]. *)
Record module_state : Type := {
  operations_tracker : nat;
  heap_of : gmap nat OperationTracker
}.

Definition import_module (heap : gmap nat OperationTracker) : module_state :=
  let '(self, heap) := new heap in
  {| operations_tracker := self; heap_of := heap |}.


End operation_tracker.

(** * Specification vocabulary *)

(** ** Symplectic vectors *)

(** The number of qubits [i < n], not skipped, on which [v] is not the
    identity. *)
Definition nonidentity_count (v : list GF2) (n : nat) (skip : list Z) : nat :=
  length (filter (λ i, (Z.of_nat i ∉ skip)
                       ∧ ((v !! i, v !! (n + i)) ≠ (Some false, Some false)))
                 (seq 0 n)).

(** The index of a label character in the ordering I, X, Z, Y. *)
Definition pauli_index (c : ascii) : option Z :=
  match c with
  | "I"%char => Some 0%Z
  | "X"%char => Some 1%Z
  | "Z"%char => Some 2%Z
  | "Y"%char => Some 3%Z
  | _ => None
  end.

(** The label of a qubit with X-bit [x] and Z-bit [z]. *)
Definition pauli_label (x z : GF2) : ascii :=
  match x, z with
  | false, false => "I"
  | true, false => "X"
  | false, true => "Z"
  | true, true => "Y"
  end%char.

(** A symplectic vector on [n] qubits, as a tuple of ints. *)
Definition symplectic_vector (v : list Z) (n : nat) : Prop :=
  length v = 2 * n ∧ Forall (λ x, x = 0 ∨ x = 1)%Z v.

Definition sstr_example : ndarray2 GF2 :=
  Array2 2 4 [[true; false; true; false]; [false; true; false; true]].

(** ** The text of a matrix *)

(** The character that [sstr] shows for a bit. *)
Definition bit_ascii (b : GF2) : ascii := if b then "1"%char else "_"%char.

Definition newline_char : ascii := ascii_of_nat 10.

(** The characters of a line: the first [n] bits, a bar, the other bits. *)
Definition row_chars (n : nat) (row : list GF2) : list ascii :=
  (bit_ascii <$> take n row) ++ "|"%char :: (bit_ascii <$> drop n row).

(** [np.vstack([a, b])] for GF(2) matrices of the same width. *)
Definition vstack_gf2 (a b : ndarray2 GF2) : ndarray2 GF2 :=
  Array2 (shape0 a + shape0 b) (shape1 a) (data a ++ data b).

(** ** Linear algebra over GF(2) *)

(** Vectors of [GF(2)^n] are boolean lists of length [n]; a matrix is the list
    of its rows. *)
Definition vzero (n : nat) : list bool := replicate n false.

Definition vxor (u v : list bool) : list bool := zip_with xorb u v.

(** The sum of the rows selected by the coefficients [cs]. *)
Fixpoint lincomb (n : nat) (cs : list bool) (rows : list (list bool)) : list bool :=
  match cs, rows with
  | c :: cs', r :: rows' =>
      if c then vxor r (lincomb n cs' rows') else lincomb n cs' rows'
  | _, _ => vzero n
  end.

(** [v] is in the row space of [rows]. *)
Definition in_span (n : nat) (rows : list (list bool)) (v : list bool) : Prop :=
  ∃ cs, length cs = length rows ∧ lincomb n cs rows = v.

(** Only the trivial combination of [rows] vanishes. *)
Definition lin_indep (n : nat) (rows : list (list bool)) : Prop :=
  ∀ cs, length cs = length rows → lincomb n cs rows = vzero n →
        cs = replicate (length rows) false.

(** [B] is a basis of the row space of [rows]. *)
Definition is_basis (n : nat) (rows B : list (list bool)) : Prop :=
  Forall (λ b, length b = n) B ∧ lin_indep n B
  ∧ ∀ v, in_span n B v ↔ in_span n rows v.

(** The rank of [rows] over GF(2): the size of a basis of its row space. *)
Definition is_rank (n : nat) (rows : list (list bool)) (r : nat) : Prop :=
  ∃ B, length B = r ∧ is_basis n rows B.

(** All coefficient lists of length [k]. *)
Fixpoint all_coeffs (k : nat) : list (list bool) :=
  match k with
  | 0 => [[]]
  | S k' => (cons false <$> all_coeffs k') ++ (cons true <$> all_coeffs k')
  end.

(** The 0/1 matrix read over GF(2): an entry is 1 when it is not zero. *)
Definition gf2_row (row : list Z) : list bool :=
  (λ x : Z, bool_decide (x ≠ 0%Z)) <$> row.

Definition gf2_rows (M : ndarray2 Z) : list (list bool) :=
  gf2_row <$> data M.

(** A matrix whose entries are 0 or 1. *)
Definition is_binary (M : ndarray2 Z) : Prop :=
  Forall (Forall (λ x, x = 0 ∨ x = 1)%Z) (data M).

(** [np.zeros((m, n))] and [np.eye(n)] as integer matrices. *)
Definition np_zeros (m n : nat) : ndarray2 Z :=
  Array2 m n (replicate m (replicate n 0%Z)).

Definition np_eye (n : nat) : ndarray2 Z :=
  Array2 n n ((λ i, (λ j, if decide (i = j) then 1%Z else 0%Z) <$> seq 0 n)
                <$> seq 0 n).

(** Row [i] of the identity, over GF(2). *)
Definition unit_row (n i : nat) : list bool :=
  (λ j, bool_decide (i = j)) <$> seq 0 n.

(** ** The packed rows as bit vectors *)

(** Bit [c] of a packed row. *)
Definition bit_at (row : list Z) (c : nat) : bool :=
  Z.testbit (row !!! (c / 8)) (Z.of_nat (c mod 8)).

(** The first [n] bits of a packed row. *)
Definition unpack (n : nat) (row : list Z) : list bool := bit_at row <$> seq 0 n.

(** Rows that vanish in every column below [c]. *)
Definition zeros_below (c : nat) (rows : list (list bool)) : Prop :=
  Forall (λ r, ∀ q, q < c → r !!! q = false) rows.

(** The row operation of the elimination on bit vectors: add the pivot row
    [p] to the rows that have a 1 in column [c]. *)
Definition clear_column (c : nat) (p r : list bool) : list bool :=
  if (r !!! c : bool) then vxor r p else r.

(** The same on packed rows. *)
Definition clear_packed (word : nat) (mask : Z) (p row : list Z) : list Z :=
  if decide (Z.land (row !!! word) mask ≠ 0%Z) then zip_with Z.lxor row p else row.

(** ** Matrices over GF(2) *)

(** The transpose [M.T]. *)
Definition transpose (M : ndarray2 bool) : ndarray2 bool :=
  Array2 (shape1 M) (shape0 M)
         ((λ j, (λ row : list bool, row !!! j) <$> data M) <$> seq 0 (shape1 M)).

(** The dot product over GF(2): the XOR of the pairwise ANDs. *)
Definition gf2_dot (u v : list bool) : bool := foldr xorb false (zip_with andb u v).

(** The matrix product over GF(2). *)
Definition gf2_matmul (A B : ndarray2 bool) : ndarray2 bool :=
  Array2 (shape0 A) (shape1 B)
         ((λ row, (λ j, gf2_dot row ((λ r : list bool, r !!! j) <$> data B))
                    <$> seq 0 (shape1 B))
            <$> data A).

(** Entry [(i, j)] of [omega n]. *)
Definition omega_entry (n i j : nat) : bool := bool_decide (j = n + i ∨ i = n + j).

(** ** The matching ratio *)

(** The block-layout matrix of the columns of [pte] joined on [join_legs]. *)
Definition join_legs_matrix {TensorLeg : Type}
    (pte : StabilizerCodeTensorEnumerator TensorLeg)
    (join_legs : list TensorLeg) : result (ndarray2 Z) :=
  idx ← np_concatenate ((λ leg, get_col_indices pte [leg]) <$> join_legs);
  cols ← getcols (h pte) idx;
  Ok (to_symplectic cols).

(** The column indices that the function selects for [join_legs]. *)
Definition join_columns {TensorLeg : Type}
    (pte : StabilizerCodeTensorEnumerator TensorLeg)
    (join_legs : list TensorLeg) : list Z :=
  concat ((λ leg, get_col_indices pte [leg]) <$> join_legs).

(** Every index is a column of [M], counted from either end. *)
Definition valid_columns (M : ndarray2 Z) (idx : list Z) : Prop :=
  Forall (λ i, - Z.of_nat (shape1 M) ≤ i < Z.of_nat (shape1 M))%Z idx.

(** The two matrices stacked and reduced modulo 2. *)
Definition stack_mod2 (M1 M2 : ndarray2 Z) : ndarray2 Z :=
  uint8_and_1 (Array2 (shape0 M1 + shape0 M2) (shape1 M1) (data M1 ++ data M2)).

(** The float [f] is exactly [2^k]. *)
Definition float_is_two_pow (f : spec_float) (k : Z) : Prop :=
  ∃ m e, f = S754_finite false m e ∧ (e ≤ k)%Z ∧ Z.pos m = (2 ^ (k - e))%Z.

(** [0.0 < f <= 1.0] *)
Definition in_unit_interval (f : spec_float) : Prop :=
  SFltb (S754_zero false) f = true ∧ SFleb f (float_of_int 1) = true.

(** Every entry is 0. *)
Definition all_zero (M : ndarray2 Z) : Prop :=
  Forall (Forall (λ x, x = 0%Z)) (data M).

(** The powers [2 ** (-r)] that binary64 represents: each is exact and lies
    in (0, 1]. *)
Definition pow2_neg_ok (r : nat) : bool :=
  match py_float (py_pow2 (- Z.of_nat r)) with
  | S754_finite false m e as f =>
      (e <=? - Z.of_nat r)%Z && (Z.pos m =? 2 ^ (- Z.of_nat r - e))%Z
      && SFltb (S754_zero false) f && SFleb f (float_of_int 1)
  | _ => false
  end.

(** Components whose legs are qubit numbers: leg [l] owns the interleaved
    columns [2l] (X) and [2l + 1] (Z). *)
Definition qubit_columns (legs : list nat) : list Z :=
  concat ((λ l, [2 * Z.of_nat l; 2 * Z.of_nat l + 1]%Z) <$> legs).

Definition pte_a : StabilizerCodeTensorEnumerator nat :=
  {| h := Array2 2 8 [[1; 0; 0; 0; 0; 0; 0; 1]; [0; 1; 0; 0; 0; 0; 1; 0]]%Z;
     get_col_indices := qubit_columns |}.

Definition pte_b : StabilizerCodeTensorEnumerator nat :=
  {| h := Array2 1 2 [[1; 0]]%Z; get_col_indices := qubit_columns |}.

(** The identity of size [n] with its columns rearranged: column [c] holds
    column [block c] of the identity. *)
Definition rearranged_identity (n : nat) (block : nat → nat) : ndarray2 Z :=
  Array2 n n
         ((λ i, (λ c, if decide (i = block c) then 1%Z else 0%Z) <$> seq 0 n)
            <$> seq 0 n).

(** A component on 538 qubits whose parity-check matrix is the identity of
    size 1076 in interleaved layout: column [c] is column [c / 2] of the
    identity when [c] is even and column [538 + c / 2] when [c] is odd. *)
Definition block_column (c : nat) : nat :=
  if Nat.even c then c / 2 else 538 + c / 2.

Definition pte_big : StabilizerCodeTensorEnumerator nat :=
  {| h := rearranged_identity 1076 block_column;
     get_col_indices := qubit_columns |}.

(** * Properties *)

(** ** The result monad and indexing *)

Lemma collect_Ok {A B : Type} (f : A → result B) (g : A → B) (l : list A) :
  Forall (λ x, f x = Ok (g x)) l → collect f l = Ok (g <$> l).
Proof.
  induction 1 as [|x l Hx _ IH]; [reflexivity|].
  cbn. rewrite Hx. cbn. rewrite IH. reflexivity.
Qed.

Lemma norm_index_nat (len i : nat) :
  i < len → norm_index len (Z.of_nat i) = Ok i.
Proof.
  intros Hi. unfold norm_index.
  destruct (decide _) as [_|Hn]; [|lia].
  by rewrite Nat2Z.id.
Qed.

Lemma getitem_nat {A : Type} (a : list A) (i : nat) (x : A) :
  a !! i = Some x → getitem a (Z.of_nat i) = Ok x.
Proof.
  intros Hx. unfold getitem.
  rewrite norm_index_nat by (by eapply lookup_lt_Some).
  cbn. by rewrite Hx.
Qed.

Lemma getitem_total `{Inhabited A} (a : list A) (i : nat) :
  i < length a → getitem a (Z.of_nat i) = Ok (a !!! i).
Proof.
  intros Hi. apply getitem_nat. by apply list_lookup_lookup_total_lt.
Qed.

Lemma getitems_total `{Inhabited A} (a : list A) (idx : list Z) :
  Forall (λ z, 0 ≤ z < Z.of_nat (length a))%Z idx →
  getitems a idx = Ok ((λ z, a !!! Z.to_nat z) <$> idx).
Proof.
  intros Hidx. apply collect_Ok.
  eapply Forall_impl; [exact Hidx|]. cbn. intros z Hz.
  rewrite <- (Z2Nat.id z) at 1 by lia.
  apply getitem_total. lia.
Qed.

Lemma half_double (n : nat) : 2 * n / 2 = n.
Proof. rewrite Nat.mul_comm. apply Nat.div_mul. lia. Qed.

Lemma filter_fmap_of_nat (P : Z → Prop) `{∀ z, Decision (P z)} (l : list nat) :
  filter P (Z.of_nat <$> l) = Z.of_nat <$> filter (λ i, P (Z.of_nat i)) l.
Proof.
  induction l as [|x l IH]; [reflexivity|].
  rewrite fmap_cons, !filter_cons, IH.
  by destruct (decide _).
Qed.

Lemma filter_ext_elem {A : Type} (P Q : A → Prop)
    `{∀ x, Decision (P x)} `{∀ x, Decision (Q x)} (l : list A) :
  Forall (λ x, P x ↔ Q x) l → filter P l = filter Q l.
Proof.
  induction 1 as [|x l Hx _ IH]; [reflexivity|].
  rewrite !filter_cons, IH.
  destruct (decide (P x)), (decide (Q x)); tauto.
Qed.

Lemma filter_none {A : Type} (l : list A) : filter (λ _, False) l = [].
Proof.
  induction l as [|x l IH]; [reflexivity|].
  rewrite filter_cons_False; [exact IH|tauto].
Qed.

Lemma count_nonzero_fmap {A : Type} (h : A → bool) (l : list A) :
  count_nonzero (h <$> l) = length (filter (λ x, h x = true) l).
Proof.
  unfold count_nonzero.
  induction l as [|x l IH]; [reflexivity|].
  rewrite fmap_cons, !filter_cons.
  destruct (decide (h x = true)); cbn; [f_equal|]; exact IH.
Qed.

(** ** weight *)

Lemma weight_counts (v : list GF2) (n : nat) (skip : list Z) :
  length v = 2 * n → weight v skip = Ok (nonidentity_count v n skip).
Proof.
  intros Hlen. unfold weight, nonidentity_count.
  rewrite Hlen, half_double.
  unfold range. rewrite filter_fmap_of_nat.
  set (xs := filter (λ i, Z.of_nat i ∉ skip) (seq 0 n)).
  assert (Hxs : Forall (λ i, i < n) xs).
  { apply Forall_forall. intros i [_ Hi%elem_of_seq]%list_elem_of_filter. lia. }
  set (nonid := λ i : nat,
         v !!! Z.to_nat (Z.of_nat i)
         || v !!! Z.to_nat (Z.of_nat i + Z.of_nat n)).
  assert (Hcount :
    length (filter (λ i, nonid i = true) xs)
    = length (filter (λ i, (Z.of_nat i ∉ skip)
                       ∧ ((v !! i, v !! (n + i)) ≠ (Some false, Some false)))
                     (seq 0 n))).
  { unfold xs. rewrite list_filter_filter. f_equal.
    apply filter_ext_elem, Forall_seq. intros i Hi. unfold nonid.
    rewrite Nat2Z.id. replace (Z.to_nat _) with (n + i) by lia.
    rewrite (list_lookup_lookup_total_lt v i) by lia.
    rewrite (list_lookup_lookup_total_lt v (n + i)) by lia.
    destruct (v !!! i), (v !!! (n + i)); cbn; split; intros [? ?]; split;
      congruence. }
  destruct (decide _) as [[Hnil _]|Hne].
  - rewrite length_fmap in Hnil. apply nil_length_inv in Hnil.
    rewrite <- Hcount, Hnil. reflexivity.
  - rewrite !getitems_total.
    + cbn. rewrite <- !list_fmap_compose.
      rewrite zip_with_fmap_l, zip_with_fmap_r, zip_with_diag.
      rewrite count_nonzero_fmap. by rewrite <- Hcount.
    + apply Forall_fmap.
      eapply Forall_impl; [exact Hxs|]. cbn. intros; lia.
    + rewrite <- list_fmap_compose. apply Forall_fmap.
      eapply Forall_impl; [exact Hxs|]. cbn. intros; lia.
Qed.

(** C6: the weight of a length-2n vector is the number of non-skipped qubits
    carrying a non-identity Pauli, and it is 0 (no exception) when every qubit
    is skipped. *)
Theorem weight_spec (v : list GF2) (n : nat) (skip : list Z) :
  length v = 2 * n →
  weight v skip = Ok (nonidentity_count v n skip)
  ∧ ((∀ i, i < n → Z.of_nat i ∈ skip) → weight v skip = Ok 0).
Proof.
  intros Hlen. split; [by apply weight_counts|].
  intros Hall. rewrite (weight_counts v n skip Hlen). f_equal.
  unfold nonidentity_count.
  rewrite (filter_ext_elem _ (λ _, False)); [by rewrite filter_none|].
  apply Forall_seq. intros i Hi. split; [|done].
  intros [Hni _]. apply Hni, Hall. lia.
Qed.

Lemma weight_spec_witness :
  length [true; false; false; false; true; true] = 2 * 3
  ∧ weight [true; false; false; false; true; true] [1%Z] = Ok 2
  ∧ weight [true; false; false; false; true; true] [0%Z; 1%Z; 2%Z; 7%Z] = Ok 0.
Proof.
  split; [reflexivity|].
  destruct (weight_spec [true; false; false; false; true; true] 3 [1%Z] eq_refl)
    as [H1 _].
  destruct (weight_spec [true; false; false; false; true; true] 3
              [0%Z; 1%Z; 2%Z; 7%Z] eq_refl) as [_ H2].
  split; [exact H1|].
  apply H2. intros i Hi.
  destruct i as [|[|[|i]]]; [cbn; repeat constructor..|lia].
Defined.

(** ** symp_to_str and sympl_to_pauli_repr *)

Lemma get_concat_chars {A : Type} (c : A → ascii) (l : list A) (i : nat) :
  String.get i (String.concat "" ((λ x, String (c x) EmptyString) <$> l))
  = c <$> l !! i.
Proof.
  revert i. induction l as [|x l IH]; intros i; [by destruct i|].
  rewrite fmap_cons.
  change (String.concat "" (String (c x) "" :: ((λ x, String (c x) "") <$> l)))
    with (match (λ x, String (c x) "") <$> l with
          | [] => String (c x) ""
          | _ => String (c x) (String.concat "" ((λ x, String (c x) "") <$> l))
          end)%string.
  destruct l as [|y l].
  - destruct i as [|i]; [reflexivity|]. cbn. by destruct i.
  - rewrite fmap_cons. rewrite fmap_cons in IH.
    destruct i as [|i]; [reflexivity|]. cbn [String.get]. apply IH.
Qed.

Lemma range_lookup (n i : nat) : i < n → range n !! i = Some (Z.of_nat i).
Proof.
  intros Hi. unfold range. by rewrite list_lookup_fmap, lookup_seq_lt.
Qed.

Lemma range_Forall (P : Z → Prop) (n : nat) :
  (∀ i, i < n → P (Z.of_nat i)) → Forall P (range n).
Proof.
  intros HP. unfold range. apply Forall_fmap, Forall_seq.
  intros i Hi. apply HP. lia.
Qed.

Lemma sympl_to_pauli_repr_eq (v : list GF2) (n : nat) :
  length v = 2 * n →
  sympl_to_pauli_repr v
  = Ok ((λ i, 2 * int (v !!! (n + Z.to_nat i)%nat) + int (v !!! Z.to_nat i))%Z
          <$> range n).
Proof.
  intros Hlen. unfold sympl_to_pauli_repr. rewrite Hlen, half_double.
  apply collect_Ok, range_Forall. intros i Hi.
  replace (Z.of_nat i + Z.of_nat n)%Z with (Z.of_nat (n + i)) by lia.
  rewrite !getitem_total by lia. cbn. by rewrite !Nat2Z.id.
Qed.

Lemma symp_to_str_eq (v : list GF2) (n : nat) :
  length v = 2 * n →
  symp_to_str v false
  = Ok (String.concat ""
          ((λ i, String (pauli_label (v !!! Z.to_nat i) (v !!! (n + Z.to_nat i)))
                        EmptyString) <$> range n)).
Proof.
  intros Hlen. unfold symp_to_str. rewrite Hlen, half_double.
  erewrite collect_Ok; [reflexivity|].
  apply range_Forall. intros i Hi.
  replace (Z.of_nat i + Z.of_nat n)%Z with (Z.of_nat (n + i)) by lia.
  rewrite !getitem_total by lia. cbn. rewrite !Nat2Z.id.
  by destruct (v !!! i), (v !!! (n + i)).
Qed.

(** C7: entry [i] of [sympl_to_pauli_repr v] is [2 * v[n+i] + v[i]], and it is
    the index in I, X, Z, Y of character [i] of [symp_to_str v]. *)
Theorem pauli_repr_matches_label (v : list GF2) (n : nat) :
  length v = 2 * n →
  ∃ r s,
    sympl_to_pauli_repr v = Ok r ∧ symp_to_str v false = Ok s ∧ length r = n
    ∧ ∀ i, i < n →
        ∃ x z ch,
          v !! i = Some x ∧ v !! (n + i) = Some z
          ∧ r !! i = Some (2 * int z + int x)%Z
          ∧ String.get i s = Some ch
          ∧ pauli_index ch = Some (2 * int z + int x)%Z.
Proof.
  intros Hlen. eexists _, _.
  split; [by apply sympl_to_pauli_repr_eq|].
  split; [by apply symp_to_str_eq|].
  split; [unfold range; by rewrite !length_fmap, length_seq|].
  intros i Hi. exists (v !!! i), (v !!! (n + i)), (pauli_label (v !!! i) (v !!! (n + i))).
  split; [apply list_lookup_lookup_total_lt; lia|].
  split; [apply list_lookup_lookup_total_lt; lia|].
  split; [|split].
  - rewrite list_lookup_fmap, range_lookup by done. cbn. by rewrite Nat2Z.id.
  - rewrite (get_concat_chars
               (λ i, pauli_label (v !!! Z.to_nat i) (v !!! (n + Z.to_nat i)))).
    rewrite range_lookup by done. cbn. by rewrite Nat2Z.id.
  - by destruct (v !!! i), (v !!! (n + i)).
Qed.

Lemma pauli_repr_matches_label_witness :
  ∃ r s,
    sympl_to_pauli_repr [true; false; true; false; true; true] = Ok r
    ∧ symp_to_str [true; false; true; false; true; true] false = Ok s
    ∧ length r = 3
    ∧ ∀ i, i < 3 →
        ∃ x z ch,
          [true; false; true; false; true; true] !! i = Some x
          ∧ [true; false; true; false; true; true] !! (3 + i) = Some z
          ∧ r !! i = Some (2 * int z + int x)%Z
          ∧ String.get i s = Some ch
          ∧ pauli_index ch = Some (2 * int z + int x)%Z.
Proof.
  apply (pauli_repr_matches_label [true; false; true; false; true; true] 3).
  reflexivity.
Defined.

(** ** sstr *)

(** C5, as stated, fails: the two lines are not ["1_|_1"] and ["_1|1_"]. *)
Lemma sstr_example_not_as_claimed :
  sstr sstr_example ≠ Ok ("1_|_1" ++ newline ++ "_1|1_")%string.
Proof. vm_compute. discriminate. Qed.

(** C5, amended: [sstr] renders [[1,0,1,0],[0,1,0,1]] as the lines ["1_|1_"]
    and ["_1|_1"]: the X-part [1,0] and the Z-part [1,0] of the first row,
    then [0,1] and [0,1] of the second. *)
Theorem sstr_example_lines :
  sstr sstr_example = Ok ("1_|1_" ++ newline ++ "_1|_1")%string.
Proof. reflexivity. Qed.

(** ** sslice *)

Lemma getslice_prefix {A : Type} (a : list A) (k : nat) :
  k ≤ length a → getslice a 0 (Z.of_nat k) = take k a.
Proof.
  intros Hk. unfold getslice, slice_bound.
  rewrite !decide_False by lia.
  replace (Z.to_nat (Z.min 0 _)) with 0 by lia.
  cbn [drop]. f_equal. lia.
Qed.

Lemma getslice_suffix {A : Type} (a : list A) (k : nat) :
  k ≤ length a → getslice a (Z.of_nat k) (Z.of_nat (length a)) = drop k a.
Proof.
  intros Hk. unfold getslice, slice_bound.
  rewrite !decide_False by lia.
  replace (Z.to_nat (Z.min (Z.of_nat k) _)) with k by lia.
  rewrite take_ge; [done|]. rewrite length_drop. lia.
Qed.

Lemma collect_not_raise {A B : Type} (f : A → result B) (e : exn) (l : list A) :
  (∀ x, f x ≠ Raise e) → collect f l ≠ Raise e.
Proof.
  intros Hf. induction l as [|x l IH]; [done|]. cbn.
  specialize (Hf x). destruct (f x) as [y|e']; cbn; [|congruence].
  destruct (collect f l); cbn; congruence.
Qed.

Lemma getitem_not_ValueError {A : Type} (a : list A) (i : Z) :
  getitem a i ≠ Raise ValueError.
Proof.
  unfold getitem, norm_index. repeat case_decide; cbn; try done;
    by destruct (a !! _).
Qed.

Lemma getitems_not_ValueError {A : Type} (a : list A) (idx : list Z) :
  getitems a idx ≠ Raise ValueError.
Proof. apply collect_not_raise, getitem_not_ValueError. Qed.

Lemma sslice_list_not_ValueError (op : list GF2) (l : list Z) :
  sslice op (IdxList l) ≠ Raise ValueError.
Proof.
  cbn. case_decide; [done|].
  pose proof (getitems_not_ValueError op l).
  destruct (getitems op l) as [?|[]]; cbn; try done.
  pose proof (getitems_not_ValueError op
                ((λ i, i + Z.of_nat (length op / 2))%Z <$> l)).
  by destruct (getitems op _) as [?|[]].
Qed.

Lemma sslice_full_range (op : list GF2) (n : nat) (step : option Z) :
  length op = 2 * n → sslice op (IdxSlice None None step) = Ok op.
Proof.
  intros Hlen. unfold sslice. rewrite Hlen, half_double. f_equal.
  rewrite getslice_prefix by lia.
  replace (0 + Z.of_nat n)%Z with (Z.of_nat n) by lia.
  replace (Z.of_nat n + Z.of_nat n)%Z with (Z.of_nat (length op)) by lia.
  rewrite getslice_suffix by lia.
  apply take_drop.
Qed.

(** C9: [sslice] raises [ValueError] exactly when the index argument is neither
    a list, an array nor a slice; an empty index list gives the empty vector;
    an unset start of a slice counts as 0 and an unset stop as the qubit count
    [n], so that a slice with both bounds unset gives back the whole vector. *)
Theorem sslice_errors_and_defaults :
  (∀ op indices, sslice op indices = Raise ValueError ↔ indices = IdxOther)
  ∧ (∀ op, sslice op (IdxList []) = Ok [] ∧ sslice op (IdxArray []) = Ok [])
  ∧ (∀ op n start stop step, length op = 2 * n →
       sslice op (IdxSlice start stop step)
       = Ok (getslice op (default 0%Z start) (default (Z.of_nat n) stop)
             ++ getslice op (default 0%Z start + Z.of_nat n)
                            (default (Z.of_nat n) stop + Z.of_nat n)))
  ∧ (∀ op n step, length op = 2 * n →
       sslice op (IdxSlice None None step) = Ok op).
Proof.
  split; [|split; [|split]].
  - intros op indices. split; [|by intros ->].
    destruct indices as [l|l|start stop step|]; try done.
    + intros H. by apply sslice_list_not_ValueError in H.
    + intros H. by apply (sslice_list_not_ValueError op l) in H.
  - done.
  - intros op n start stop step Hlen.
    unfold sslice. rewrite Hlen, half_double. by destruct start, stop.
  - intros op n step Hlen. by eapply sslice_full_range.
Qed.

Lemma sslice_errors_and_defaults_witness :
  length [true; false; false; true] = 2 * 2
  ∧ sslice [true; false; false; true] (IdxSlice None None None)
    = Ok [true; false; false; true].
Proof.
  split; [reflexivity|].
  destruct sslice_errors_and_defaults as (_ & _ & _ & H).
  apply (H [true; false; false; true] 2 None). reflexivity.
Defined.

(** ** replace_with_op_on_indices *)

(** C1 fails on the code: the Z-bits are written at [indices + len(op) // 2],
    the half-length of the operand, not of the target.  Slicing qubit 0 out of
    IX (bits 0,1 | 0,0) and writing it back clears bit 1. *)
Theorem replace_after_sslice_differs :
  sslice [false; true; false; false] (IdxList [0%Z]) = Ok [false; false]
  ∧ replace_with_op_on_indices [0%Z] [false; false] [false; true; false; false]
    = Ok [false; false; false; false]
  ∧ replace_with_op_on_indices [0%Z] [false; false] [false; true; false; false]
    ≠ Ok [false; true; false; false].
Proof. repeat split; [reflexivity..|discriminate]. Qed.

(** ** sconcat *)

Lemma astype_int8_bits (v : list Z) :
  Forall (λ x, x = 0 ∨ x = 1)%Z v → astype_int8 <$> v = v.
Proof.
  induction 1 as [|x v Hx _ IH]; [reflexivity|].
  rewrite fmap_cons, IH. by destruct Hx as [-> | ->].
Qed.

Lemma sconcat_pair (a b : list Z) (na nb : nat) :
  symplectic_vector a na → symplectic_vector b nb →
  sconcat [a; b] = Ok (take na a ++ take nb b ++ drop na a ++ drop nb b).
Proof.
  intros [Ha Hba] [Hb Hbb]. unfold sconcat.
  rewrite !fmap_cons, fmap_nil. cbn beta. rewrite Ha, Hb, !half_double.
  cbn [zip_with np_concatenate mbind result_bind concat].
  rewrite !getslice_prefix, !getslice_suffix by lia.
  rewrite !app_nil_r. f_equal.
  assert (HX : Forall (λ x, x = 0 ∨ x = 1)%Z (take na a ++ take nb b))
    by (apply Forall_app; eauto using Forall_take).
  assert (HZ : Forall (λ x, x = 0 ∨ x = 1)%Z (drop na a ++ drop nb b))
    by (apply Forall_app; eauto using Forall_drop).
  rewrite (astype_int8_bits _ HX), (astype_int8_bits _ HZ).
  rewrite astype_int8_bits by (by apply Forall_app).
  by rewrite <- app_assoc.
Qed.

Lemma sconcat_pair_symplectic (a b : list Z) (na nb : nat) :
  symplectic_vector a na → symplectic_vector b nb →
  symplectic_vector (take na a ++ take nb b ++ drop na a ++ drop nb b) (na + nb).
Proof.
  intros [Ha Hba] [Hb Hbb]. split.
  - rewrite !length_app, !length_take, !length_drop. lia.
  - rewrite !Forall_app. repeat split; eauto using Forall_take, Forall_drop.
Qed.

(** C8: [sconcat] is associative on symplectic vectors, and both groupings
    give the three X-parts followed by the three Z-parts. *)
Theorem sconcat_assoc (a b c : list Z) (na nb nc : nat) :
  symplectic_vector a na → symplectic_vector b nb → symplectic_vector c nc →
  ∃ ab bc,
    sconcat [a; b] = Ok ab ∧ sconcat [b; c] = Ok bc
    ∧ sconcat [ab; c]
      = Ok (take na a ++ take nb b ++ take nc c
            ++ drop na a ++ drop nb b ++ drop nc c)
    ∧ sconcat [a; bc] = sconcat [ab; c].
Proof.
  intros Ha Hb Hc. eexists _, _.
  split; [by apply sconcat_pair|].
  split; [by apply sconcat_pair|].
  pose proof (sconcat_pair_symplectic a b na nb Ha Hb) as Hab.
  pose proof (sconcat_pair_symplectic b c nb nc Hb Hc) as Hbc.
  rewrite (sconcat_pair _ c (na + nb) nc Hab Hc).
  rewrite (sconcat_pair a _ na (nb + nc) Ha Hbc).
  destruct Ha as [Ha _], Hb as [Hb _], Hc as [Hc _].
  rewrite (app_assoc (take na a) (take nb b) (drop na a ++ drop nb b)).
  rewrite (app_assoc (take nb b) (take nc c) (drop nb b ++ drop nc c)).
  rewrite !take_app_length', !drop_app_length'
    by (rewrite length_app, !length_take; lia).
  rewrite <- !app_assoc. done.
Qed.

Lemma sconcat_assoc_witness :
  ∃ ab bc,
    sconcat [[1; 0; 0; 1]; [1; 1]]%Z = Ok ab
    ∧ sconcat [[1; 1]; [0; 1; 1; 0; 1; 1]]%Z = Ok bc
    ∧ sconcat [ab; [0; 1; 1; 0; 1; 1]%Z]
      = Ok [1; 0; 1; 0; 1; 1; 0; 1; 1; 0; 1; 1]%Z
    ∧ sconcat [[1; 0; 0; 1]%Z; bc] = sconcat [ab; [0; 1; 1; 0; 1; 1]%Z].
Proof.
  apply (sconcat_assoc [1; 0; 0; 1]%Z [1; 1]%Z [0; 1; 1; 0; 1; 1]%Z 2 1 3);
    (split; [reflexivity|repeat (constructor; [lia|]); constructor]).
Defined.

(** * Linear algebra over GF(2) *)

(** Vectors of [GF(2)^n] are boolean lists of length [n]; a matrix is the list
    of its rows. *)
Section GF2_vectors.
Variable n : nat.

(** ** Vector arithmetic *)

Lemma length_vxor (u v : list bool) :
  length u = n → length v = n → length (vxor u v) = n.
Proof. intros Hu Hv. unfold vxor. rewrite length_zip_with. lia. Qed.

Lemma length_vzero : length (vzero n) = n.
Proof. apply length_replicate. Qed.

Lemma vxor_comm (u v : list bool) : vxor u v = vxor v u.
Proof.
  unfold vxor. revert v. induction u as [|a u IH]; intros [|b v]; cbn; try done.
  by rewrite IH, xorb_comm.
Qed.

Lemma vxor_assoc (u v w : list bool) : vxor u (vxor v w) = vxor (vxor u v) w.
Proof.
  unfold vxor. revert v w.
  induction u as [|a u IH]; intros [|b v] [|c w]; cbn; try done.
  by rewrite IH, xorb_assoc.
Qed.

Lemma vxor_self (u : list bool) : length u = n → vxor u u = (vzero n).
Proof.
  intros Hu. unfold vxor, vzero. rewrite <- Hu. clear Hu.
  induction u as [|a u IH]; cbn; [done|]. by rewrite IH, xorb_nilpotent.
Qed.

Lemma vxor_zero_r (u : list bool) : length u = n → vxor u (vzero n) = u.
Proof.
  intros Hu. unfold vxor, vzero. rewrite <- Hu. clear Hu.
  induction u as [|a u IH]; cbn; [done|]. by rewrite IH, xorb_false_r.
Qed.

Lemma vxor_zero_l (u : list bool) : length u = n → vxor (vzero n) u = u.
Proof. intros Hu. by rewrite vxor_comm, vxor_zero_r. Qed.

Lemma vxor_cancel (u v : list bool) :
  length u = n → length v = n → vxor (vxor u v) v = u.
Proof.
  intros Hu Hv. by rewrite <- vxor_assoc, vxor_self, vxor_zero_r.
Qed.

Lemma lookup_vxor (u v : list bool) (i : nat) :
  length u = n → length v = n → i < n →
  vxor u v !!! i = xorb (u !!! i) (v !!! i).
Proof.
  intros Hu Hv Hi. apply list_lookup_total_correct.
  unfold vxor. rewrite lookup_zip_with.
  rewrite (list_lookup_lookup_total_lt u i), (list_lookup_lookup_total_lt v i)
    by lia.
  done.
Qed.

Lemma lookup_vzero (i : nat) : i < n → (vzero n) !!! i = false.
Proof. intros Hi. by apply list_lookup_total_correct, lookup_replicate_2. Qed.

(** ** Linear combinations *)

Lemma length_lincomb (cs : list bool) (rows : list (list bool)) :
  Forall (λ r, length r = n) rows → length (lincomb n cs rows) = n.
Proof.
  intros Hrows. revert cs.
  induction Hrows as [|r rows Hr _ IH]; intros [|c cs]; cbn;
    try apply length_vzero.
  destruct c; [apply length_vxor|]; auto.
Qed.

Lemma lincomb_false (rows : list (list bool)) (k : nat) :
  lincomb n (replicate k false) rows = (vzero n).
Proof.
  revert k. induction rows as [|r rows IH]; intros [|k]; cbn; auto.
Qed.

Lemma lincomb_xor (cs cs' : list bool) (rows : list (list bool)) :
  Forall (λ r, length r = n) rows →
  length cs = length rows → length cs' = length rows →
  lincomb n (zip_with xorb cs cs') rows
  = vxor (lincomb n cs rows) (lincomb n cs' rows).
Proof.
  intros Hrows. revert cs cs'.
  induction Hrows as [|r rows Hr Hrows IH]; intros [|c cs] [|c' cs'] Hc Hc';
    cbn in *; try lia.
  - by rewrite vxor_self by apply length_vzero.
  - rewrite IH by lia.
    pose proof (length_lincomb cs rows Hrows) as Hl.
    pose proof (length_lincomb cs' rows Hrows) as Hl'.
    destruct c, c'; cbn.
    + rewrite (vxor_comm r (lincomb n cs rows)), <- vxor_assoc.
      rewrite (vxor_assoc r r), vxor_self, vxor_zero_l by done. done.
    + by rewrite vxor_assoc.
    + rewrite !vxor_assoc. f_equal. apply vxor_comm.
    + done.
Qed.

(** A combination of rows that vanish at column [c] vanishes at [c]. *)
Lemma lincomb_column_false (c : nat) (cs : list bool) (rows : list (list bool)) :
  c < n → Forall (λ r, length r = n) rows →
  Forall (λ r, r !!! c = false) rows →
  lincomb n cs rows !!! c = false.
Proof.
  intros Hc Hrows. revert cs.
  induction Hrows as [|r rows Hr Hrows IH]; intros [|b cs] Hcol; cbn;
    try by apply lookup_vzero.
  apply Forall_cons in Hcol as [Hrc Hcol].
  destruct b; [|by apply IH].
  rewrite lookup_vxor; [|done|by apply length_lincomb|done].
  by rewrite Hrc, IH.
Qed.

(** ** Spans *)

Lemma in_span_length (rows : list (list bool)) (v : list bool) :
  Forall (λ r, length r = n) rows → in_span n rows v → length v = n.
Proof. intros Hrows (cs & _ & <-). by apply length_lincomb. Qed.

Lemma in_span_zero (rows : list (list bool)) : in_span n rows (vzero n).
Proof.
  exists (replicate (length rows) false).
  split; [apply length_replicate|apply lincomb_false].
Qed.

Lemma in_span_xor (rows : list (list bool)) (u v : list bool) :
  Forall (λ r, length r = n) rows →
  in_span n rows u → in_span n rows v → in_span n rows (vxor u v).
Proof.
  intros Hrows (cs & Hcs & <-) (cs' & Hcs' & <-).
  exists (zip_with xorb cs cs'). split.
  - rewrite length_zip_with. lia.
  - by apply lincomb_xor.
Qed.

Lemma in_span_cons (r : list bool) (rows : list (list bool)) (v : list bool) :
  in_span n rows v → in_span n (r :: rows) v.
Proof.
  intros (cs & Hcs & <-). exists (false :: cs). split; [cbn; lia|done].
Qed.

Lemma in_span_elem (rows : list (list bool)) (r : list bool) :
  Forall (λ r, length r = n) rows → r ∈ rows → in_span n rows r.
Proof.
  intros Hrows Hr. induction Hrows as [|r' rows Hr' _ IH]; [by inversion Hr|].
  apply elem_of_cons in Hr as [->|Hr].
  - exists (true :: replicate (length rows) false). split.
    + cbn. by rewrite length_replicate.
    + cbn. by rewrite lincomb_false, vxor_zero_r.
  - by apply in_span_cons, IH.
Qed.

(** A list of vectors of the span of [B] spans no more than [B]. *)
Lemma span_sub (A B : list (list bool)) (v : list bool) :
  Forall (λ r, length r = n) B →
  (∀ r, r ∈ A → in_span n B r) → in_span n A v → in_span n B v.
Proof.
  intros HB HA (cs & Hcs & <-). revert cs Hcs.
  induction A as [|r A IH]; intros [|c cs] Hcs; cbn in *; try lia;
    try apply in_span_zero.
  assert (in_span n B (lincomb n cs A)) as Hrest.
  { apply IH; [|lia]. intros r' Hr'. apply HA. by right. }
  destruct c; [|done].
  apply in_span_xor; [done| |done]. apply HA. by left.
Qed.

Lemma span_eq_of_elems (A B : list (list bool)) :
  Forall (λ r, length r = n) A → Forall (λ r, length r = n) B →
  (∀ r, r ∈ A → in_span n B r) → (∀ r, r ∈ B → in_span n A r) →
  ∀ v, in_span n A v ↔ in_span n B v.
Proof.
  intros HA HB HAB HBA v. split; by apply span_sub.
Qed.
(** ** Counting the span of independent rows *)

Lemma length_all_coeffs (k : nat) : length (all_coeffs k) = 2 ^ k.
Proof.
  induction k as [|k IH]; [done|].
  cbn [all_coeffs]. rewrite length_app, !length_fmap, IH. cbn. lia.
Qed.

Lemma elem_of_all_coeffs (k : nat) (cs : list bool) :
  cs ∈ all_coeffs k ↔ length cs = k.
Proof.
  revert cs. induction k as [|k IH]; intros cs; cbn [all_coeffs].
  - rewrite list_elem_of_singleton. split; [by intros ->|].
    by intros ?%nil_length_inv.
  - rewrite elem_of_app, !list_elem_of_fmap. split.
    + intros [(cs' & -> & H)|(cs' & -> & H)]; apply IH in H; cbn; lia.
    + destruct cs as [|[] cs]; cbn; [lia| |]; intros Hcs.
      * right. exists cs. split; [done|]. apply IH. lia.
      * left. exists cs. split; [done|]. apply IH. lia.
Qed.

Lemma NoDup_all_coeffs (k : nat) : NoDup (all_coeffs k).
Proof.
  induction k as [|k IH]; cbn [all_coeffs].
  - apply NoDup_singleton.
  - apply NoDup_app. split; [|split].
    + apply NoDup_fmap_2; [|done]. by intros ?? [= ->].
    + intros cs (cs1 & -> & _)%list_elem_of_fmap (cs2 & [=] & _)%list_elem_of_fmap.
    + apply NoDup_fmap_2; [|done]. by intros ?? [= ->].
Qed.

Lemma xor_coeffs_false (cs cs' : list bool) :
  length cs = length cs' →
  zip_with xorb cs cs' = replicate (length cs) false → cs = cs'.
Proof.
  revert cs'. induction cs as [|c cs IH]; intros [|c' cs'] Hlen Hx;
    cbn in *; try done.
  injection Hx as Hc Hx. f_equal; [by destruct c, c'|].
  apply IH; [lia|done].
Qed.

(** The coefficients of a vector over independent rows are unique. *)
Lemma lin_indep_inj (B : list (list bool)) (cs cs' : list bool) :
  Forall (λ b, length b = n) B → lin_indep n B →
  length cs = length B → length cs' = length B →
  lincomb n cs B = lincomb n cs' B → cs = cs'.
Proof.
  intros HB Hind Hcs Hcs' Heq.
  apply xor_coeffs_false; [lia|].
  rewrite Hcs. apply Hind.
  - rewrite length_zip_with. lia.
  - rewrite lincomb_xor, Heq by done.
    apply vxor_self. by apply length_lincomb.
Qed.

(** Independent rows inside the span of [B'] are no more than [B'] has. *)
Lemma lin_indep_le (B B' : list (list bool)) :
  Forall (λ b, length b = n) B → lin_indep n B →
  (∀ v, in_span n B v → in_span n B' v) → length B ≤ length B'.
Proof.
  intros HB Hind Hsub.
  apply (Nat.pow_le_mono_r_iff 2); [lia|].
  rewrite <- !length_all_coeffs.
  rewrite <- (length_fmap (λ cs, lincomb n cs B) (all_coeffs (length B))).
  rewrite <- (length_fmap (λ cs, lincomb n cs B') (all_coeffs (length B'))).
  apply submseteq_length, NoDup_submseteq.
  - apply NoDup_fmap_2_strong; [|apply NoDup_all_coeffs].
    intros cs cs' Hcs%elem_of_all_coeffs Hcs'%elem_of_all_coeffs.
    by apply lin_indep_inj.
  - intros v (cs & -> & Hcs%elem_of_all_coeffs)%list_elem_of_fmap.
    destruct (Hsub (lincomb n cs B)) as (cs' & Hcs' & <-); [by exists cs|].
    apply list_elem_of_fmap. exists cs'. split; [done|].
    by apply elem_of_all_coeffs.
Qed.

(** The rank is well defined: all bases of a row space have the same size. *)
Lemma is_rank_unique (rows : list (list bool)) (r r' : nat) :
  is_rank n rows r → is_rank n rows r' → r = r'.
Proof.
  intros (B & <- & HB & Hind & Hspan) (B' & <- & HB' & Hind' & Hspan').
  apply Nat.le_antisymm; apply lin_indep_le; try done.
  - intros v Hv. by apply Hspan', Hspan.
  - intros v Hv. by apply Hspan, Hspan'.
Qed.

Lemma is_rank_span_eq (A A' : list (list bool)) (r : nat) :
  (∀ v, in_span n A v ↔ in_span n A' v) → is_rank n A r → is_rank n A' r.
Proof.
  intros Heq (B & Hlen & HB & Hind & Hspan).
  exists B. split; [done|]. split; [done|]. split; [done|].
  intros v. by rewrite Hspan.
Qed.

(** Rows that are all zero have rank 0. *)
Lemma is_rank_zero_rows (rows : list (list bool)) :
  Forall (λ r, r = (vzero n)) rows → is_rank n rows 0.
Proof.
  intros Hrows. exists []. split; [done|]. split; [done|]. split.
  - intros cs Hcs _. by apply nil_length_inv in Hcs.
  - apply span_eq_of_elems; [done| | |].
    + eapply Forall_impl; [exact Hrows|]. intros r ->. apply length_vzero.
    + intros r Hr. by inversion Hr.
    + intros r Hr. rewrite Forall_forall in Hrows. rewrite (Hrows r Hr).
      apply in_span_zero.
Qed.

(** A row with a 1 in a column where all other rows are 0 adds one to the
    rank. *)
Lemma is_rank_cons_pivot (c : nat) (p : list bool) (rows : list (list bool))
    (r : nat) :
  c < n → length p = n → Forall (λ r, length r = n) rows →
  p !!! c = true → Forall (λ r, r !!! c = false) rows →
  is_rank n rows r → is_rank n (p :: rows) (S r).
Proof.
  intros Hc Hp Hrows Hpc Hcol (B & <- & HB & Hind & Hspan).
  assert (HBcol : Forall (λ b, b !!! c = false) B).
  { apply Forall_forall. intros b Hb.
    destruct (proj1 (Hspan b)) as (cs & _ & <-); [by apply in_span_elem|].
    by apply lincomb_column_false. }
  exists (p :: B). split; [done|]. split; [by constructor|]. split.
  - intros [|b cs] Hcs Hzero; cbn in Hcs; [lia|]. cbn in Hzero.
    destruct b.
    + exfalso. assert (Hbit : vxor p (lincomb n cs B) !!! c = true).
      { rewrite lookup_vxor; [|done|by apply length_lincomb|done].
        by rewrite Hpc, lincomb_column_false. }
      rewrite Hzero, lookup_vzero in Hbit by done. done.
    + cbn. f_equal. apply Hind; [lia|done].
  - apply span_eq_of_elems; try by constructor.
    + intros b [->|Hb]%elem_of_cons.
      * apply in_span_elem; [by constructor|by left].
      * by apply in_span_cons, Hspan, in_span_elem.
    + intros b [->|Hb]%elem_of_cons.
      * apply in_span_elem; [by constructor|by left].
      * by apply in_span_cons, Hspan, in_span_elem.
Qed.
End GF2_vectors.

(** * The packed rows as bit vectors *)

Lemma testbit_b2z (b : bool) (j : Z) :
  Z.testbit (Z.b2z b) j = b && bool_decide (j = 0%Z).
Proof.
  destruct b; cbn; [|apply Z.testbit_0_l].
  by destruct j.
Qed.

Lemma testbit_pack (f : nat → bool) (a len k : nat) :
  Z.testbit (foldr (λ k acc, Z.lor (Z.shiftl (Z.b2z (f k)) (Z.of_nat k)) acc)
                   0%Z (seq a len)) (Z.of_nat k)
  = if decide (a ≤ k < a + len) then f k else false.
Proof.
  revert a. induction len as [|len IH]; intros a; cbn [seq foldr].
  - rewrite Z.testbit_0_l. by case_decide; [lia|].
  - rewrite Z.lor_spec, IH, Z.shiftl_spec, testbit_b2z by lia.
    destruct (decide (k = a)) as [->|Hne].
    + rewrite bool_decide_eq_true_2 by lia.
      repeat case_decide; try lia. by rewrite andb_true_r, orb_false_r.
    + rewrite bool_decide_eq_false_2 by lia. rewrite andb_false_r. cbn.
      repeat case_decide; try done; lia.
Qed.

Lemma testbit_pack_byte (row : list Z) (w k : nat) :
  k < 8 →
  Z.testbit (pack_byte row w) (Z.of_nat k)
  = bool_decide (default 0%Z (row !! (8 * w + k)) ≠ 0%Z).
Proof.
  intros Hk. unfold pack_byte.
  rewrite (testbit_pack
             (λ k, bool_decide (default 0%Z (row !! (8 * w + k)) ≠ 0%Z)) 0 8 k).
  by rewrite decide_True by lia.
Qed.

Lemma land_mask_nonzero (x : Z) (k : nat) :
  Z.land x (Z.shiftl 1 (Z.of_nat k)) ≠ 0%Z ↔ Z.testbit x (Z.of_nat k) = true.
Proof.
  rewrite Z.shiftl_1_l. split.
  - intros Hne. destruct (Z.testbit x (Z.of_nat k)) eqn:Hbit; [done|].
    exfalso. apply Hne. apply Z.bits_inj'. intros j Hj.
    rewrite Z.land_spec, Z.bits_0, Z.pow2_bits_eqb by lia.
    destruct (Z.eqb_spec (Z.of_nat k) j) as [<-|_];
      [by rewrite Hbit|by rewrite andb_false_r].
  - intros Hbit Hzero.
    assert (Z.testbit (Z.land x (2 ^ Z.of_nat k)) (Z.of_nat k) = true) as H.
    { rewrite Z.land_spec, Hbit, Z.pow2_bits_true by lia. done. }
    rewrite Hzero, Z.bits_0 in H. done.
Qed.

Lemma div8_lt_bytes (n c : nat) : c < n → c / 8 < (n + 7) / 8.
Proof.
  intros Hc. apply Nat.Div0.div_lt_upper_bound.
  pose proof (Nat.div_mod_eq (n + 7) 8).
  pose proof (Nat.mod_upper_bound (n + 7) 8). lia.
Qed.

Lemma bit_at_xor (r1 r2 : list Z) (c : nat) :
  c / 8 < length r1 → c / 8 < length r2 →
  bit_at (zip_with Z.lxor r1 r2) c = xorb (bit_at r1 c) (bit_at r2 c).
Proof.
  intros H1 H2. unfold bit_at.
  rewrite (list_lookup_total_correct (zip_with Z.lxor r1 r2) (c / 8)
             (Z.lxor (r1 !!! (c / 8)) (r2 !!! (c / 8)))).
  - apply Z.lxor_spec.
  - rewrite lookup_zip_with.
    by rewrite (list_lookup_lookup_total_lt r1), (list_lookup_lookup_total_lt r2).
Qed.

Lemma length_unpack (n : nat) (row : list Z) : length (unpack n row) = n.
Proof. unfold unpack. by rewrite length_fmap, length_seq. Qed.

Lemma lookup_unpack (n : nat) (row : list Z) (c : nat) :
  c < n → unpack n row !!! c = bit_at row c.
Proof.
  intros Hc. apply list_lookup_total_correct. unfold unpack.
  by rewrite list_lookup_fmap, lookup_seq_lt.
Qed.

Lemma unpack_xor (n : nat) (r1 r2 : list Z) :
  length r1 = (n + 7) / 8 → length r2 = (n + 7) / 8 →
  unpack n (zip_with Z.lxor r1 r2) = vxor (unpack n r1) (unpack n r2).
Proof.
  intros H1 H2. unfold unpack, vxor.
  rewrite zip_with_fmap_l, zip_with_fmap_r, zip_with_diag.
  apply Forall_fmap_ext_1, Forall_seq. intros c Hc.
  apply bit_at_xor; rewrite ?H1, ?H2; apply div8_lt_bytes; lia.
Qed.

Lemma unpack_clear_packed (n c : nat) (p row : list Z) :
  c < n → length p = (n + 7) / 8 → length row = (n + 7) / 8 →
  unpack n (clear_packed (c / 8) (Z.shiftl 1 (Z.of_nat (c mod 8))) p row)
  = clear_column c (unpack n p) (unpack n row).
Proof.
  intros Hc Hp Hrow. unfold clear_packed, clear_column.
  rewrite lookup_unpack by done. fold (bit_at row c).
  destruct (decide _) as [Hnz|Hz].
  - apply land_mask_nonzero in Hnz. unfold bit_at at 1. rewrite Hnz.
    by apply unpack_xor.
  - destruct (bit_at row c) eqn:Hbit; [|done].
    exfalso. apply Hz. by apply land_mask_nonzero.
Qed.

(** Unpacking the packed matrix gives back the matrix over GF(2). *)
Lemma unpack_packbits (n : nat) (row : list Z) :
  length row = n →
  unpack n (pack_byte row <$> seq 0 ((n + 7) / 8)) = gf2_row row.
Proof.
  intros Hlen. unfold gf2_row. apply list_eq_same_length with n.
  - by rewrite length_fmap.
  - apply length_unpack.
  - intros c x y Hc Hx Hy.
    apply list_lookup_total_correct in Hx. rewrite lookup_unpack in Hx by done.
    rewrite list_lookup_fmap in Hy.
    destruct (row !! c) as [z|] eqn:Hz; [|done]. injection Hy as <-.
    rewrite <- Hx. unfold bit_at.
    rewrite (list_lookup_total_correct _ (c / 8) (pack_byte row (c / 8)))
      by (rewrite list_lookup_fmap, lookup_seq_lt; [done|by apply div8_lt_bytes]).
    rewrite testbit_pack_byte by (apply Nat.mod_upper_bound; lia).
    rewrite <- Nat.div_mod_eq. by rewrite Hz.
Qed.

(** * Elimination on bit vectors *)

Section Elimination.
Variable n : nat.

Lemma length_clear_column (c : nat) (p r : list bool) :
  length p = n → length r = n → length (clear_column c p r) = n.
Proof.
  intros Hp Hr. unfold clear_column. destruct (r !!! c : bool); [|done].
  by apply length_vxor.
Qed.

Lemma clear_column_lookup (c q : nat) (p r : list bool) :
  length p = n → length r = n → q < n →
  clear_column c p r !!! q
  = if (r !!! c : bool) then xorb (r !!! q) (p !!! q) else r !!! q.
Proof.
  intros Hp Hr Hq. unfold clear_column. destruct (r !!! c : bool); [|done].
  by apply (lookup_vxor n).
Qed.

(** Clearing a column below the pivot row does not change the row space. *)
Lemma span_clear_column (c : nat) (p : list bool) (rest : list (list bool)) :
  length p = n → Forall (λ r, length r = n) rest →
  ∀ v, in_span n (p :: rest) v ↔ in_span n (p :: (clear_column c p <$> rest)) v.
Proof.
  intros Hp Hrest.
  assert (Hnew : Forall (λ r, length r = n) (clear_column c p <$> rest)).
  { apply Forall_fmap. eapply Forall_impl; [exact Hrest|]. cbn.
    intros r Hr. by apply length_clear_column. }
  assert (Hall : Forall (λ r, length r = n) (p :: rest)) by by constructor.
  assert (Hall' : Forall (λ r, length r = n) (p :: (clear_column c p <$> rest)))
    by by constructor.
  apply span_eq_of_elems; try done.
  - intros r [->|Hr]%elem_of_cons.
    + apply in_span_elem; [done|by left].
    + assert (Hlen : length r = n) by (by eapply Forall_forall in Hrest).
      assert (Hin : clear_column c p r ∈ p :: (clear_column c p <$> rest)).
      { right. apply list_elem_of_fmap. by exists r. }
      apply (in_span_elem n _ _ Hall') in Hin.
      unfold clear_column in Hin. destruct (r !!! c : bool); [|done].
      rewrite <- (vxor_cancel n r p) by done.
      apply in_span_xor; [done|done|]. apply in_span_elem; [done|by left].
  - intros r' [->|(r & -> & Hr)%list_elem_of_fmap]%elem_of_cons.
    + apply in_span_elem; [done|by left].
    + unfold clear_column. destruct (r !!! c : bool).
      * apply in_span_xor; [done| |]; apply in_span_elem; try done;
          [by right|by left].
      * apply in_span_elem; [done|by right].
Qed.

Lemma is_rank_perm (A A' : list (list bool)) (r : nat) :
  A ≡ₚ A' → Forall (λ r, length r = n) A → is_rank n A r → is_rank n A' r.
Proof.
  intros HP HA. apply is_rank_span_eq.
  assert (HA' : Forall (λ r, length r = n) A') by (by rewrite <- HP).
  apply span_eq_of_elems; try done.
  - intros v Hv. apply in_span_elem; [done|]. by rewrite <- HP.
  - intros v Hv. apply in_span_elem; [done|]. by rewrite HP.
Qed.

(** One pivot step: the rows are, up to order, a pivot row [p] with a 1 in
    column [c] and the rows [rest]; clearing column [c] in [rest] leaves rows
    of rank one less. *)
Lemma is_rank_pivot_step (c : nat) (rows : list (list bool)) (p : list bool)
    (rest : list (list bool)) (r : nat) :
  c < n → rows ≡ₚ p :: rest → Forall (λ r, length r = n) rows →
  p !!! c = true →
  is_rank n (clear_column c p <$> rest) r → is_rank n rows (S r).
Proof.
  intros Hc HP Hrows Hpc Hrank.
  assert (Hall : Forall (λ r, length r = n) (p :: rest)) by (by rewrite <- HP).
  apply Forall_cons in Hall as [Hp Hrest].
  apply (is_rank_perm (p :: rest)); [done|by constructor|].
  apply (is_rank_span_eq n (p :: (clear_column c p <$> rest))).
  { intros v. symmetry. by apply span_clear_column. }
  apply (is_rank_cons_pivot n c); try done.
  - apply Forall_fmap. eapply Forall_impl; [exact Hrest|]. cbn.
    intros r' Hr'. by apply length_clear_column.
  - apply Forall_fmap. eapply Forall_impl; [exact Hrest|]. cbn.
    intros r' Hr'. rewrite clear_column_lookup by done.
    destruct (r' !!! c : bool); [by rewrite Hpc|done].
Qed.

Lemma zeros_below_pivot_step (c : nat) (rows : list (list bool)) (p : list bool)
    (rest : list (list bool)) :
  c < n → rows ≡ₚ p :: rest → Forall (λ r, length r = n) rows →
  p !!! c = true → zeros_below c rows →
  zeros_below (S c) (clear_column c p <$> rest).
Proof.
  intros Hc HP Hrows Hpc Hz. unfold zeros_below in *.
  rewrite HP in Hrows, Hz.
  apply Forall_cons in Hrows as [Hp Hrest]. apply Forall_cons in Hz as [Hzp Hz].
  apply Forall_fmap, Forall_forall. intros r Hr q Hq.
  rewrite Forall_forall in Hrest, Hz.
  rewrite clear_column_lookup by (auto; lia).
  destruct (decide (q = c)) as [->|Hne].
  - destruct (r !!! c : bool); [by rewrite Hpc|done].
  - assert (q < c) as Hlt by lia.
    rewrite (Hz r Hr q Hlt), (Hzp q Hlt). by destruct (r !!! c : bool).
Qed.

Lemma zeros_below_S (c : nat) (rows : list (list bool)) :
  zeros_below c rows → Forall (λ r, r !!! c = false) rows →
  zeros_below (S c) rows.
Proof.
  unfold zeros_below. rewrite !Forall_forall. intros Hz Hc r Hr q Hq.
  destruct (decide (q = c)) as [->|Hne]; [by apply Hc|].
  apply Hz; [done|lia].
Qed.

Lemma zeros_below_all (rows : list (list bool)) :
  Forall (λ r, length r = n) rows → zeros_below n rows →
  Forall (λ r, r = vzero n) rows.
Proof.
  unfold zeros_below. rewrite !Forall_forall. intros Hlen Hz r Hr.
  apply list_eq_same_length with n; [apply length_vzero|by apply Hlen|].
  intros i x y Hi Hx Hy.
  apply lookup_replicate in Hy as [-> _].
  apply list_lookup_total_correct in Hx. rewrite <- Hx. by apply Hz.
Qed.
End Elimination.

(** * The loop of rank_gf2 *)

Lemma np_where_nil (a : list Z) : np_where a = [] → Forall (λ x, x = 0%Z) a.
Proof.
  induction a as [|x a IH]; [done|]. cbn [np_where].
  destruct (decide (x ≠ 0%Z)) as [|Hx]; [done|].
  intros Hnil. apply fmap_nil_inv in Hnil.
  constructor; [|by apply IH].
  by destruct (decide (x = 0%Z)).
Qed.

Lemma np_where_head (a : list Z) (first : nat) (others : list nat) :
  np_where a = first :: others → ∃ x, a !! first = Some x ∧ x ≠ 0%Z.
Proof.
  revert first others. induction a as [|x a IH]; intros first others; [done|].
  cbn [np_where]. destruct (decide (x ≠ 0%Z)) as [Hx|Hx].
  - intros [= <- _]. by exists x.
  - destruct (np_where a) as [|f' o'] eqn:Hw; [done|].
    rewrite fmap_cons. intros [= <- _]. by eapply IH.
Qed.

Lemma eliminate_row_insert (word : nat) (mask : Z) (rank i : nat)
    (packed : list (list Z)) :
  i < length packed →
  eliminate_row word mask rank packed i
  = <[i := clear_packed word mask (packed !!! rank) (packed !!! i)]> packed.
Proof.
  intros Hi. unfold eliminate_row, clear_packed.
  destruct (decide _); [done|].
  symmetry. by apply list_insert_id, list_lookup_lookup_total_lt.
Qed.

(** The inner loop over rows [a .. a+k-1] below the pivot row. *)
Lemma eliminate_rows_fold (word : nat) (mask : Z) (rank k : nat) :
  ∀ (a : nat) (l : list (list Z)),
    rank < a → a + k ≤ length l →
    foldl (eliminate_row word mask rank) l (seq a k)
    = take a l
      ++ (clear_packed word mask (l !!! rank) <$> take k (drop a l))
      ++ drop (a + k) l.
Proof.
  induction k as [|k IH]; intros a l Ha Hlen.
  - rewrite Nat.add_0_r, take_0, fmap_nil, app_nil_l, take_drop. done.
  - cbn [seq foldl]. rewrite eliminate_row_insert by lia.
    set (x := clear_packed word mask (l !!! rank) (l !!! a)).
    assert (Hla : l !! a = Some (l !!! a))
      by (apply list_lookup_lookup_total_lt; lia).
    rewrite IH by (rewrite ?length_insert; lia).
    rewrite list_lookup_total_insert_ne by lia.
    rewrite take_insert_lt, !drop_insert_lt by lia.
    rewrite (take_S_r l a (l !!! a)) by done.
    rewrite insert_app_r_alt by (rewrite length_take; lia).
    rewrite length_take, Nat.min_l, Nat.sub_diag by lia. cbn [insert list_insert].
    rewrite (drop_S l (l !!! a) a) by done. cbn [take fmap list_fmap].
    rewrite <- app_assoc. cbn [app].
    by replace (S a + k) with (a + S k) by lia.
Qed.

Lemma eliminate_rows_below (word : nat) (mask : Z) (rank : nat)
    (l : list (list Z)) :
  rank < length l →
  foldl (eliminate_row word mask rank) l
        (seq (rank + 1) (length l - (rank + 1)))
  = take (rank + 1) l
    ++ (clear_packed word mask (l !!! rank) <$> drop (rank + 1) l).
Proof.
  intros Hrank. rewrite eliminate_rows_fold by lia.
  rewrite (take_ge (drop (rank + 1) l)) by (rewrite length_drop; lia).
  rewrite (drop_ge l (rank + 1 + (length l - (rank + 1)))) by lia.
  by rewrite app_nil_r.
Qed.

(** After the optional swap the pivot row is row [rank], and the rows from
    [rank] on are the old ones in another order. *)
Lemma pivot_to_top (rank first : nat) (packed : list (list Z)) (p : list Z) :
  packed !! (first + rank) = Some p →
  let l1 := if decide (first + rank ≠ rank)
            then swap_rows rank (first + rank) packed else packed in
  length l1 = length packed
  ∧ l1 !! rank = Some p
  ∧ drop rank l1 ≡ₚ drop rank packed.
Proof.
  intros Hp. cbn zeta. destruct (decide _) as [Hne|Heq].
  - assert (Hlt : first + rank < length packed) by (by eapply lookup_lt_Some).
    assert (Hr : packed !! rank = Some (packed !!! rank))
      by (apply list_lookup_lookup_total_lt; lia).
    unfold swap_rows.
    rewrite (list_lookup_total_correct _ _ _ Hp).
    split; [by rewrite !length_insert|]. split.
    + rewrite list_lookup_insert_ne by lia.
      apply list_lookup_insert_eq. lia.
    + rewrite !drop_insert_ge by lia.
      replace (rank - rank) with 0 by lia.
      apply Permutation_insert_swap.
      * rewrite lookup_drop. by rewrite Nat.add_0_r.
      * rewrite lookup_drop. by replace (rank + (first + rank - rank))
          with (first + rank) by lia.
  - assert (first = 0) as -> by lia. done.
Qed.

Lemma Forall_length_unpack (n : nat) (packed : list (list Z)) :
  Forall (λ r, length r = n) (unpack n <$> packed).
Proof. apply Forall_fmap, Forall_true. intros row. apply length_unpack. Qed.

(** The loop from column [c] on, entered with the rows from [rank] on zero
    below column [c], adds the rank of those rows to [rank]. *)
Lemma rank_gf2_loop_correct (n m : nat) :
  ∀ (cols : list nat) (c : nat) (packed : list (list Z)) (rank : nat),
    cols = seq c (n - c) → c ≤ n → length packed = m → rank ≤ m →
    Forall (λ row, length row = (n + 7) / 8) packed →
    zeros_below c (drop rank (unpack n <$> packed)) →
    ∃ r, is_rank n (drop rank (unpack n <$> packed)) r
         ∧ rank_gf2_loop m cols packed rank = rank + r.
Proof.
  induction cols as [|col cols IH];
    intros c packed rank Hcols Hc Hlen Hrank Hbytes Hz.
  - assert (c = n) as -> by (destruct (n - c) eqn:E; [lia|done]).
    exists 0. split; [|cbn; lia].
    apply is_rank_zero_rows, zeros_below_all; [|done].
    apply Forall_drop, Forall_length_unpack.
  - destruct (n - c) as [|k] eqn:E; [done|].
    cbn [seq] in Hcols. injection Hcols as -> Hcols.
    assert (Hcn : c < n) by lia.
    assert (Hcols' : cols = seq (S c) (n - S c))
      by (rewrite Hcols; f_equal; lia).
    cbn [rank_gf2_loop].
    destruct (np_where _) as [|first others] eqn:Hw.
    + apply np_where_nil in Hw.
      apply (IH (S c)); try done.
      apply zeros_below_S; [done|].
      rewrite <- fmap_drop. apply Forall_fmap.
      rewrite Forall_fmap in Hw.
      eapply Forall_impl; [exact Hw|]. cbn. intros row Hrow.
      rewrite lookup_unpack by done. unfold bit_at.
      destruct (Z.testbit _ _) eqn:Hb; [|done].
      by apply land_mask_nonzero in Hb.
    + apply np_where_head in Hw as (x & Hx & Hxnz).
      rewrite list_lookup_fmap, lookup_drop in Hx.
      destruct (packed !! (rank + first)) as [p|] eqn:Hp; [|done].
      cbn in Hx. injection Hx as <-.
      rewrite Nat.add_comm in Hp.
      assert (Hlt : rank < m)
        by (apply lookup_lt_Some in Hp; lia).
      destruct (pivot_to_top rank first packed p Hp) as (Hl1 & Hl1r & Hperm).
      set (l1 := if decide (first + rank ≠ rank)
                 then swap_rows rank (first + rank) packed else packed) in *.
      replace (m - (rank + 1)) with (length l1 - (rank + 1)) by lia.
      rewrite eliminate_rows_below by lia.
      rewrite (list_lookup_total_correct _ _ _ Hl1r).
      set (word := c / 8). set (mask := Z.shiftl 1 (Z.of_nat (c mod 8))).
      set (packed2 := take (rank + 1) l1
                      ++ (clear_packed word mask p <$> drop (rank + 1) l1)).
      assert (Hbytes1 : Forall (λ row, length row = (n + 7) / 8) l1).
      { rewrite <- (take_drop rank l1). apply Forall_app. split.
        - unfold l1. destruct (decide _); [|by apply Forall_take].
          unfold swap_rows. rewrite !take_insert_ge by lia.
          by apply Forall_take.
        - rewrite Hperm. by apply Forall_drop. }
      assert (Hpbytes : length p = (n + 7) / 8).
      { rewrite Forall_forall in Hbytes. apply Hbytes.
        by eapply list_elem_of_lookup_2. }
      set (pb := unpack n p).
      set (rest := unpack n <$> drop (rank + 1) l1).
      assert (Hrows : drop rank (unpack n <$> packed) ≡ₚ pb :: rest).
      { rewrite <- fmap_drop, <- Hperm.
        rewrite (drop_S l1 p rank Hl1r). rewrite fmap_cons.
        unfold pb, rest. by replace (rank + 1) with (S rank) by lia. }
      assert (Hpc : pb !!! c = true).
      { unfold pb. rewrite lookup_unpack by done.
        by apply land_mask_nonzero. }
      assert (Hdrop2 : drop (rank + 1) (unpack n <$> packed2)
                       = clear_column c pb <$> rest).
      { unfold packed2. rewrite fmap_app.
        rewrite drop_app_length'
          by (rewrite length_fmap, length_take; lia).
        unfold rest. rewrite <- !list_fmap_compose.
        apply Forall_fmap_ext_1.
        eapply Forall_impl; [apply Forall_drop, Hbytes1|].
        cbn. intros row Hrow. by apply unpack_clear_packed. }
      assert (Hrowlen : Forall (λ r, length r = n) (drop rank (unpack n <$> packed)))
        by apply Forall_drop, Forall_length_unpack.
      destruct (decide (rank + 1 = m)) as [Hm|Hm].
      * exists 1. split; [|lia].
        eapply (is_rank_pivot_step n c); try done.
        apply is_rank_zero_rows.
        assert (rest = []) as ->; [|done].
        apply nil_length_inv. unfold rest. rewrite length_fmap, length_drop. lia.
      * destruct (IH (S c) packed2 (rank + 1)) as (r & Hr & Hloop);
          try done; try lia.
        -- unfold packed2.
           rewrite length_app, length_fmap, length_take, length_drop. lia.
        -- unfold packed2. apply Forall_app. split; [by apply Forall_take|].
           apply Forall_fmap.
           eapply Forall_impl; [apply Forall_drop, Hbytes1|].
           intros row Hrow. unfold compose, clear_packed. cbn beta in *.
           destruct (decide (Z.land _ _ ≠ 0%Z)); [|done].
           rewrite length_zip_with. lia.
        -- rewrite Hdrop2. by eapply (zeros_below_pivot_step n c).
        -- exists (S r). split; [|lia].
           rewrite Hdrop2 in Hr.
           by eapply (is_rank_pivot_step n c).
Qed.

(** * rank_gf2 computes the rank over GF(2) *)

Lemma gf2_rows_length (M : ndarray2 Z) :
  wf_array M → Forall (λ r, length r = shape1 M) (gf2_rows M).
Proof.
  intros [_ Hrows]. unfold gf2_rows, gf2_row. apply Forall_fmap.
  eapply Forall_impl; [exact Hrows|]. cbn. intros r Hr. by rewrite length_fmap.
Qed.

Lemma rank_gf2_correct (M : ndarray2 Z) :
  wf_array M → is_rank (shape1 M) (gf2_rows M) (rank_gf2 M).
Proof.
  intros [Hlen Hrows]. unfold rank_gf2.
  destruct (rank_gf2_loop_correct (shape1 M) (shape0 M) (seq 0 (shape1 M)) 0
              (data (np_packbits M)) 0) as (r & Hr & Hloop).
  - by rewrite Nat.sub_0_r.
  - lia.
  - cbn [np_packbits data]. by rewrite length_fmap.
  - lia.
  - cbn [np_packbits data shape1]. apply Forall_fmap, Forall_true.
    intros row. unfold compose. cbn beta. by rewrite length_fmap, length_seq.
  - apply Forall_true. intros; lia.
  - rewrite Hloop. cbn [plus].
    replace (gf2_rows M) with (drop 0 (unpack (shape1 M) <$> data (np_packbits M)));
      [done|].
    rewrite drop_0. cbn [np_packbits data shape1].
    rewrite <- list_fmap_compose. unfold gf2_rows.
    apply Forall_fmap_ext_1.
    eapply Forall_impl; [exact Hrows|].
    intros row Hrow. cbn beta in *. unfold compose.
    by apply unpack_packbits.
Qed.

(** Matrices with the same row space have the same [rank_gf2]. *)
Lemma rank_gf2_span_eq (M M' : ndarray2 Z) :
  wf_array M → wf_array M' → shape1 M' = shape1 M →
  (∀ v, in_span (shape1 M) (gf2_rows M) v ↔ in_span (shape1 M) (gf2_rows M') v) →
  rank_gf2 M' = rank_gf2 M.
Proof.
  intros HM HM' Hcols Hspan.
  apply (is_rank_unique (shape1 M) (gf2_rows M')).
  - rewrite <- Hcols. by apply rank_gf2_correct.
  - eapply is_rank_span_eq; [exact Hspan|]. by apply rank_gf2_correct.
Qed.

Lemma wf_np_zeros (m n : nat) : wf_array (np_zeros m n).
Proof.
  split; cbn; [by rewrite length_replicate|].
  apply Forall_replicate. by rewrite length_replicate.
Qed.

Lemma wf_np_eye (n : nat) : wf_array (np_eye n).
Proof.
  split; cbn; [by rewrite length_fmap, length_seq|].
  apply Forall_fmap, Forall_true. intros i. cbn.
  by rewrite length_fmap, length_seq.
Qed.

Lemma is_rank_zeros (m n : nat) : is_rank n (gf2_rows (np_zeros m n)) 0.
Proof.
  apply is_rank_zero_rows. unfold gf2_rows, np_zeros. cbn [data].
  apply Forall_fmap, Forall_replicate. cbn. unfold gf2_row, vzero.
  by rewrite fmap_replicate.
Qed.

Lemma gf2_rows_eye (n : nat) : gf2_rows (np_eye n) = unit_row n <$> seq 0 n.
Proof.
  unfold gf2_rows, np_eye. cbn [data]. rewrite <- list_fmap_compose.
  apply Forall_fmap_ext_1, Forall_true. intros i. cbn.
  unfold gf2_row, unit_row. rewrite <- list_fmap_compose.
  apply Forall_fmap_ext_1, Forall_true. intros j. cbn.
  destruct (decide (i = j)).
  - by rewrite !bool_decide_eq_true_2.
  - rewrite !bool_decide_eq_false_2; [done..|]. by intros [].
Qed.

Lemma unit_row_lookup (n i j : nat) :
  j < n → unit_row n i !!! j = bool_decide (i = j).
Proof.
  intros Hj. apply list_lookup_total_correct. unfold unit_row.
  by rewrite list_lookup_fmap, lookup_seq_lt.
Qed.

Lemma is_rank_unit_rows (n len : nat) :
  ∀ j, j + len = n → is_rank n (unit_row n <$> seq j len) len.
Proof.
  induction len as [|len IH]; intros j Hj.
  - by apply is_rank_zero_rows.
  - cbn [seq fmap list_fmap]. apply (is_rank_cons_pivot n j).
    + lia.
    + unfold unit_row. by rewrite length_fmap, length_seq.
    + apply Forall_fmap, Forall_true. intros i. cbn. unfold unit_row.
      by rewrite length_fmap, length_seq.
    + rewrite unit_row_lookup by lia. by apply bool_decide_eq_true_2.
    + apply Forall_fmap, Forall_seq. intros i Hi. cbn.
      rewrite unit_row_lookup by lia. apply bool_decide_eq_false_2. lia.
    + apply IH. lia.
Qed.

(** C3: on an m-by-n matrix (any m and n) [rank_gf2] returns the rank over
    GF(2): the unique size of a basis of the row space.  The all-zero matrix
    has rank 0 and the identity of size n has rank n. *)
Theorem rank_gf2_is_rank :
  (∀ M r, wf_array M →
     is_rank (shape1 M) (gf2_rows M) r ↔ rank_gf2 M = r)
  ∧ (∀ m n, rank_gf2 (np_zeros m n) = 0)
  ∧ (∀ n, rank_gf2 (np_eye n) = n).
Proof.
  split; [|split].
  - intros M r HM. split.
    + intros Hr. eapply is_rank_unique; [|exact Hr]. by apply rank_gf2_correct.
    + intros <-. by apply rank_gf2_correct.
  - intros m n. apply (is_rank_unique n (gf2_rows (np_zeros m n))).
    + apply (rank_gf2_correct (np_zeros m n)), wf_np_zeros.
    + apply is_rank_zeros.
  - intros n. apply (is_rank_unique n (gf2_rows (np_eye n))).
    + apply (rank_gf2_correct (np_eye n)), wf_np_eye.
    + rewrite gf2_rows_eye. by apply is_rank_unit_rows.
Qed.

Lemma rank_gf2_is_rank_witness :
  wf_array (Array2 3 2 [[1; 0]; [0; 1]; [1; 1]]%Z)
  ∧ (is_rank 2 (gf2_rows (Array2 3 2 [[1; 0]; [0; 1]; [1; 1]]%Z)) 2
     ↔ rank_gf2 (Array2 3 2 [[1; 0]; [0; 1]; [1; 1]]%Z) = 2).
Proof.
  assert (H : wf_array (Array2 3 2 [[1; 0]; [0; 1]; [1; 1]]%Z)).
  { split; [reflexivity|]. repeat constructor. }
  split; [exact H|].
  destruct rank_gf2_is_rank as (Hrank & _ & _).
  exact (Hrank (Array2 3 2 [[1; 0]; [0; 1]; [1; 1]]%Z) 2 H).
Defined.

(** ** Row operations *)

Lemma gf2_row_lxor (r1 r2 : list Z) :
  Forall (λ x, x = 0 ∨ x = 1)%Z r1 → Forall (λ x, x = 0 ∨ x = 1)%Z r2 →
  gf2_row (zip_with Z.lxor r1 r2) = vxor (gf2_row r1) (gf2_row r2).
Proof.
  intros H1. revert r2. unfold gf2_row, vxor.
  induction H1 as [|x r1 Hx _ IH]; intros r2 H2; [done|].
  destruct H2 as [|y r2 Hy H2]; [done|].
  cbn. rewrite IH by done. f_equal.
  by destruct Hx as [-> | ->], Hy as [-> | ->].
Qed.

Lemma span_insert_xor (n : nat) (A : list (list bool)) (i j : nat)
    (ri rj : list bool) :
  Forall (λ r, length r = n) A → i ≠ j →
  A !! i = Some ri → A !! j = Some rj →
  ∀ v, in_span n A v ↔ in_span n (<[i := vxor ri rj]> A) v.
Proof.
  intros HA Hij Hi Hj.
  assert (Hri : length ri = n)
    by (rewrite Forall_forall in HA; by eapply HA, list_elem_of_lookup_2).
  assert (Hrj : length rj = n)
    by (rewrite Forall_forall in HA; by eapply HA, list_elem_of_lookup_2).
  assert (HA' : Forall (λ r, length r = n) (<[i := vxor ri rj]> A))
    by (apply Forall_insert; [done|by apply length_vxor]).
  assert (Hnew_i : vxor ri rj ∈ <[i := vxor ri rj]> A).
  { eapply list_elem_of_lookup_2, list_lookup_insert_eq.
    by eapply lookup_lt_Some. }
  assert (Hnew_j : rj ∈ <[i := vxor ri rj]> A).
  { eapply list_elem_of_lookup_2. by rewrite list_lookup_insert_ne. }
  apply span_eq_of_elems; try done.
  - intros r (k & Hk)%list_elem_of_lookup_1.
    destruct (decide (k = i)) as [->|Hne].
    + assert (r = ri) as -> by congruence.
      assert (in_span n (<[i := vxor ri rj]> A) (vxor (vxor ri rj) rj)) as H
        by (apply in_span_xor; [done| |]; by apply in_span_elem).
      by rewrite (vxor_cancel n) in H.
    + apply in_span_elem; [done|].
      eapply list_elem_of_lookup_2. by rewrite list_lookup_insert_ne.
  - intros r (k & Hk)%list_elem_of_lookup_1.
    apply list_lookup_insert_Some in Hk as [(-> & <- & _)|[_ Hk]].
    + apply in_span_xor; [done| |]; apply in_span_elem; try done;
        by eapply list_elem_of_lookup_2.
    + apply in_span_elem; [done|]. by eapply list_elem_of_lookup_2.
Qed.

Lemma span_app_duplicate (n : nat) (A : list (list bool)) (r : list bool) :
  Forall (λ r, length r = n) A → r ∈ A →
  ∀ v, in_span n A v ↔ in_span n (A ++ [r]) v.
Proof.
  intros HA Hr.
  assert (HA' : Forall (λ r, length r = n) (A ++ [r])).
  { apply Forall_app. split; [done|]. constructor; [|done].
    rewrite Forall_forall in HA. by apply HA. }
  apply span_eq_of_elems; try done.
  - intros r' Hr'. apply in_span_elem; [done|]. apply elem_of_app. by left.
  - intros r' [Hr'|Hr']%elem_of_app; apply in_span_elem; try done.
    by apply list_elem_of_singleton in Hr' as ->.
Qed.

(** C4: [rank_gf2] is unchanged by permuting the rows, by XOR-ing one row into
    a different row, and by appending a copy of an existing row. *)
Theorem rank_gf2_row_operations (M : ndarray2 Z) :
  wf_array M → is_binary M →
  (∀ rows', rows' ≡ₚ data M →
     rank_gf2 (Array2 (shape0 M) (shape1 M) rows') = rank_gf2 M)
  ∧ (∀ i j ri rj, i ≠ j → data M !! i = Some ri → data M !! j = Some rj →
       rank_gf2 (Array2 (shape0 M) (shape1 M)
                        (<[i := zip_with Z.lxor ri rj]> (data M)))
       = rank_gf2 M)
  ∧ (∀ r, r ∈ data M →
       rank_gf2 (Array2 (S (shape0 M)) (shape1 M) (data M ++ [r]))
       = rank_gf2 M).
Proof.
  intros HM Hbin. pose proof HM as [Hlen Hrows].
  pose proof (gf2_rows_length M HM) as Hgf.
  split; [|split].
  - intros rows' Hperm.
    assert (HM' : wf_array (Array2 (shape0 M) (shape1 M) rows')).
    { split; cbn; [by rewrite Hperm|by rewrite Hperm]. }
    apply rank_gf2_span_eq; try done.
    assert (HP : gf2_rows (Array2 (shape0 M) (shape1 M) rows') ≡ₚ gf2_rows M)
      by (unfold gf2_rows; cbn [data]; by rewrite Hperm).
    apply span_eq_of_elems; try done.
    + by rewrite HP.
    + intros r Hr. apply in_span_elem; [by rewrite HP|by rewrite HP].
    + intros r Hr. apply in_span_elem; [done|by rewrite <- HP].
  - intros i j ri rj Hij Hi Hj.
    assert (Hbi : Forall (λ x, x = 0 ∨ x = 1)%Z ri)
      by (unfold is_binary in Hbin; rewrite Forall_forall in Hbin;
          by eapply Hbin, list_elem_of_lookup_2).
    assert (Hbj : Forall (λ x, x = 0 ∨ x = 1)%Z rj)
      by (unfold is_binary in Hbin; rewrite Forall_forall in Hbin;
          by eapply Hbin, list_elem_of_lookup_2).
    assert (Hli : length ri = shape1 M)
      by (rewrite Forall_forall in Hrows; by eapply Hrows, list_elem_of_lookup_2).
    assert (Hlj : length rj = shape1 M)
      by (rewrite Forall_forall in Hrows; by eapply Hrows, list_elem_of_lookup_2).
    apply rank_gf2_span_eq; try done.
    + split; cbn; [by rewrite length_insert|].
      apply Forall_insert; [done|]. rewrite length_zip_with. lia.
    + unfold gf2_rows at 2. cbn [data].
      rewrite list_fmap_insert, gf2_row_lxor by done.
      apply (span_insert_xor _ _ i j); try done; unfold gf2_rows;
        rewrite list_lookup_fmap; by (rewrite Hi || rewrite Hj).
  - intros r Hr.
    apply rank_gf2_span_eq; try done.
    + split; cbn; [rewrite length_app; cbn; lia|].
      apply Forall_app. split; [done|]. constructor; [|done].
      rewrite Forall_forall in Hrows. by apply Hrows.
    + unfold gf2_rows at 2. cbn [data]. rewrite fmap_app. cbn [fmap list_fmap].
      apply span_app_duplicate; [done|].
      unfold gf2_rows. apply list_elem_of_fmap. by exists r.
Qed.

Lemma rank_gf2_row_operations_witness :
  rank_gf2 (Array2 3 3 [[0; 1; 1]; [1; 0; 1]; [1; 1; 0]]%Z)
  = rank_gf2 (Array2 3 3 [[1; 0; 1]; [0; 1; 1]; [1; 1; 0]]%Z)
  ∧ rank_gf2 (Array2 3 3 [[1; 0; 1]; [1; 1; 0]; [1; 1; 0]]%Z)
    = rank_gf2 (Array2 3 3 [[1; 0; 1]; [0; 1; 1]; [1; 1; 0]]%Z)
  ∧ rank_gf2 (Array2 4 3 [[1; 0; 1]; [0; 1; 1]; [1; 1; 0]; [0; 1; 1]]%Z)
    = rank_gf2 (Array2 3 3 [[1; 0; 1]; [0; 1; 1]; [1; 1; 0]]%Z).
Proof.
  assert (Hwf : wf_array (Array2 3 3 [[1; 0; 1]; [0; 1; 1]; [1; 1; 0]]%Z)).
  { split; [reflexivity|]. repeat constructor. }
  assert (Hbin : is_binary (Array2 3 3 [[1; 0; 1]; [0; 1; 1]; [1; 1; 0]]%Z)).
  { unfold is_binary. cbn [data].
    repeat (constructor; [repeat (constructor; [lia|]); constructor|]).
    constructor. }
  destruct (rank_gf2_row_operations _ Hwf Hbin) as (Hperm & Hxor & Hdup).
  split; [|split].
  - apply (Hperm [[0; 1; 1]; [1; 0; 1]; [1; 1; 0]]%Z). cbn [data].
    apply perm_swap.
  - apply (Hxor 1 2 [0; 1; 1]%Z [1; 1; 0]%Z); [lia|reflexivity|reflexivity].
  - apply (Hdup [0; 1; 1]%Z). cbn [data]. right. left.
Defined.

(** * omega *)

Lemma fmap_seq_ext {A : Type} (f g : nat → A) (a len : nat) :
  (∀ i, a ≤ i < a + len → f i = g i) → f <$> seq a len = g <$> seq a len.
Proof. intros H. by apply Forall_fmap_ext_1, Forall_seq. Qed.

Lemma fmap_seq_lookup {A : Type} `{Inhabited A} (f : nat → A) (len i : nat) :
  i < len → (f <$> seq 0 len) !!! i = f i.
Proof.
  intros Hi. apply list_lookup_total_correct.
  by rewrite list_lookup_fmap, lookup_seq_lt.
Qed.

Lemma replicate_fmap_seq {A : Type} (c : A) (a len : nat) :
  replicate len c = (λ _, c) <$> seq a len.
Proof.
  revert a. induction len as [|len IH]; intros a; [done|].
  cbn. f_equal. apply IH.
Qed.

Lemma omega_row_upper (n i : nat) :
  i < n →
  replicate n false ++ ((λ j, bool_decide (i = j)) <$> seq 0 n)
  = omega_entry n i <$> seq 0 (n + n).
Proof.
  intros Hi. rewrite seq_app, fmap_app. f_equal.
  - rewrite (replicate_fmap_seq false 0 n).
    apply fmap_seq_ext. intros j Hj. unfold omega_entry.
    symmetry. apply bool_decide_eq_false_2. lia.
  - replace (0 + n) with (n + 0) by lia.
    rewrite <- (fmap_add_seq n 0 n), <- list_fmap_compose.
    apply fmap_seq_ext. intros j Hj. unfold omega_entry. cbn.
    apply bool_decide_ext. lia.
Qed.

Lemma omega_row_lower (n i : nat) :
  i < n →
  ((λ j, bool_decide (i = j)) <$> seq 0 n) ++ replicate n false
  = omega_entry n (n + i) <$> seq 0 (n + n).
Proof.
  intros Hi. rewrite seq_app, fmap_app. f_equal.
  - apply fmap_seq_ext. intros j Hj. unfold omega_entry.
    apply bool_decide_ext. lia.
  - rewrite (replicate_fmap_seq false (0 + n) n).
    apply fmap_seq_ext. intros j Hj. unfold omega_entry.
    symmetry. apply bool_decide_eq_false_2. lia.
Qed.

Lemma omega_data (n : nat) :
  data (omega n)
  = (λ i, omega_entry n i <$> seq 0 (n + n)) <$> seq 0 (n + n).
Proof.
  unfold omega, np_block, GF2_Zeros, GF2_Identity. cbn [data].
  rewrite zip_with_replicate_l, zip_with_replicate_r
    by (by rewrite length_fmap, length_seq).
  rewrite <- !list_fmap_compose.
  set (row := λ i, omega_entry n i <$> seq 0 (n + n)).
  rewrite (seq_app n n 0), fmap_app. f_equal.
  - apply fmap_seq_ext. intros i Hi. cbn. apply omega_row_upper. lia.
  - replace (0 + n) with (n + 0) by lia.
    rewrite <- (fmap_add_seq n 0 n), <- list_fmap_compose.
    apply fmap_seq_ext. intros i Hi. cbn. apply omega_row_lower. lia.
Qed.

Lemma omega_entry_sym (n i j : nat) : omega_entry n i j = omega_entry n j i.
Proof. unfold omega_entry. apply bool_decide_ext. lia. Qed.

(** A sum over GF(2) with a single selected term. *)
Lemma xor_sum_single (f : nat → bool) (p a len : nat) :
  foldr xorb false ((λ k, bool_decide (k = p) && f k) <$> seq a len)
  = if decide (a ≤ p < a + len) then f p else false.
Proof.
  revert a. induction len as [|len IH]; intros a; cbn [seq fmap list_fmap foldr].
  - by case_decide; [lia|].
  - rewrite IH. destruct (decide (a = p)) as [->|Hne].
    + rewrite bool_decide_eq_true_2 by done.
      repeat case_decide; try lia. cbn. by rewrite xorb_false_r.
    + rewrite bool_decide_eq_false_2 by done. cbn.
      repeat case_decide; try done; lia.
Qed.

Lemma omega_column (n j : nat) :
  j < n + n →
  (λ row : list bool, row !!! j) <$> data (omega n)
  = (λ i, omega_entry n i j) <$> seq 0 (n + n).
Proof.
  intros Hj. rewrite omega_data, <- list_fmap_compose.
  apply fmap_seq_ext. intros i Hi. cbn.
  by apply fmap_seq_lookup.
Qed.

(** C10: [omega n] is its own transpose, and its square over GF(2) is the
    identity of size 2n. *)
Theorem omega_symmetric_involution (n : nat) :
  transpose (omega n) = omega n
  ∧ gf2_matmul (omega n) (omega n) = GF2_Identity (2 * n).
Proof.
  split.
  - unfold transpose.
    change (shape0 (omega n)) with (n + n). change (shape1 (omega n)) with (n + n).
    transitivity (Array2 (n + n) (n + n) (data (omega n))); [|done].
    f_equal. etransitivity; [|symmetry; apply omega_data].
    apply fmap_seq_ext. intros j Hj. rewrite omega_column by lia.
    apply fmap_seq_ext. intros i Hi. apply omega_entry_sym.
  - unfold gf2_matmul, GF2_Identity.
    change (shape0 (omega n)) with (n + n). change (shape1 (omega n)) with (n + n).
    replace (2 * n) with (n + n) by lia. f_equal.
    transitivity
      ((λ row, (λ j, gf2_dot row ((λ i, omega_entry n i j) <$> seq 0 (n + n)))
                 <$> seq 0 (n + n))
         <$> data (omega n)).
    { apply Forall_fmap_ext_1, Forall_true. intros row.
      apply fmap_seq_ext. intros j Hj. by rewrite omega_column by lia. }
    rewrite omega_data, <- list_fmap_compose.
    apply fmap_seq_ext. intros i Hi. cbn.
    apply fmap_seq_ext. intros j Hj.
    unfold gf2_dot. rewrite zip_with_fmap_l, zip_with_fmap_r, zip_with_diag.
    set (s := if decide (i < n) then n + i else i - n).
    rewrite (fmap_seq_ext _ (λ k, bool_decide (k = s) && omega_entry n k j)).
    + rewrite xor_sum_single. rewrite decide_True by (unfold s; case_decide; lia).
      unfold omega_entry. apply bool_decide_ext. unfold s. case_decide; lia.
    + intros k Hk. f_equal. unfold omega_entry. apply bool_decide_ext.
      unfold s. case_decide; lia.
Qed.

(** * count_matching_stabilizers_ratio_all_pairs *)

Lemma collect_Forall2 {A B : Type} (f : A → result B) (l : list A) (ys : list B) :
  collect f l = Ok ys → Forall2 (λ x y, f x = Ok y) l ys.
Proof.
  revert ys. induction l as [|x l IH]; intros ys; cbn.
  - intros [= <-]. constructor.
  - destruct (f x) as [y|e] eqn:Hx; cbn; [|done].
    destruct (collect f l) as [ys'|e] eqn:Hl; cbn; [|done].
    intros [= <-]. constructor; [done|]. by apply IH.
Qed.

Lemma getitems_length {A : Type} (a : list A) (idx : list Z) (ys : list A) :
  getitems a idx = Ok ys → length ys = length idx.
Proof.
  intros H%collect_Forall2. symmetry. by eapply Forall2_length.
Qed.

Lemma getcols_wf (M C : ndarray2 Z) (idx : list Z) :
  wf_array M → getcols M idx = Ok C → wf_array C.
Proof.
  intros [Hlen _]. unfold getcols.
  destruct (collect (norm_index _) idx); cbn; [|done].
  destruct (collect _ (data M)) as [rows|] eqn:Hrows; cbn; [|done].
  intros [= <-]. apply collect_Forall2 in Hrows. split; cbn.
  - apply Forall2_length in Hrows. lia.
  - clear Hlen. induction Hrows as [|row ys l rows Hrow _ IH]; constructor;
      [by eapply getitems_length|done].
Qed.

Lemma length_evens_odds {A : Type} (l : list A) :
  length (evens l) = Nat.div2 (S (length l))
  ∧ length (odds l) = Nat.div2 (length l).
Proof.
  induction l as [|x l [IHe IHo]]; [done|].
  split; cbn [evens odds length]; [|done].
  rewrite IHo. by destruct (length l).
Qed.

Lemma to_symplectic_wf {A : Type} (M : ndarray2 A) :
  wf_array M → wf_array (to_symplectic M).
Proof.
  intros [Hlen Hrows]. split; cbn [to_symplectic data shape0 shape1].
  - rewrite length_zip_with, !length_fmap. lia.
  - rewrite zip_with_fmap_l, zip_with_fmap_r, zip_with_diag.
    apply Forall_fmap. eapply Forall_impl; [exact Hrows|].
    intros row Hrow. cbn beta in *. unfold compose.
    destruct (length_evens_odds row) as [He Ho].
    rewrite length_app, He, Ho. by rewrite Hrow.
Qed.

Lemma join_legs_matrix_wf {TensorLeg : Type}
    (pte : StabilizerCodeTensorEnumerator TensorLeg) (legs : list TensorLeg)
    (M : ndarray2 Z) :
  wf_array (h pte) → join_legs_matrix pte legs = Ok M → wf_array M.
Proof.
  intros Hwf. unfold join_legs_matrix.
  destruct (np_concatenate _) as [idx|]; cbn; [|done].
  destruct (getcols (h pte) idx) as [cols|] eqn:Hcols; cbn; [|done].
  intros [= <-]. apply to_symplectic_wf. by eapply getcols_wf.
Qed.

Lemma stack_mod2_wf (M1 M2 : ndarray2 Z) :
  wf_array M1 → wf_array M2 → shape1 M1 = shape1 M2 →
  wf_array (stack_mod2 M1 M2).
Proof.
  intros [Hl1 Hr1] [Hl2 Hr2] Hcols. split; cbn.
  - rewrite length_fmap, length_app. lia.
  - apply Forall_fmap, Forall_app.
    split; (eapply Forall_impl; [eassumption|]); intros row Hrow;
      unfold compose; cbn beta in *; rewrite length_fmap; congruence.
Qed.

Lemma count_matching_unfold {TensorLeg : Type}
    (pte1 pte2 : StabilizerCodeTensorEnumerator TensorLeg)
    (legs1 legs2 : list TensorLeg) (M1 M2 : ndarray2 Z) :
  join_legs_matrix pte1 legs1 = Ok M1 →
  join_legs_matrix pte2 legs2 = Ok M2 →
  shape1 M1 = shape1 M2 →
  count_matching_stabilizers_ratio_all_pairs pte1 pte2 legs1 legs2
  = Ok (py_float (py_pow2 (- Z.of_nat (rank_gf2 (stack_mod2 M1 M2))))).
Proof.
  unfold join_legs_matrix, count_matching_stabilizers_ratio_all_pairs.
  destruct (np_concatenate _) as [idx1|]; cbn; [|done].
  destruct (getcols (h pte1) idx1) as [cols1|]; cbn; [|done].
  intros [= <-].
  destruct (np_concatenate _) as [idx2|]; cbn; [|done].
  destruct (getcols (h pte2) idx2) as [cols2|]; cbn; [|done].
  intros [= <-] Hcols.
  unfold np_vstack. by rewrite decide_True by done.
Qed.

Lemma pow2_neg_ok_upto : forallb pow2_neg_ok (seq 0 1075) = true.
Proof. vm_compute. reflexivity. Qed.

Lemma pow2_neg_exact (r : nat) :
  r ≤ 1074 →
  float_is_two_pow (py_float (py_pow2 (- Z.of_nat r))) (- Z.of_nat r)
  ∧ in_unit_interval (py_float (py_pow2 (- Z.of_nat r))).
Proof.
  intros Hr. pose proof pow2_neg_ok_upto as Hall.
  rewrite forallb_forall in Hall.
  specialize (Hall r). unfold pow2_neg_ok in Hall.
  destruct (py_float _) as [| | |[] m e]; try (discriminate Hall; apply in_seq; lia).
  assert (Hok : In r (seq 0 1075)) by (apply in_seq; lia).
  apply Hall in Hok.
  apply andb_prop in Hok as [Hok Hle]. apply andb_prop in Hok as [Hok Hlt].
  apply andb_prop in Hok as [He Hm].
  split; [|done].
  exists m, e. split; [done|]. split; [by apply Z.leb_le|by apply Z.eqb_eq].
Qed.

Lemma gf2_row_zero (row : list Z) :
  Forall (λ x, x = 0%Z) row →
  gf2_row ((λ x : Z, Z.land (x `mod` 256) 1) <$> row)
  = vzero (length row).
Proof.
  unfold gf2_row, vzero. induction 1 as [|x row -> _ IH]; [done|].
  cbn. by rewrite <- IH.
Qed.

Lemma is_rank_stack_zero (M1 M2 : ndarray2 Z) :
  wf_array M1 → wf_array M2 → shape1 M1 = shape1 M2 →
  all_zero M1 → all_zero M2 →
  is_rank (shape1 M1) (gf2_rows (stack_mod2 M1 M2)) 0.
Proof.
  intros [_ Hr1] [_ Hr2] Hcols Hz1 Hz2. apply is_rank_zero_rows.
  unfold gf2_rows, stack_mod2, uint8_and_1. cbn [data].
  rewrite <- list_fmap_compose. apply Forall_fmap, Forall_app.
  unfold all_zero in *. rewrite Forall_forall in Hr1, Hr2, Hz1, Hz2.
  split; apply Forall_forall; intros row Hrow; unfold compose; cbn beta;
    rewrite gf2_row_zero by auto; f_equal.
  - by apply Hr1.
  - rewrite Hcols. by apply Hr2.
Qed.

(** C2, amended: when the two extracted block-layout matrices have the same
    number of columns the call returns a float [f], and with [r] the GF(2)
    rank of the stacked matrix reduced modulo 2, [f] is exactly [2^(-r)] and
    lies in (0, 1] as long as [r <= 1074]; [f] is 1.0 when both matrices are
    all-zero. *)
Theorem matching_ratio_two_pow_neg_rank {TensorLeg : Type}
    (pte1 pte2 : StabilizerCodeTensorEnumerator TensorLeg)
    (legs1 legs2 : list TensorLeg) (M1 M2 : ndarray2 Z) :
  wf_array (h pte1) → wf_array (h pte2) →
  join_legs_matrix pte1 legs1 = Ok M1 →
  join_legs_matrix pte2 legs2 = Ok M2 →
  shape1 M1 = shape1 M2 →
  ∃ r f,
    is_rank (shape1 M1) (gf2_rows (stack_mod2 M1 M2)) r
    ∧ count_matching_stabilizers_ratio_all_pairs pte1 pte2 legs1 legs2 = Ok f
    ∧ (r ≤ 1074 → float_is_two_pow f (- Z.of_nat r) ∧ in_unit_interval f)
    ∧ (all_zero M1 → all_zero M2 → f = float_of_int 1).
Proof.
  intros Hwf1 Hwf2 HM1 HM2 Hcols.
  pose proof (join_legs_matrix_wf _ _ _ Hwf1 HM1) as HwM1.
  pose proof (join_legs_matrix_wf _ _ _ Hwf2 HM2) as HwM2.
  pose proof (stack_mod2_wf M1 M2 HwM1 HwM2 Hcols) as HwS.
  pose proof (rank_gf2_correct _ HwS) as Hrank.
  change (shape1 (stack_mod2 M1 M2)) with (shape1 M1) in Hrank.
  exists (rank_gf2 (stack_mod2 M1 M2)). eexists.
  split; [exact Hrank|].
  split; [by apply count_matching_unfold|].
  split; [apply pow2_neg_exact|].
  intros Hz1 Hz2.
  rewrite (is_rank_unique _ _ _ 0 Hrank) by (by apply is_rank_stack_zero).
  reflexivity.
Qed.

Lemma matching_ratio_two_pow_neg_rank_witness :
  ∃ r f,
    is_rank 2 (gf2_rows (stack_mod2 (Array2 2 2 [[1; 0]; [0; 1]]%Z)
                                    (Array2 1 2 [[1; 0]]%Z))) r
    ∧ count_matching_stabilizers_ratio_all_pairs pte_a pte_b [0] [0] = Ok f
    ∧ (r ≤ 1074 → float_is_two_pow f (- Z.of_nat r) ∧ in_unit_interval f)
    ∧ (all_zero (Array2 2 2 [[1; 0]; [0; 1]]%Z) →
       all_zero (Array2 1 2 [[1; 0]]%Z) → f = float_of_int 1).
Proof.
  apply (matching_ratio_two_pow_neg_rank pte_a pte_b [0] [0]
           (Array2 2 2 [[1; 0]; [0; 1]]%Z) (Array2 1 2 [[1; 0]]%Z)).
  - split; [reflexivity|]. repeat constructor.
  - split; [reflexivity|]. repeat constructor.
  - reflexivity.
  - reflexivity.
  - reflexivity.
Defined.

(** The spec's end-to-end example: rank 2, ratio 0.25 = 2^52 * 2^(-54). *)
Example matching_ratio_quarter :
  count_matching_stabilizers_ratio_all_pairs pte_a pte_b [0] [0]
  = Ok (S754_finite false 4503599627370496 (-54)).
Proof. vm_compute. reflexivity. Qed.

(** ** Underflow of the ratio *)

Lemma getitems_all {A : Type} `{Inhabited A} (row : list A) :
  getitems row (range (length row)) = Ok row.
Proof.
  rewrite getitems_total.
  - f_equal. unfold range. rewrite <- list_fmap_compose.
    apply list_eq_same_length with (length row);
      [done|by rewrite length_fmap, length_seq|].
    intros i x y Hi Hx Hy.
    rewrite list_lookup_fmap, lookup_seq_lt in Hx by done. cbn in Hx.
    rewrite Nat2Z.id in Hx. injection Hx as <-.
    by apply list_lookup_total_correct.
  - apply range_Forall. intros; lia.
Qed.

(** Selecting all columns in order gives the matrix back. *)
Lemma getcols_all (M : ndarray2 Z) :
  wf_array M →
  getcols M (range (shape1 M))
  = Ok (Array2 (shape0 M) (length (range (shape1 M))) (data M)).
Proof.
  intros [_ Hrows]. unfold getcols.
  rewrite (collect_Ok _ Z.to_nat)
    by (apply range_Forall; intros i Hi;
        by rewrite norm_index_nat, Nat2Z.id).
  cbn [mbind result_bind].
  rewrite (collect_Ok _ id); [by rewrite list_fmap_id|].
  eapply Forall_impl; [exact Hrows|]. intros row <-. apply getitems_all.
Qed.

Lemma evens_odds_fmap {A B : Type} (f : A → B) (l : list A) :
  evens (f <$> l) = f <$> evens l ∧ odds (f <$> l) = f <$> odds l.
Proof.
  induction l as [|x l [IHe IHo]]; [done|].
  split; cbn [fmap list_fmap evens odds]; [|done]. f_equal. exact IHo.
Qed.

Lemma is_rank_app_self (n : nat) (A : list (list bool)) (r : nat) :
  Forall (λ v, length v = n) A → is_rank n A r → is_rank n (A ++ A) r.
Proof.
  intros HA. apply is_rank_span_eq.
  apply span_eq_of_elems; try done.
  - by apply Forall_app.
  - intros v Hv. apply in_span_elem; [by apply Forall_app|].
    apply elem_of_app. by left.
  - intros v [Hv|Hv]%elem_of_app; by apply in_span_elem.
Qed.

Lemma gf2_row_mod2_binary (row : list Z) :
  Forall (λ x, x = 0 ∨ x = 1)%Z row →
  gf2_row ((λ x : Z, Z.land (x `mod` 256) 1) <$> row) = gf2_row row.
Proof.
  unfold gf2_row. induction 1 as [|x row Hx _ IH]; [done|].
  cbn. rewrite IH. f_equal. by destruct Hx as [-> | ->].
Qed.

Lemma gf2_rows_stack_eye (n : nat) :
  gf2_rows (stack_mod2 (Array2 n n (data (np_eye n))) (Array2 n n (data (np_eye n))))
  = (unit_row n <$> seq 0 n) ++ (unit_row n <$> seq 0 n).
Proof.
  unfold gf2_rows, stack_mod2, uint8_and_1. cbn [data].
  rewrite <- list_fmap_compose, fmap_app.
  assert (Heye : (gf2_row ∘ (λ row : list Z, (λ x : Z, Z.land (x `mod` 256) 1) <$> row))
                   <$> data (np_eye n)
                 = unit_row n <$> seq 0 n).
  { rewrite <- gf2_rows_eye. unfold gf2_rows.
    apply Forall_fmap_ext_1. unfold np_eye. cbn [data].
    apply Forall_fmap, Forall_true. intros i. unfold compose. cbn beta.
    apply gf2_row_mod2_binary, Forall_fmap, Forall_true. intros j.
    cbn. destruct (decide (i = j)); auto. }
  by rewrite Heye.
Qed.

Lemma wf_rearranged_identity (n : nat) (block : nat → nat) :
  wf_array (rearranged_identity n block).
Proof.
  split; unfold rearranged_identity; cbn [data shape0 shape1].
  - by rewrite length_fmap, length_seq.
  - apply Forall_fmap, Forall_true. intros i. unfold compose. cbn beta.
    by rewrite length_fmap, length_seq.
Qed.

Lemma length_range (n : nat) : length (range n) = n.
Proof. unfold range. by rewrite length_fmap, length_seq. Qed.

(** When [block] sends the even columns followed by the odd columns to
    [0 .. n-1], the block layout of the rearranged identity is the identity. *)
Lemma to_symplectic_rearranged_identity (n : nat) (block : nat → nat) :
  block <$> (evens (seq 0 n) ++ odds (seq 0 n)) = seq 0 n →
  data (to_symplectic (Array2 n n (data (rearranged_identity n block))))
  = data (np_eye n).
Proof.
  intros Hblock. unfold to_symplectic, rearranged_identity, np_eye.
  cbn [data shape0 shape1].
  rewrite zip_with_fmap_l, zip_with_fmap_r, zip_with_diag.
  rewrite <- list_fmap_compose.
  apply fmap_seq_ext. intros i Hi. unfold compose. cbn beta.
  destruct (evens_odds_fmap
              (λ c, if decide (i = block c) then 1%Z else 0%Z)
              (seq 0 n)) as [-> ->].
  rewrite <- fmap_app.
  transitivity ((λ j, if decide (i = j) then 1%Z else 0%Z)
                  <$> (block <$> (evens (seq 0 n) ++ odds (seq 0 n)))).
  - by rewrite <- list_fmap_compose.
  - by rewrite Hblock.
Qed.

(** Joining on legs that select all the columns, in order. *)
Lemma join_legs_matrix_all_columns {TensorLeg : Type}
    (pte : StabilizerCodeTensorEnumerator TensorLeg) (legs : list TensorLeg) :
  wf_array (h pte) →
  np_concatenate ((λ leg, get_col_indices pte [leg]) <$> legs)
  = Ok (range (shape1 (h pte))) →
  join_legs_matrix pte legs
  = Ok (to_symplectic (Array2 (shape0 (h pte)) (shape1 (h pte)) (data (h pte)))).
Proof.
  intros Hwf Hidx. unfold join_legs_matrix.
  rewrite Hidx. cbn [mbind result_bind].
  rewrite (getcols_all (h pte) Hwf). cbn [mbind result_bind].
  by rewrite length_range.
Qed.

(** If the joined block-layout matrix of [pte] has the rows of the identity
    of size [n], joining two copies of [pte] returns [2 ** (-n)]. *)
Lemma matching_ratio_identity_columns {TensorLeg : Type}
    (pte : StabilizerCodeTensorEnumerator TensorLeg) (legs : list TensorLeg)
    (n : nat) :
  join_legs_matrix pte legs = Ok (Array2 n n (data (np_eye n))) →
  is_rank n (gf2_rows (stack_mod2 (Array2 n n (data (np_eye n)))
                                  (Array2 n n (data (np_eye n))))) n
  ∧ count_matching_stabilizers_ratio_all_pairs pte pte legs legs
    = Ok (py_float (py_pow2 (- Z.of_nat n))).
Proof.
  intros Hjoin.
  assert (Hrank : is_rank n
            (gf2_rows (stack_mod2 (Array2 n n (data (np_eye n)))
                                  (Array2 n n (data (np_eye n))))) n).
  { rewrite gf2_rows_stack_eye. apply is_rank_app_self.
    - apply Forall_fmap, Forall_true. intros i. unfold compose, unit_row.
      cbn beta. by rewrite length_fmap, length_seq.
    - by apply is_rank_unit_rows. }
  split; [exact Hrank|].
  rewrite (count_matching_unfold pte pte legs legs _ _ Hjoin Hjoin eq_refl).
  assert (Hwf : wf_array (Array2 n n (data (np_eye n)))).
  { destruct (wf_np_eye n) as [Hl Hr]. by split. }
  by rewrite (is_rank_unique n _ _ n
                (rank_gf2_correct _ (stack_mod2_wf _ _ Hwf Hwf eq_refl)) Hrank).
Qed.

Lemma block_columns_symplectic :
  block_column <$> (evens (seq 0 1076) ++ odds (seq 0 1076)) = seq 0 1076.
Proof. vm_compute. reflexivity. Qed.

Lemma qubit_columns_all :
  np_concatenate ((λ leg, qubit_columns [leg]) <$> seq 0 538) = Ok (range 1076).
Proof. vm_compute. reflexivity. Qed.

Lemma div2_halves (n : nat) : Nat.div2 (S n) + Nat.div2 n = n.
Proof.
  induction n as [n IH] using lt_wf_ind.
  destruct n as [|[|n]]; [done..|].
  specialize (IH n ltac:(lia)). cbn [Nat.div2] in *. lia.
Qed.

Lemma to_symplectic_rearranged (n : nat) (block : nat → nat) :
  block <$> (evens (seq 0 n) ++ odds (seq 0 n)) = seq 0 n →
  to_symplectic (Array2 n n (data (rearranged_identity n block)))
  = Array2 n n (data (np_eye n)).
Proof.
  intros Hblock.
  pose proof (to_symplectic_rearranged_identity n block Hblock) as Hdata.
  unfold to_symplectic in *. cbn [data shape0 shape1] in *.
  by rewrite Hdata, div2_halves.
Qed.

Lemma join_legs_matrix_big :
  join_legs_matrix pte_big (seq 0 538)
  = Ok (Array2 1076 1076 (data (np_eye 1076))).
Proof.
  exact (eq_trans
           (join_legs_matrix_all_columns pte_big (seq 0 538)
              (wf_rearranged_identity 1076 block_column) qubit_columns_all)
           (f_equal Ok
              (to_symplectic_rearranged 1076 block_column
                 block_columns_symplectic))).
Qed.

Lemma pow2_neg_1076 : py_float (py_pow2 (- Z.of_nat 1076)) = S754_zero false.
Proof. vm_compute. reflexivity. Qed.

(** C2, as stated, fails: two copies of a component whose 1076 joined columns
    are the interleaved identity stack to a matrix of rank 1076, and
    [2 ** (-1076)] is the float 0.0, which is neither [2^(-1076)] nor in
    (0, 1]. *)
Lemma matching_ratio_underflows :
  join_legs_matrix pte_big (seq 0 538)
  = Ok (Array2 1076 1076 (data (np_eye 1076)))
  ∧ is_rank 1076
      (gf2_rows (stack_mod2 (Array2 1076 1076 (data (np_eye 1076)))
                            (Array2 1076 1076 (data (np_eye 1076))))) 1076
  ∧ count_matching_stabilizers_ratio_all_pairs
      pte_big pte_big (seq 0 538) (seq 0 538)
    = Ok (S754_zero false)
  ∧ ¬ float_is_two_pow (S754_zero false) (- 1076)
  ∧ ¬ in_unit_interval (S754_zero false).
Proof.
  destruct (matching_ratio_identity_columns pte_big (seq 0 538) 1076
              join_legs_matrix_big) as [Hrank Hratio].
  split; [exact join_legs_matrix_big|].
  split; [exact Hrank|].
  split; [exact (eq_trans Hratio (f_equal Ok pow2_neg_1076))|].
  split.
  - intros (m & e & Hf & _). discriminate Hf.
  - intros [Hlt _]. discriminate Hlt.
Qed.

(** * Further properties of the symplectic vector functions *)

(** ** weight *)

Lemma filter_length_le {A : Type} (P Q : A → Prop)
    `{∀ x, Decision (P x)} `{∀ x, Decision (Q x)} (l : list A) :
  (∀ x, P x → Q x) → length (filter P l) ≤ length (filter Q l).
Proof.
  intros HPQ. induction l as [|x l IH]; [done|].
  rewrite !filter_cons.
  destruct (decide (P x)) as [HP|HP], (decide (Q x)) as [HQ|HQ]; cbn; try lia.
  by apply HPQ in HP.
Qed.

Lemma filter_length_0 {A : Type} (P : A → Prop) `{∀ x, Decision (P x)} (l : list A) :
  length (filter P l) = 0 ↔ Forall (λ x, ¬ P x) l.
Proof.
  induction l as [|x l IH]; [by split|].
  rewrite filter_cons, Forall_cons.
  destruct (decide (P x)); cbn [length]; [split; [lia|tauto]|].
  rewrite IH. tauto.
Qed.

(** X1: skipping qubits can only lower the weight, and the weight of a vector
    on [n] qubits is at most [n]. *)
Theorem weight_skip_bounds (v : list GF2) (n : nat) (skip : list Z) :
  length v = 2 * n →
  ∃ w w0, weight v skip = Ok w ∧ weight v [] = Ok w0 ∧ w ≤ w0 ∧ w0 ≤ n.
Proof.
  intros Hlen. exists (nonidentity_count v n skip), (nonidentity_count v n []).
  split; [by apply weight_counts|]. split; [by apply weight_counts|].
  unfold nonidentity_count. split.
  - apply filter_length_le. intros i [_ Hi]. split; [|done].
    by intros ?%elem_of_nil.
  - etransitivity; [apply length_filter|]. by rewrite length_seq.
Qed.

Lemma weight_skip_bounds_witness :
  ∃ w w0,
    weight [true; false; false; false; true; true] [1%Z] = Ok w
    ∧ weight [true; false; false; false; true; true] [] = Ok w0
    ∧ w ≤ w0 ∧ w0 ≤ 3.
Proof.
  apply (weight_skip_bounds [true; false; false; false; true; true] 3 [1%Z]).
  reflexivity.
Defined.

(** X2: the weight with nothing skipped is 0 exactly for the identity, the
    all-zero vector. *)
Theorem weight_zero_iff_identity (v : list GF2) (n : nat) :
  length v = 2 * n →
  weight v [] = Ok 0 ↔ v = replicate (2 * n) false.
Proof.
  intros Hlen. rewrite (weight_counts v n [] Hlen). unfold nonidentity_count.
  split.
  - intros [= H0]. apply filter_length_0 in H0. rewrite Forall_seq in H0.
    apply list_eq_same_length with (2 * n);
      [by rewrite length_replicate|done|].
    intros i x y Hi Hx Hy. apply lookup_replicate in Hy as [-> _].
    destruct (decide (i < n)) as [Hlt|Hge].
    + specialize (H0 i ltac:(lia)). destruct x; [|done].
      exfalso. apply H0. split; [by intros ?%elem_of_nil|].
      rewrite Hx. congruence.
    + specialize (H0 (i - n) ltac:(lia)). destruct x; [|done].
      exfalso. apply H0. split; [by intros ?%elem_of_nil|].
      replace (n + (i - n)) with i by lia. rewrite Hx. congruence.
  - intros ->. f_equal. apply filter_length_0, Forall_seq.
    intros i Hi [_ Hne]. apply Hne.
    by rewrite !lookup_replicate_2 by lia.
Qed.

Lemma weight_zero_iff_identity_witness :
  weight [false; false; false; false] [] = Ok 0
  ↔ [false; false; false; false] = replicate (2 * 2) false.
Proof.
  apply (weight_zero_iff_identity [false; false; false; false] 2). reflexivity.
Defined.

Lemma filter_all {A : Type} (P : A → Prop) `{∀ x, Decision (P x)} (l : list A) :
  Forall P l → filter P l = l.
Proof.
  induction 1 as [|x l Hx _ IH]; [done|].
  by rewrite filter_cons_True, IH.
Qed.

Lemma length_filter_fmap {A B : Type} (f : A → B) (P : B → Prop)
    `{∀ y, Decision (P y)} (l : list A) :
  length (filter P (f <$> l)) = length (filter (λ x, P (f x)) l).
Proof.
  induction l as [|x l IH]; [done|].
  rewrite fmap_cons, !filter_cons.
  destruct (decide (P (f x))); cbn [length]; by rewrite IH.
Qed.

(** Reading [m] consecutive positions from [k] on. *)
Lemma getitems_segment `{Inhabited A} (a : list A) (k m : nat) :
  k + m ≤ length a →
  getitems a ((λ i, i + Z.of_nat k)%Z <$> range m) = Ok (take m (drop k a)).
Proof.
  intros Hkm. rewrite getitems_total.
  - f_equal. unfold range. rewrite <- !list_fmap_compose.
    apply list_eq_same_length with m.
    + rewrite length_take, length_drop. lia.
    + by rewrite length_fmap, length_seq.
    + intros i x y Hi Hx Hy.
      rewrite list_lookup_fmap, lookup_seq_lt in Hx by done. cbn in Hx.
      injection Hx as <-.
      rewrite lookup_take_lt, lookup_drop in Hy by done.
      replace (Z.to_nat (Z.of_nat i + Z.of_nat k)) with (k + i) by lia.
      by apply list_lookup_total_correct.
  - apply Forall_fmap, range_Forall. intros i Hi. cbn. lia.
Qed.

Lemma getitems_prefix `{Inhabited A} (a : list A) (m : nat) :
  m ≤ length a → getitems a (range m) = Ok (take m a).
Proof.
  intros Hm. pose proof (getitems_segment a 0 m ltac:(lia)) as Hseg.
  rewrite drop_0 in Hseg. rewrite <- Hseg. f_equal.
  rewrite <- (list_fmap_id (range m)) at 1.
  apply list_fmap_ext. intros i x _. cbn. lia.
Qed.

(** The weight of a vector given by its X-part and its Z-part. *)
Lemma weight_halves (xs zs : list GF2) :
  length xs = length zs →
  weight (xs ++ zs) [] = Ok (count_nonzero (zip_with orb xs zs)).
Proof.
  intros Hlen. unfold weight.
  assert (Hn : length (xs ++ zs) / 2 = length xs).
  { rewrite length_app, <- Hlen.
    replace (length xs + length xs) with (2 * length xs) by lia.
    apply half_double. }
  rewrite Hn.
  rewrite (filter_all (λ i, i ∉ []))
    by (apply Forall_true; intros i ?%elem_of_nil; done).
  destruct (decide _) as [[H0 _]|Hne].
  - rewrite length_range in H0. apply nil_length_inv in H0 as ->.
    symmetry in Hlen. by apply nil_length_inv in Hlen as ->.
  - rewrite getitems_prefix by (rewrite length_app; lia).
    cbn [mbind result_bind].
    rewrite getitems_segment by (rewrite length_app; lia).
    cbn [mbind result_bind].
    rewrite take_app_length, drop_app_length, take_ge by lia. done.
Qed.

(** X3: the weight with skipped qubits is the weight of the slice on the
    qubits that are kept. *)
Theorem weight_skip_is_weight_of_slice (v : list GF2) (n : nat) (skip : list Z) :
  length v = 2 * n →
  weight v skip
  = (s ← sslice v (IdxList (filter (λ i, i ∉ skip) (range n))); weight s []).
Proof.
  intros Hlen. unfold weight at 1, sslice. rewrite Hlen, half_double.
  set (kept := filter (λ i, i ∉ skip) (range n)).
  assert (Hkept : Forall (λ i, 0 ≤ i < Z.of_nat n)%Z kept).
  { apply Forall_forall. intros i [_ Hi]%list_elem_of_filter.
    unfold range in Hi. apply list_elem_of_fmap in Hi as (j & -> & Hj).
    apply elem_of_seq in Hj. lia. }
  destruct (decide (length kept = 0)) as [H0|Hne].
  - rewrite decide_True by (by rewrite length_fmap). done.
  - rewrite decide_False by (rewrite length_fmap; tauto).
    rewrite !getitems_total.
    + cbn [mbind result_bind]. rewrite weight_halves; [done|].
      by rewrite !length_fmap.
    + eapply Forall_impl; [exact Hkept|]. cbn. intros; lia.
    + apply Forall_fmap. eapply Forall_impl; [exact Hkept|]. cbn. intros; lia.
Qed.

Lemma weight_skip_is_weight_of_slice_witness :
  weight [true; false; false; false; true; true] [1%Z]
  = (s ← sslice [true; false; false; false; true; true]
                (IdxList (filter (λ i, i ∉ [1%Z]) (range 3)));
     weight s []).
Proof.
  apply (weight_skip_is_weight_of_slice
           [true; false; false; false; true; true] 3 [1%Z]).
  reflexivity.
Defined.

(** X4: the weight with nothing skipped is the number of nonzero entries of
    the Pauli index tuple. *)
Theorem weight_counts_nonzero_pauli (v : list GF2) (n : nat) :
  length v = 2 * n →
  ∃ r, sympl_to_pauli_repr v = Ok r
       ∧ weight v [] = Ok (length (filter (λ p, p ≠ 0%Z) r)).
Proof.
  intros Hlen. eexists. split; [by apply sympl_to_pauli_repr_eq|].
  rewrite (weight_counts v n [] Hlen). f_equal.
  unfold nonidentity_count, range.
  rewrite <- list_fmap_compose, length_filter_fmap. f_equal.
  apply filter_ext_elem, Forall_seq. intros i Hi. cbn.
  rewrite Nat2Z.id.
  rewrite (list_lookup_lookup_total_lt v i) by lia.
  rewrite (list_lookup_lookup_total_lt v (n + i)) by lia.
  destruct (v !!! i), (v !!! (n + i)); cbn; split;
    try (intros [_ ?]; congruence); try done;
    intros _; (split; [by intros ?%elem_of_nil|congruence]).
Qed.

Lemma weight_counts_nonzero_pauli_witness :
  ∃ r, sympl_to_pauli_repr [true; false; false; false; true; true] = Ok r
       ∧ weight [true; false; false; false; true; true] []
         = Ok (length (filter (λ p, p ≠ 0%Z) r)).
Proof.
  apply (weight_counts_nonzero_pauli [true; false; false; false; true; true] 3).
  reflexivity.
Defined.

(** ** symp_to_str and sympl_to_pauli_repr *)

Lemma symp_to_str_swap_eq (v : list GF2) (n : nat) :
  length v = 2 * n →
  symp_to_str v true
  = Ok (String.concat ""
          ((λ i, String (pauli_label (v !!! (n + Z.to_nat i)) (v !!! Z.to_nat i))
                        EmptyString) <$> range n)).
Proof.
  intros Hlen. unfold symp_to_str. rewrite Hlen, half_double.
  erewrite collect_Ok; [reflexivity|].
  apply range_Forall. intros i Hi.
  replace (Z.of_nat i + Z.of_nat n)%Z with (Z.of_nat (n + i)) by lia.
  rewrite !getitem_total by lia. cbn. rewrite !Nat2Z.id.
  by destruct (v !!! i), (v !!! (n + i)).
Qed.

Lemma length_concat_chars {A : Type} (c : A → ascii) (l : list A) :
  String.length (String.concat "" ((λ x, String (c x) EmptyString) <$> l))
  = length l.
Proof.
  induction l as [|x l IH]; [done|].
  rewrite fmap_cons.
  change (String.concat "" (String (c x) "" :: ((λ x, String (c x) "") <$> l)))
    with (match (λ x, String (c x) "") <$> l with
          | [] => String (c x) ""
          | _ => String (c x) (String.concat "" ((λ x, String (c x) "") <$> l))
          end)%string.
  destruct l as [|y l]; [done|].
  rewrite fmap_cons in *. cbn [String.length length]. by rewrite IH.
Qed.

Lemma lookup_total_app_halves (x z : list GF2) (i : nat) :
  length x = length z → i < length x →
  (x ++ z) !!! i = x !!! i ∧ (x ++ z) !!! (length x + i) = z !!! i.
Proof.
  intros Hlen Hi. split.
  - by apply lookup_total_app_l.
  - rewrite lookup_total_app_r by lia. f_equal. lia.
Qed.

(** X5: labelling with [swapxz] set is labelling the vector whose X-part and
    Z-part are exchanged. *)
Theorem symp_to_str_swapxz (x z : list GF2) :
  length x = length z →
  symp_to_str (x ++ z) true = symp_to_str (z ++ x) false.
Proof.
  intros Hlen.
  rewrite (symp_to_str_swap_eq (x ++ z) (length x))
    by (rewrite length_app; lia).
  rewrite (symp_to_str_eq (z ++ x) (length x))
    by (rewrite length_app; lia).
  do 2 f_equal. unfold range. rewrite <- !list_fmap_compose.
  apply fmap_seq_ext. intros i Hi. cbn. rewrite Nat2Z.id.
  destruct (lookup_total_app_halves x z i) as [_ ->]; [done|lia|].
  destruct (lookup_total_app_halves z x i) as [-> _]; [done|lia|].
  destruct (lookup_total_app_halves x z i) as [-> _]; [done|lia|].
  rewrite Hlen.
  destruct (lookup_total_app_halves z x i) as [_ ->]; [done|lia|].
  done.
Qed.

Lemma symp_to_str_swapxz_witness :
  symp_to_str ([true; false; true] ++ [false; true; true]) true
  = symp_to_str ([false; true; true] ++ [true; false; true]) false.
Proof. apply symp_to_str_swapxz. reflexivity. Defined.

Lemma pauli_label_inj (x z x' z' : GF2) :
  pauli_label x z = pauli_label x' z' → x = x' ∧ z = z'.
Proof. by destruct x, z, x', z'. Qed.

Lemma halves_ext (v w : list GF2) (n : nat) :
  length v = 2 * n → length w = 2 * n →
  (∀ i, i < n → v !!! i = w !!! i ∧ v !!! (n + i) = w !!! (n + i)) →
  v = w.
Proof.
  intros Hv Hw Heq. apply list_eq_same_length with (2 * n); try done.
  intros i a b Hi Ha Hb.
  apply list_lookup_total_correct in Ha, Hb. subst a b.
  destruct (decide (i < n)) as [Hlt|Hge].
  - by apply Heq.
  - replace i with (n + (i - n)) by lia. apply Heq. lia.
Qed.

(** X6: the Pauli index tuple of a vector on [n] qubits has [n] entries, each
    from 0 to 3, and determines the vector. *)
Theorem sympl_to_pauli_repr_inj (v : list GF2) (n : nat) :
  length v = 2 * n →
  (∃ r, sympl_to_pauli_repr v = Ok r ∧ length r = n
        ∧ Forall (λ p, 0 ≤ p ≤ 3)%Z r)
  ∧ (∀ w, length w = 2 * n →
          sympl_to_pauli_repr w = sympl_to_pauli_repr v → w = v).
Proof.
  intros Hv. split.
  - eexists. split; [by apply sympl_to_pauli_repr_eq|]. split.
    + by rewrite length_fmap, length_range.
    + apply Forall_fmap, Forall_true. intros i. cbn.
      by destruct (v !!! _), (v !!! _).
  - intros w Hw.
    rewrite (sympl_to_pauli_repr_eq v n Hv), (sympl_to_pauli_repr_eq w n Hw).
    intros [= Heq]. apply Forall_fmap_ext in Heq.
    unfold range in Heq. rewrite Forall_fmap, Forall_seq in Heq.
    apply (halves_ext w v n Hw Hv). intros i Hi.
    specialize (Heq i ltac:(lia)). cbn in Heq. rewrite Nat2Z.id in Heq.
    by destruct (w !!! i), (w !!! (n + i)), (v !!! i), (v !!! (n + i)).
Qed.

Lemma sympl_to_pauli_repr_inj_witness :
  (∃ r, sympl_to_pauli_repr [true; false; false; true] = Ok r ∧ length r = 2
        ∧ Forall (λ p, 0 ≤ p ≤ 3)%Z r)
  ∧ (∀ w, length w = 2 * 2 →
          sympl_to_pauli_repr w = sympl_to_pauli_repr [true; false; false; true] →
          w = [true; false; false; true]).
Proof. apply (sympl_to_pauli_repr_inj [true; false; false; true] 2). reflexivity. Defined.

(** X7: the label of a vector on [n] qubits has [n] characters, and, for
    either value of [swapxz], determines the vector. *)
Theorem symp_to_str_inj (v : list GF2) (n : nat) (swapxz : bool) :
  length v = 2 * n →
  (∃ s, symp_to_str v swapxz = Ok s ∧ String.length s = n)
  ∧ (∀ w, length w = 2 * n →
          symp_to_str w swapxz = symp_to_str v swapxz → w = v).
Proof.
  intros Hv. split.
  - destruct swapxz.
    + eexists. split; [by apply symp_to_str_swap_eq|].
      by rewrite (length_concat_chars
                    (λ i, pauli_label (v !!! (n + Z.to_nat i)) (v !!! Z.to_nat i))),
        length_range.
    + eexists. split; [by apply symp_to_str_eq|].
      by rewrite (length_concat_chars
                    (λ i, pauli_label (v !!! Z.to_nat i) (v !!! (n + Z.to_nat i)))),
        length_range.
  - intros w Hw Heq. apply (halves_ext w v n Hw Hv). intros i Hi.
    destruct swapxz.
    + rewrite (symp_to_str_swap_eq v n Hv), (symp_to_str_swap_eq w n Hw) in Heq.
      injection Heq as Heq. apply (f_equal (String.get i)) in Heq.
      rewrite (get_concat_chars
                 (λ i, pauli_label (w !!! (n + Z.to_nat i)) (w !!! Z.to_nat i))),
        (get_concat_chars
           (λ i, pauli_label (v !!! (n + Z.to_nat i)) (v !!! Z.to_nat i))),
        range_lookup in Heq by done.
      cbn in Heq. rewrite Nat2Z.id in Heq. injection Heq as Heq.
      apply pauli_label_inj in Heq. tauto.
    + rewrite (symp_to_str_eq v n Hv), (symp_to_str_eq w n Hw) in Heq.
      injection Heq as Heq. apply (f_equal (String.get i)) in Heq.
      rewrite (get_concat_chars
                 (λ i, pauli_label (w !!! Z.to_nat i) (w !!! (n + Z.to_nat i)))),
        (get_concat_chars
           (λ i, pauli_label (v !!! Z.to_nat i) (v !!! (n + Z.to_nat i)))),
        range_lookup in Heq by done.
      cbn in Heq. rewrite Nat2Z.id in Heq. injection Heq as Heq.
      apply pauli_label_inj in Heq. tauto.
Qed.

Lemma symp_to_str_inj_witness :
  (∃ s, symp_to_str [true; false; false; true] true = Ok s ∧ String.length s = 2)
  ∧ (∀ w, length w = 2 * 2 →
          symp_to_str w true = symp_to_str [true; false; false; true] true →
          w = [true; false; false; true]).
Proof. apply (symp_to_str_inj [true; false; false; true] 2 true). reflexivity. Defined.

(** ** omega *)

Lemma fmap_lookup_total_seq `{Inhabited A} (l : list A) :
  (λ i, l !!! i) <$> seq 0 (length l) = l.
Proof.
  apply list_eq_same_length with (length l);
    [done|by rewrite length_fmap, length_seq|].
  intros i x y Hi Hx Hy.
  rewrite list_lookup_fmap, lookup_seq_lt in Hx by done. cbn in Hx.
  injection Hx as <-. by apply list_lookup_total_correct.
Qed.

Lemma xor_sum_app (l1 l2 : list bool) :
  foldr xorb false (l1 ++ l2) = xorb (foldr xorb false l1) (foldr xorb false l2).
Proof.
  induction l1 as [|b l1 IH]; cbn; [by destruct (foldr xorb false l2)|].
  by rewrite IH, xorb_assoc.
Qed.

Lemma gf2_dot_app (a b c d : list bool) :
  length a = length c →
  gf2_dot (a ++ b) (c ++ d) = xorb (gf2_dot a c) (gf2_dot b d).
Proof.
  intros Hlen. unfold gf2_dot.
  by rewrite zip_with_app, xor_sum_app.
Qed.

(** Multiplying a row vector by [omega n] picks, at column [j], the entry at
    the position paired with [j]. *)
Lemma gf2_dot_omega_column (v : list bool) (n j : nat) :
  length v = n + n → j < n + n →
  gf2_dot v ((λ i, omega_entry n i j) <$> seq 0 (n + n))
  = v !!! (if decide (j < n) then n + j else j - n).
Proof.
  intros Hv Hj. unfold gf2_dot.
  rewrite <- (fmap_lookup_total_seq v) at 1. rewrite Hv.
  rewrite zip_with_fmap_l, zip_with_fmap_r, zip_with_diag.
  set (p := if decide (j < n) then n + j else j - n).
  rewrite (fmap_seq_ext _ (λ k, bool_decide (k = p) && v !!! k)).
  - rewrite xor_sum_single. by rewrite decide_True by (unfold p; case_decide; lia).
  - intros k Hk. rewrite andb_comm. f_equal. unfold omega_entry.
    apply bool_decide_ext. unfold p. case_decide; lia.
Qed.

Lemma omega_wf (n : nat) : wf_array (omega n).
Proof.
  split; [by rewrite omega_data, length_fmap, length_seq|].
  rewrite omega_data. apply Forall_fmap, Forall_true. intros i.
  unfold compose. cbn. by rewrite length_fmap, length_seq.
Qed.

(** X8: [omega n] is a well-formed 2n-by-2n matrix; multiplying the row vector
    (x | z) by it gives (z | x), and so u * omega * v^T is the symplectic
    product x_u.z_v + z_u.x_v. *)
Theorem omega_symplectic_form (n : nat) (x z x' z' : list bool) :
  length x = n → length z = n → length x' = n → length z' = n →
  wf_array (omega n)
  ∧ gf2_matmul (Array2 1 (n + n) [x ++ z]) (omega n)
    = Array2 1 (n + n) [z ++ x]
  ∧ gf2_matmul (gf2_matmul (Array2 1 (n + n) [x ++ z]) (omega n))
               (transpose (Array2 1 (n + n) [x' ++ z']))
    = Array2 1 1 [[xorb (gf2_dot x z') (gf2_dot z x')]].
Proof.
  intros Hx Hz Hx' Hz'.
  assert (Hmul : gf2_matmul (Array2 1 (n + n) [x ++ z]) (omega n)
                 = Array2 1 (n + n) [z ++ x]).
  { unfold gf2_matmul. change (shape1 (omega n)) with (n + n).
    cbn [shape0 data fmap list_fmap]. do 2 f_equal.
    transitivity ((λ j, (x ++ z) !!! (if decide (j < n) then n + j else j - n))
                    <$> seq 0 (n + n)).
    - apply fmap_seq_ext. intros j Hj. rewrite omega_column by lia.
      apply gf2_dot_omega_column; [rewrite length_app|]; lia.
    - rewrite seq_app, fmap_app. f_equal.
      + transitivity ((λ i, z !!! i) <$> seq 0 n);
          [|rewrite <- Hz; apply fmap_lookup_total_seq].
        apply fmap_seq_ext. intros j Hj. rewrite decide_True by lia.
        rewrite lookup_total_app_r by lia. f_equal. lia.
      + transitivity ((λ i, x !!! i) <$> seq 0 n);
          [|rewrite <- Hx; apply fmap_lookup_total_seq].
        replace (0 + n) with (n + 0) by lia.
        rewrite <- (fmap_add_seq n 0 n), <- list_fmap_compose.
        apply fmap_seq_ext. intros j Hj. cbn. rewrite decide_False by lia.
        rewrite lookup_total_app_l by lia. f_equal. lia. }
  split; [apply omega_wf|]. split; [exact Hmul|].
  rewrite Hmul. unfold gf2_matmul, transpose. cbn [shape0 shape1 data].
  cbn [seq fmap list_fmap]. do 3 f_equal.
  rewrite <- list_fmap_compose.
  rewrite (fmap_seq_ext _ (λ j, (x' ++ z') !!! j)) by done.
  replace (n + n) with (length (x' ++ z')) by (rewrite length_app; lia).
  rewrite fmap_lookup_total_seq.
  rewrite gf2_dot_app by lia. apply xorb_comm.
Qed.

Lemma omega_symplectic_form_witness :
  wf_array (omega 2)
  ∧ gf2_matmul (Array2 1 (2 + 2) [[true; false] ++ [false; true]]) (omega 2)
    = Array2 1 (2 + 2) [[false; true] ++ [true; false]]
  ∧ gf2_matmul (gf2_matmul (Array2 1 (2 + 2) [[true; false] ++ [false; true]])
                           (omega 2))
               (transpose (Array2 1 (2 + 2) [[true; true] ++ [true; false]]))
    = Array2 1 1 [[xorb (gf2_dot [true; false] [true; false])
                        (gf2_dot [false; true] [true; true])]].
Proof.
  apply (omega_symplectic_form 2 [true; false] [false; true]
           [true; true] [true; false]); reflexivity.
Defined.

(** ** sslice *)

Lemma collect_all_ok {A B : Type} (f : A → result B) (l : list A) :
  Forall (λ x, ∃ y, f x = Ok y) l →
  ∃ ys, collect f l = Ok ys ∧ length ys = length l.
Proof.
  induction 1 as [|x l [y Hy] _ (ys & Hys & Hlen)]; [by exists []|].
  exists (y :: ys). cbn. rewrite Hy. cbn. rewrite Hys. cbn.
  split; [done|]. by rewrite Hlen.
Qed.

Lemma collect_some_raise {A B : Type} (f : A → result B) (e : exn) (l : list A) :
  (∀ x e', f x = Raise e' → e' = e) →
  ¬ Forall (λ x, ∃ y, f x = Ok y) l → collect f l = Raise e.
Proof.
  intros Hf. induction l as [|x l IH]; intros Hnot.
  - exfalso. apply Hnot. constructor.
  - cbn. destruct (f x) as [y|e'] eqn:Hx; cbn.
    + rewrite IH; [done|]. intros Hall. apply Hnot. constructor; eauto.
    + by rewrite (Hf x e' Hx).
Qed.

Lemma getitem_cases {A : Type} (a : list A) (i : Z) :
  ((- Z.of_nat (length a) ≤ i < Z.of_nat (length a))%Z → ∃ x, getitem a i = Ok x)
  ∧ (¬ (- Z.of_nat (length a) ≤ i < Z.of_nat (length a))%Z →
     getitem a i = Raise IndexError).
Proof.
  unfold getitem, norm_index. split; intros Hi.
  - destruct (decide (0 ≤ i < Z.of_nat (length a))%Z) as [Hpos|Hneg].
    + cbn. destruct (lookup_lt_is_Some_2 a (Z.to_nat i)) as [x Hx]; [lia|].
      rewrite Hx. by exists x.
    + rewrite decide_True by lia. cbn.
      destruct (lookup_lt_is_Some_2 a (Z.to_nat (i + Z.of_nat (length a))))
        as [x Hx]; [lia|].
      rewrite Hx. by exists x.
  - by rewrite !decide_False by lia.
Qed.

Lemma getitem_raise {A : Type} (a : list A) (i : Z) (e : exn) :
  getitem a i = Raise e → e = IndexError.
Proof.
  destruct (decide (- Z.of_nat (length a) ≤ i < Z.of_nat (length a))%Z) as [Hi|Hi].
  - apply getitem_cases in Hi as [x ->]. done.
  - apply getitem_cases in Hi as ->. congruence.
Qed.

Lemma getitems_cases {A : Type} (a : list A) (idx : list Z) :
  (Forall (λ i, - Z.of_nat (length a) ≤ i < Z.of_nat (length a))%Z idx →
   ∃ ys, getitems a idx = Ok ys ∧ length ys = length idx)
  ∧ (¬ Forall (λ i, - Z.of_nat (length a) ≤ i < Z.of_nat (length a))%Z idx →
     getitems a idx = Raise IndexError).
Proof.
  unfold getitems. split; intros Hidx.
  - apply collect_all_ok. eapply Forall_impl; [exact Hidx|].
    intros i Hi. by apply getitem_cases.
  - apply collect_some_raise; [apply getitem_raise|].
    intros Hall. apply Hidx. eapply Forall_impl; [exact Hall|].
    intros i [x Hx]. cbn beta.
    destruct (decide (- Z.of_nat (length a) ≤ i < Z.of_nat (length a))%Z)
      as [|Hi]; [done|].
    apply getitem_cases in Hi. congruence.
Qed.

(** X9: on a vector on [n] qubits, [sslice] with a non-empty index list
    succeeds exactly when every index lies in [-2n, n); it then returns a
    vector on as many qubits as there are indices, and otherwise raises
    [IndexError]. *)
Theorem sslice_list_index_range (op : list GF2) (n : nat) (l : list Z) :
  length op = 2 * n → l ≠ [] →
  (Forall (λ i, - 2 * Z.of_nat n ≤ i < Z.of_nat n)%Z l →
   ∃ s, sslice op (IdxList l) = Ok s ∧ length s = 2 * length l)
  ∧ (¬ Forall (λ i, - 2 * Z.of_nat n ≤ i < Z.of_nat n)%Z l →
     sslice op (IdxList l) = Raise IndexError).
Proof.
  intros Hlen Hne. unfold sslice. rewrite Hlen, half_double.
  rewrite decide_False by (by intros ?%nil_length_inv).
  destruct (getitems_cases op l) as [Hxok Hxerr].
  destruct (getitems_cases op ((λ i, i + Z.of_nat n)%Z <$> l)) as [Hzok Hzerr].
  rewrite Hlen in *. split; intros Hl.
  - destruct Hxok as (xs & -> & Hxs).
    { eapply Forall_impl; [exact Hl|]. cbn. intros; lia. }
    destruct Hzok as (zs & -> & Hzs).
    { apply Forall_fmap. eapply Forall_impl; [exact Hl|]. cbn. intros; lia. }
    cbn. eexists. split; [done|].
    rewrite length_app, Hxs, Hzs, length_fmap. lia.
  - destruct (decide (Forall (λ i, - Z.of_nat (2 * n) ≤ i < Z.of_nat (2 * n))%Z l))
      as [Hx|Hx].
    + destruct (Hxok Hx) as (xs & -> & _). cbn.
      rewrite Hzerr; [done|]. intros Hz. apply Hl.
      rewrite Forall_fmap in Hz. rewrite Forall_forall in Hx, Hz.
      apply Forall_forall. intros i Hi.
      specialize (Hx i Hi). specialize (Hz i Hi). cbn in Hz. lia.
    + by rewrite (Hxerr Hx).
Qed.

Lemma sslice_list_index_range_witness :
  (Forall (λ i, - 2 * Z.of_nat 2 ≤ i < Z.of_nat 2)%Z [1; 0]%Z →
   ∃ s, sslice [true; false; false; true] (IdxList [1; 0]%Z) = Ok s
        ∧ length s = 2 * length [1; 0]%Z)
  ∧ (¬ Forall (λ i, - 2 * Z.of_nat 2 ≤ i < Z.of_nat 2)%Z [1; 0]%Z →
     sslice [true; false; false; true] (IdxList [1; 0]%Z) = Raise IndexError).
Proof.
  apply (sslice_list_index_range [true; false; false; true] 2 [1; 0]%Z);
    [reflexivity|discriminate].
Defined.

(** X10: a negative index [q - n] selects qubit [q] with its X-bit and Z-bit
    exchanged. *)
Theorem sslice_negative_index_swaps (op : list GF2) (n q : nat) :
  length op = 2 * n → q < n →
  ∃ xq zq,
    op !! q = Some xq ∧ op !! (n + q) = Some zq
    ∧ sslice op (IdxList [Z.of_nat q]) = Ok [xq; zq]
    ∧ sslice op (IdxList [Z.of_nat q - Z.of_nat n]%Z) = Ok [zq; xq].
Proof.
  intros Hlen Hq.
  destruct (lookup_lt_is_Some_2 op q) as [xq Hxq]; [lia|].
  destruct (lookup_lt_is_Some_2 op (n + q)) as [zq Hzq]; [lia|].
  exists xq, zq. split; [done|]. split; [done|].
  unfold sslice. rewrite Hlen, half_double. cbn [length decide].
  rewrite !decide_False by done.
  cbn [fmap list_fmap getitems collect].
  assert (Hx : getitem op (Z.of_nat q) = Ok xq) by by apply getitem_nat.
  assert (Hz : getitem op (Z.of_nat q + Z.of_nat n) = Ok zq).
  { replace (Z.of_nat q + Z.of_nat n)%Z with (Z.of_nat (n + q)) by lia.
    by apply getitem_nat. }
  assert (Hx' : getitem op (Z.of_nat q - Z.of_nat n + Z.of_nat n) = Ok xq).
  { replace (Z.of_nat q - Z.of_nat n + Z.of_nat n)%Z with (Z.of_nat q) by lia.
    done. }
  assert (Hz' : getitem op (Z.of_nat q - Z.of_nat n) = Ok zq).
  { unfold getitem, norm_index.
    rewrite decide_False, decide_True by lia. cbn.
    replace (Z.to_nat (Z.of_nat q - Z.of_nat n + Z.of_nat (length op)))
      with (n + q) by lia.
    by rewrite Hzq. }
  rewrite Hx, Hz, Hx', Hz'. done.
Qed.

Lemma sslice_negative_index_swaps_witness :
  ∃ xq zq,
    [true; false; false; false] !! 0 = Some xq
    ∧ [true; false; false; false] !! (2 + 0) = Some zq
    ∧ sslice [true; false; false; false] (IdxList [Z.of_nat 0]) = Ok [xq; zq]
    ∧ sslice [true; false; false; false] (IdxList [Z.of_nat 0 - Z.of_nat 2]%Z)
      = Ok [zq; xq].
Proof.
  apply (sslice_negative_index_swaps [true; false; false; false] 2 0);
    [reflexivity|lia].
Defined.

Lemma getslice_segment {A : Type} (a : list A) (lo hi : nat) :
  lo ≤ hi → hi ≤ length a →
  getslice a (Z.of_nat lo) (Z.of_nat hi) = take (hi - lo) (drop lo a).
Proof.
  intros Hlo Hhi. unfold getslice, slice_bound.
  rewrite !decide_False by lia. f_equal; [lia|f_equal; lia].
Qed.

Lemma getitems_seq `{Inhabited A} (a : list A) (k m : nat) :
  k + m ≤ length a →
  getitems a (Z.of_nat <$> seq k m) = Ok (take m (drop k a)).
Proof.
  intros Hkm. rewrite <- (getitems_segment a k m Hkm). f_equal.
  unfold range. rewrite <- list_fmap_compose.
  replace k with (k + 0) at 1 by lia.
  rewrite <- (fmap_add_seq k 0 m), <- list_fmap_compose.
  apply list_fmap_ext. intros i x _. cbn. lia.
Qed.

(** X11: a slice [a:b] within the qubit range selects the same bits as the
    index list [a, a+1, ..., b-1]; the step of the slice plays no part. *)
Theorem sslice_slice_is_index_list (op : list GF2) (n a b : nat)
    (step : option Z) :
  length op = 2 * n → a ≤ b → b ≤ n →
  sslice op (IdxSlice (Some (Z.of_nat a)) (Some (Z.of_nat b)) step)
  = sslice op (IdxList (Z.of_nat <$> seq a (b - a))).
Proof.
  intros Hlen Hab Hbn. unfold sslice. rewrite Hlen, half_double.
  rewrite length_fmap, length_seq.
  replace (Z.of_nat a + Z.of_nat n)%Z with (Z.of_nat (a + n)) by lia.
  replace (Z.of_nat b + Z.of_nat n)%Z with (Z.of_nat (b + n)) by lia.
  rewrite !getslice_segment by lia.
  replace (b + n - (a + n)) with (b - a) by lia.
  destruct (decide (b - a = 0)) as [H0|Hne].
  - by rewrite H0, !take_0.
  - rewrite getitems_seq by lia. cbn [mbind result_bind].
    rewrite <- list_fmap_compose.
    rewrite (list_fmap_ext _ (Z.of_nat ∘ Nat.add n) (seq a (b - a)))
      by (intros; cbn; lia).
    rewrite list_fmap_compose, fmap_add_seq.
    rewrite getitems_seq by lia. cbn [mbind result_bind].
    by rewrite (Nat.add_comm n a).
Qed.

Lemma sslice_slice_is_index_list_witness :
  sslice [true; false; true; false; true; true]
         (IdxSlice (Some (Z.of_nat 1)) (Some (Z.of_nat 3)) (Some 2%Z))
  = sslice [true; false; true; false; true; true]
           (IdxList (Z.of_nat <$> seq 1 (3 - 1))).
Proof.
  apply (sslice_slice_is_index_list
           [true; false; true; false; true; true] 3 1 3 (Some 2%Z));
    [reflexivity|lia|lia].
Defined.

(** ** replace_with_op_on_indices *)



Lemma foldl_insert_same {A : Type} (a : list A) (ks : list nat) (vs : list A) :
  Forall2 (λ k x, a !! k = Some x) ks vs →
  foldl (λ acc kv, <[kv.1 := kv.2]> acc) a (zip ks vs) = a.
Proof.
  induction 1 as [|k x ks vs Hk _ IH]; [done|].
  cbn. by rewrite list_insert_id.
Qed.


Lemma collect_norm_index_nonneg (len : nat) (idx : list Z) :
  Forall (λ i, 0 ≤ i < Z.of_nat len)%Z idx →
  collect (norm_index len) idx = Ok (Z.to_nat <$> idx).
Proof.
  intros Hidx. apply collect_Ok.
  eapply Forall_impl; [exact Hidx|]. intros i Hi. cbn beta.
  unfold norm_index. by rewrite decide_True.
Qed.

Lemma broadcast_same_length {A : Type} (m : nat) (vals : list A) :
  length vals = m → broadcast m vals = Ok vals.
Proof. intros Hlen. unfold broadcast. by rewrite decide_True. Qed.

(** Writing back the values already there changes nothing. *)
Lemma setitems_same `{Inhabited A} (a : list A) (idx : list Z) :
  Forall (λ i, 0 ≤ i < Z.of_nat (length a))%Z idx →
  setitems a idx ((λ z, a !!! Z.to_nat z) <$> idx) = Ok a.
Proof.
  intros Hidx. unfold setitems.
  rewrite collect_norm_index_nonneg by done. cbn [mbind result_bind].
  rewrite broadcast_same_length by (by rewrite length_fmap).
  cbn [mbind result_bind]. f_equal. apply foldl_insert_same.
  apply Forall2_fmap, Forall_Forall2_diag.
  eapply Forall_impl; [exact Hidx|]. intros i Hi. cbn beta in *.
  apply list_lookup_lookup_total_lt. lia.
Qed.

Lemma as_index_array_nonempty (l : list Z) : l ≠ [] → as_index_array l = Ok l.
Proof. by destruct l. Qed.

(** X12: when the index list has as many entries as the vector has qubits,
    all of them in [0, n), writing the slice back with
    [replace_with_op_on_indices] gives the vector again. *)
Theorem replace_roundtrip_full_length (v : list GF2) (n : nat) (indices : list Z) :
  length v = 2 * n → length indices = n → 0 < n →
  Forall (λ i, 0 ≤ i < Z.of_nat n)%Z indices →
  ∃ s, sslice v (IdxList indices) = Ok s
       ∧ replace_with_op_on_indices indices s v = Ok v.
Proof.
  intros Hv Hm Hn Hidx.
  set (xs := (λ z, v !!! Z.to_nat z) <$> indices).
  set (zs := (λ z, v !!! Z.to_nat z) <$> ((λ i, i + Z.of_nat n)%Z <$> indices)).
  assert (Hxs : length xs = n) by (unfold xs; by rewrite length_fmap).
  assert (Hzs : length zs = n) by (unfold zs; by rewrite !length_fmap).
  exists (xs ++ zs). split.
  - unfold sslice. rewrite Hv, half_double.
    rewrite decide_False by lia.
    rewrite !getitems_total; [done| |].
    + eapply Forall_impl; [exact Hidx|]. cbn. intros; lia.
    + apply Forall_fmap. eapply Forall_impl; [exact Hidx|]. cbn. intros; lia.
  - unfold replace_with_op_on_indices. rewrite Hm.
    assert (Hop : length (xs ++ zs) / 2 = n).
    { rewrite length_app, Hxs, Hzs.
      replace (n + n) with (2 * n) by lia. apply half_double. }
    rewrite Hop.
    rewrite getslice_prefix by (rewrite length_app; lia).
    rewrite getslice_suffix by (rewrite length_app; lia).
    rewrite take_app_length', drop_app_length' by done.
    unfold xs at 1. rewrite setitems_same
      by (eapply Forall_impl; [exact Hidx|]; cbn; intros; lia).
    cbn [mbind result_bind].
    rewrite as_index_array_nonempty by (intros ->; cbn in Hm; lia).
    cbn [mbind result_bind].
    unfold zs. rewrite setitems_same; [done|].
    apply Forall_fmap. eapply Forall_impl; [exact Hidx|]. cbn. intros; lia.
Qed.

Lemma replace_roundtrip_full_length_witness :
  ∃ s, sslice [false; true; false; false] (IdxList [1; 0]%Z) = Ok s
       ∧ replace_with_op_on_indices [1; 0]%Z s [false; true; false; false]
         = Ok [false; true; false; false].
Proof.
  apply (replace_roundtrip_full_length [false; true; false; false] 2 [1; 0]%Z);
    [reflexivity|reflexivity|lia|].
  repeat (constructor; [lia|]). constructor.
Defined.

(** X13: with an empty index list [replace_with_op_on_indices] raises
    [IndexError], whatever the operand and the target: [np.array([]) + n] is a
    float array, which cannot index. *)
Theorem replace_empty_indices_raises (op target : list GF2) :
  replace_with_op_on_indices [] op target = Raise IndexError.
Proof.
  unfold replace_with_op_on_indices. cbn [length].
  rewrite (getslice_prefix op 0) by lia. rewrite take_0.
  unfold setitems at 1. cbn [collect mbind result_bind length].
  reflexivity.
Qed.






(** ** sconcat *)









(** ** sstr and sprint *)

Lemma list_ascii_app (s1 s2 : string) :
  list_ascii_of_string (s1 ++ s2)
  = list_ascii_of_string s1 ++ list_ascii_of_string s2.
Proof. induction s1 as [|c s1 IH]; [done|]. simpl. by rewrite IH. Qed.

Lemma get_list_ascii (s : string) (i : nat) :
  String.get i s = list_ascii_of_string s !! i.
Proof.
  revert i. induction s as [|c s IH]; intros [|i]; simpl; try done.
Qed.

Lemma length_list_ascii (s : string) :
  String.length s = length (list_ascii_of_string s).
Proof. induction s as [|c s IH]; [done|]. cbn. by rewrite IH. Qed.

Lemma list_ascii_inj (s1 s2 : string) :
  list_ascii_of_string s1 = list_ascii_of_string s2 → s1 = s2.
Proof.
  intros H. rewrite <- (string_of_list_ascii_of_string s1),
    <- (string_of_list_ascii_of_string s2). by rewrite H.
Qed.

Lemma concat_chars_list {A : Type} (c : A → ascii) (l : list A) :
  list_ascii_of_string (String.concat "" ((λ x, String (c x) EmptyString) <$> l))
  = c <$> l.
Proof.
  apply list_eq. intros i.
  by rewrite <- get_list_ascii, get_concat_chars, list_lookup_fmap.
Qed.

Lemma concat_newline_chars (lines : list string) :
  list_ascii_of_string (String.concat newline lines)
  = drop 1 (concat ((λ t, newline_char :: list_ascii_of_string t) <$> lines)).
Proof.
  induction lines as [|s rest IH]; [done|].
  change (String.concat newline (s :: rest))
    with (match rest with
          | [] => s
          | _ => s ++ newline ++ String.concat newline rest
          end)%string.
  destruct rest as [|t rest].
  - cbn. by rewrite app_nil_r.
  - rewrite !list_ascii_app, IH. cbn. by rewrite drop_0.
Qed.

Lemma getslice_take {A : Type} (a : list A) (k : nat) :
  getslice a 0 (Z.of_nat k) = take k a.
Proof.
  destruct (decide (k ≤ length a)) as [Hk|Hk]; [by apply getslice_prefix|].
  unfold getslice, slice_bound.
  rewrite !decide_False by lia.
  replace (Z.to_nat (Z.min 0 _)) with 0 by lia.
  replace (Z.to_nat (Z.min (Z.of_nat k) _)) with (length a) by lia.
  rewrite drop_0. by rewrite !take_ge by lia.
Qed.

Lemma getslice_drop {A : Type} (a : list A) (k : nat) :
  getslice a (Z.of_nat k) (Z.of_nat (length a)) = drop k a.
Proof.
  destruct (decide (k ≤ length a)) as [Hk|Hk]; [by apply getslice_suffix|].
  unfold getslice, slice_bound.
  rewrite !decide_False by lia.
  replace (Z.to_nat (Z.min (Z.of_nat k) _)) with (length a) by lia.
  replace (Z.to_nat (Z.min (Z.of_nat (length a)) _)) with (length a) by lia.
  rewrite Nat.sub_diag, take_0. by rewrite drop_ge by lia.
Qed.

Lemma bit_char_total (b : GF2) : bit_char b = Ok (String (bit_ascii b) EmptyString).
Proof. by destruct b. Qed.

(** [sstr] never raises; its text is the lines of the rows, each after the
    first preceded by a newline. *)
Lemma sstr_chars (h : ndarray2 GF2) :
  ∃ s, sstr h = Ok s
       ∧ list_ascii_of_string s
         = drop 1 (concat ((λ row, newline_char :: row_chars (shape1 h / 2) row)
                             <$> data h)).
Proof.
  set (n := shape1 h / 2).
  set (line := λ row : list GF2,
         (String.concat "" ((λ b, String (bit_ascii b) EmptyString) <$> take n row)
          ++ "|"
          ++ String.concat "" ((λ b, String (bit_ascii b) EmptyString) <$> drop n row))%string).
  exists (String.concat newline (line <$> data h)). split.
  - unfold sstr. fold n. rewrite (collect_Ok _ line); [done|].
    apply Forall_forall. intros row _.
    rewrite getslice_take, getslice_drop.
    rewrite !(collect_Ok bit_char (λ b, String (bit_ascii b) EmptyString))
      by (apply Forall_forall; intros b _; apply bit_char_total).
    done.
  - rewrite concat_newline_chars, <- list_fmap_compose. do 2 f_equal.
    apply list_fmap_ext. intros _ row _. cbn. f_equal.
    unfold line, row_chars.
    by rewrite !list_ascii_app, !concat_chars_list.
Qed.

Lemma concat_lookup_uniform {A : Type} (K : nat) (blocks : list (list A))
    (i j : nat) :
  Forall (λ b, length b = K) blocks → j < K →
  concat blocks !! (i * K + j) = blocks !! i ≫= (.!! j).
Proof.
  intros Hb Hj. revert i. induction Hb as [|b blocks Hlen _ IH]; intros i.
  - by rewrite concat_nil, !lookup_nil.
  - rewrite concat_cons. destruct i as [|i].
    + cbn [Nat.mul Nat.add]. by rewrite lookup_app_l by lia.
    + rewrite lookup_app_r by lia.
      replace (S i * K + j - length b) with (i * K + j) by lia.
      apply IH.
Qed.

Lemma length_concat_uniform {A : Type} (K : nat) (blocks : list (list A)) :
  Forall (λ b, length b = K) blocks → length (concat blocks) = length blocks * K.
Proof.
  induction 1 as [|b blocks Hlen _ IH]; [done|].
  rewrite concat_cons, length_app, IH. cbn. lia.
Qed.

Lemma length_row_chars (n : nat) (row : list GF2) :
  length (row_chars n row) = length row + 1.
Proof.
  unfold row_chars. rewrite length_app. cbn [length].
  rewrite !length_fmap, length_take, length_drop. lia.
Qed.

Lemma row_chars_lookup (n : nat) (row : list GF2) :
  n ≤ length row →
  (∀ j, j < n → row_chars n row !! j = bit_ascii <$> row !! j)
  ∧ row_chars n row !! n = Some "|"%char
  ∧ (∀ j, n ≤ j → row_chars n row !! (j + 1) = bit_ascii <$> row !! j).
Proof.
  intros Hn. unfold row_chars.
  assert (Hlen : length (bit_ascii <$> take n row) = n)
    by (rewrite length_fmap, length_take; lia).
  split; [|split].
  - intros j Hj. rewrite lookup_app_l by lia.
    by rewrite list_lookup_fmap, lookup_take_lt.
  - rewrite lookup_app_r by lia. by rewrite Hlen, Nat.sub_diag.
  - intros j Hj. rewrite lookup_app_r by lia. rewrite Hlen.
    replace (j + 1 - n) with (S (j - n)) by lia.
    change ((bit_ascii <$> drop n row) !! (j - n) = bit_ascii <$> row !! j).
    rewrite list_lookup_fmap, lookup_drop. do 2 f_equal. lia.
Qed.

Lemma bit_ascii_inj (a b : GF2) : bit_ascii a = bit_ascii b → a = b.
Proof. by destruct a, b. Qed.

(** The character at column [j] of line [i] of the text. *)
Lemma sstr_get (h : ndarray2 GF2) (s : string) (i j : nat) (row : list GF2) :
  wf_array h → sstr h = Ok s → data h !! i = Some row → j ≤ shape1 h →
  String.get (i * (shape1 h + 2) + j) s = row_chars (shape1 h / 2) row !! j.
Proof.
  intros [Hrows Hcols] Hs Hrow Hj.
  destruct (sstr_chars h) as (s' & Hs' & Hchars).
  assert (s' = s) as -> by congruence.
  rewrite get_list_ascii, Hchars, lookup_drop.
  replace (1 + (i * (shape1 h + 2) + j)) with (i * (shape1 h + 2) + (j + 1)) by lia.
  rewrite (concat_lookup_uniform (shape1 h + 2)); [|apply Forall_fmap|lia].
  - rewrite list_lookup_fmap, Hrow. cbn.
    by replace (j + 1) with (S j) by lia.
  - eapply Forall_impl; [exact Hcols|]. intros r Hr. unfold compose.
    cbn [length]. rewrite length_row_chars. cbn beta in Hr. lia.
Qed.

(** X17: on a well-formed matrix [sstr] never raises.  Its text has
    [shape0 * (shape1 + 2) - 1] characters: in line [i] the first
    [shape1 / 2] columns show the first bits of row [i], then comes the bar,
    then the other bits, and a newline follows every line but the last. *)
Theorem sstr_layout (h : ndarray2 GF2) :
  wf_array h →
  ∃ s, sstr h = Ok s
       ∧ String.length s = shape0 h * (shape1 h + 2) - 1
       ∧ ∀ i row, data h !! i = Some row →
           let base := i * (shape1 h + 2) in
           let n := shape1 h / 2 in
           (∀ j, j < n → String.get (base + j) s = bit_ascii <$> row !! j)
           ∧ String.get (base + n) s = Some "|"%char
           ∧ (∀ j, n ≤ j < shape1 h →
                String.get (base + (j + 1)) s = bit_ascii <$> row !! j)
           ∧ (i + 1 < shape0 h →
                String.get (base + (shape1 h + 1)) s = Some newline_char).
Proof.
  intros Hwf. pose proof Hwf as [Hrows Hcols].
  destruct (sstr_chars h) as (s & Hs & Hchars).
  assert (Hblocks : Forall (λ b : list ascii, length b = shape1 h + 2)
            ((λ row, newline_char :: row_chars (shape1 h / 2) row) <$> data h)).
  { apply Forall_fmap. eapply Forall_impl; [exact Hcols|]. intros r Hr. unfold compose.
    cbn [length]. rewrite length_row_chars. cbn beta in Hr. lia. }
  assert (Hhalf : shape1 h / 2 ≤ shape1 h)
    by (apply Nat.Div0.div_le_upper_bound; lia).
  exists s. split; [exact Hs|]. split.
  - rewrite length_list_ascii, Hchars, length_drop.
    rewrite (length_concat_uniform _ _ Hblocks), length_fmap, Hrows. done.
  - intros i row Hrow base n.
    assert (Hlen : length row = shape1 h)
      by (rewrite Forall_forall in Hcols; apply Hcols;
          by eapply list_elem_of_lookup_2).
    destruct (row_chars_lookup n row) as (Hx & Hbar & Hz); [unfold n; lia|].
    split; [|split; [|split]].
    + intros j Hj. unfold base.
      rewrite (sstr_get h s i j row) by (done || lia). by apply Hx.
    + unfold base. rewrite (sstr_get h s i n row) by (done || lia). exact Hbar.
    + intros j Hj. unfold base.
      rewrite (sstr_get h s i (j + 1) row) by (done || lia). apply Hz. lia.
    + intros Hi. unfold base.
      rewrite get_list_ascii, Hchars, lookup_drop.
      replace (1 + (i * (shape1 h + 2) + (shape1 h + 1)))
        with (S i * (shape1 h + 2) + 0) by lia.
      rewrite (concat_lookup_uniform (shape1 h + 2)) by (done || lia).
      rewrite list_lookup_fmap.
      destruct (lookup_lt_is_Some_2 (data h) (S i)) as [r Hr]; [lia|].
      by rewrite Hr.
Qed.

Lemma sstr_layout_witness :
  ∃ s, sstr sstr_example = Ok s
       ∧ String.length s = shape0 sstr_example * (shape1 sstr_example + 2) - 1
       ∧ ∀ i row, data sstr_example !! i = Some row →
           let base := i * (shape1 sstr_example + 2) in
           let n := shape1 sstr_example / 2 in
           (∀ j, j < n → String.get (base + j) s = bit_ascii <$> row !! j)
           ∧ String.get (base + n) s = Some "|"%char
           ∧ (∀ j, n ≤ j < shape1 sstr_example →
                String.get (base + (j + 1)) s = bit_ascii <$> row !! j)
           ∧ (i + 1 < shape0 sstr_example →
                String.get (base + (shape1 sstr_example + 1)) s
                = Some newline_char).
Proof.
  apply (sstr_layout sstr_example).
  split; [reflexivity|repeat constructor].
Defined.

(** X18: the text determines the matrix.  Two well-formed matrices of the
    same shape with the same [sstr] have the same rows. *)
Theorem sstr_inj (h1 h2 : ndarray2 GF2) :
  wf_array h1 → wf_array h2 →
  shape0 h1 = shape0 h2 → shape1 h1 = shape1 h2 →
  sstr h1 = sstr h2 → data h1 = data h2.
Proof.
  intros Hwf1 Hwf2 H0 H1 Heq.
  pose proof Hwf1 as [Hrows1 Hcols1]. pose proof Hwf2 as [Hrows2 Hcols2].
  destruct (sstr_chars h1) as (s & Hs1 & _).
  assert (Hs2 : sstr h2 = Ok s) by congruence.
  assert (Hhalf : shape1 h1 / 2 ≤ shape1 h1)
    by (apply Nat.Div0.div_le_upper_bound; lia).
  apply (list_eq_same_length _ _ (shape0 h1)); [lia|done|].
  intros i r1 r2 Hi Hr1 Hr2. 
  assert (Hl1 : length r1 = shape1 h1)
    by (rewrite Forall_forall in Hcols1; apply Hcols1;
        by eapply list_elem_of_lookup_2).
  assert (Hl2 : length r2 = shape1 h1)
    by (rewrite Forall_forall in Hcols2; rewrite H1; apply Hcols2;
        by eapply list_elem_of_lookup_2).
  assert (Hchars : ∀ j, j ≤ shape1 h1 →
            row_chars (shape1 h1 / 2) r1 !! j = row_chars (shape1 h1 / 2) r2 !! j).
  { intros j Hj.
    rewrite <- (sstr_get h1 s i j r1) by done.
    rewrite H1. apply sstr_get; (done || lia). }
  destruct (row_chars_lookup (shape1 h1 / 2) r1) as (Hx1 & _ & Hz1); [lia|].
  destruct (row_chars_lookup (shape1 h1 / 2) r2) as (Hx2 & _ & Hz2); [lia|].
  apply (list_eq_same_length _ _ (shape1 h1)); [done|done|].
  intros j b1 b2 Hj Hb1 Hb2.
  destruct (decide (j < shape1 h1 / 2)) as [Hlt|Hge].
  - specialize (Hchars j ltac:(lia)).
    rewrite Hx1, Hx2, Hb1, Hb2 in Hchars by done.
    apply bit_ascii_inj. by injection Hchars.
  - specialize (Hchars (j + 1) ltac:(lia)).
    rewrite Hz1, Hz2, Hb1, Hb2 in Hchars by lia.
    apply bit_ascii_inj. by injection Hchars.
Qed.

Lemma sstr_inj_witness : data sstr_example = data sstr_example.
Proof.
  apply (sstr_inj sstr_example sstr_example);
    [split; [reflexivity|repeat constructor]..|reflexivity|reflexivity|reflexivity].
Defined.

(** X19: printing two matrices of the same width one after the other, the
    first with the default [end], writes what printing their vertical stack
    writes, provided neither matrix is empty. *)
Theorem sprint_vstack (a b : ndarray2 GF2) (end_ stdout : string) :
  data a ≠ [] → data b ≠ [] → shape1 a = shape1 b →
  (stdout' ← sprint a newline stdout; sprint b end_ stdout')
  = sprint (vstack_gf2 a b) end_ stdout.
Proof.
  intros Hne_a Hne_b Hw.
  destruct (sstr_chars a) as (sa & Ha & Ca).
  destruct (sstr_chars b) as (sb & Hb & Cb).
  destruct (sstr_chars (vstack_gf2 a b)) as (sab & Hab & Cab).
  unfold sprint. rewrite Ha, Hab. cbn [mbind result_bind]. rewrite Hb.
  cbn [mbind result_bind]. f_equal. apply list_ascii_inj.
  rewrite !list_ascii_app, Ca, Cb, Cab.
  cbn [vstack_gf2 data shape1]. rewrite fmap_app, concat_app, <- Hw.
  destruct (data a) as [|ra da]; [done|].
  destruct (data b) as [|rb db]; [done|].
  rewrite !fmap_cons, !concat_cons. cbn [app drop].
  rewrite !drop_0.
  change (list_ascii_of_string newline) with [newline_char].
  rewrite <- !app_assoc, <- !app_comm_cons, <- ?app_assoc. reflexivity.
Qed.

Lemma sprint_vstack_witness :
  (stdout' ← sprint sstr_example newline "";
   sprint (Array2 1 4 [[true; true; false; false]]) "" stdout')
  = sprint (vstack_gf2 sstr_example (Array2 1 4 [[true; true; false; false]]))
           "" "".
Proof.
  apply (sprint_vstack sstr_example (Array2 1 4 [[true; true; false; false]]));
    [discriminate|discriminate|reflexivity].
Defined.

(** ** to_symplectic *)

Lemma to_symplectic_data {A : Type} (M : ndarray2 A) :
  data (to_symplectic M) = (λ r, evens r ++ odds r) <$> data M.
Proof.
  cbn [to_symplectic data].
  by rewrite zip_with_fmap_l, zip_with_fmap_r, zip_with_diag.
Qed.

Lemma evens_odds_lookup {A : Type} (l : list A) :
  ∀ j, evens l !! j = l !! (2 * j) ∧ odds l !! j = l !! (2 * j + 1).
Proof.
  induction l as [|x l IH]; intros j; [done|].
  cbn [evens odds]. split.
  - destruct j as [|j]; [done|].
    replace (2 * S j) with (S (2 * j + 1)) by lia. apply IH.
  - replace (2 * j + 1) with (S (2 * j)) by lia. apply IH.
Qed.

Lemma length_evens_app_odds {A : Type} (l : list A) :
  length (evens l ++ odds l) = length l.
Proof.
  destruct (length_evens_odds l) as [He Ho].
  rewrite length_app, He, Ho. apply div2_halves.
Qed.

Lemma evens_odds_inj {A : Type} (r1 r2 : list A) :
  evens r1 ++ odds r1 = evens r2 ++ odds r2 → r1 = r2.
Proof.
  intros Heq.
  assert (Hlen : length r1 = length r2)
    by (by rewrite <- (length_evens_app_odds r1), Heq, length_evens_app_odds).
  apply app_inj_1 in Heq as [He Ho].
  - apply list_eq. intros k.
    destruct (Nat.Even_or_Odd k) as [[j ->]|[j ->]].
    + rewrite <- !(proj1 (evens_odds_lookup _ j)). by rewrite He.
    + rewrite <- !(proj2 (evens_odds_lookup _ j)). by rewrite Ho.
  - destruct (length_evens_odds r1) as [-> _].
    destruct (length_evens_odds r2) as [-> _]. by rewrite Hlen.
Qed.

(** X20: [to_symplectic] keeps the shape of a well-formed matrix and moves,
    in every row, the entries at the even columns to the front and the
    entries at the odd columns behind them, in order. *)
Theorem to_symplectic_layout {A : Type} (M : ndarray2 A) :
  wf_array M →
  shape0 (to_symplectic M) = shape0 M
  ∧ shape1 (to_symplectic M) = shape1 M
  ∧ length (data (to_symplectic M)) = shape0 M
  ∧ ∀ i row, data M !! i = Some row →
      ∃ row', data (to_symplectic M) !! i = Some row'
              ∧ (∀ j, j < Nat.div2 (S (shape1 M)) → row' !! j = row !! (2 * j))
              ∧ (∀ j, row' !! (Nat.div2 (S (shape1 M)) + j) = row !! (2 * j + 1)).
Proof.
  intros [Hrows Hcols]. split; [done|]. split; [apply div2_halves|]. split.
  - by rewrite to_symplectic_data, length_fmap.
  - intros i row Hrow. exists (evens row ++ odds row).
    assert (Hlen : length (evens row) = Nat.div2 (S (shape1 M))).
    { destruct (length_evens_odds row) as [-> _]. do 2 f_equal.
      rewrite Forall_forall in Hcols. apply Hcols.
      by eapply list_elem_of_lookup_2. }
    split; [|split].
    + by rewrite to_symplectic_data, list_lookup_fmap, Hrow.
    + intros j Hj. rewrite lookup_app_l by lia. apply evens_odds_lookup.
    + intros j. rewrite <- Hlen, lookup_app_r by lia.
      replace (length (evens row) + j - length (evens row)) with j by lia.
      apply evens_odds_lookup.
Qed.

Lemma to_symplectic_layout_witness :
  shape0 (to_symplectic (Array2 1 5 [[10; 11; 12; 13; 14]%Z])) = 1
  ∧ shape1 (to_symplectic (Array2 1 5 [[10; 11; 12; 13; 14]%Z])) = 5
  ∧ length (data (to_symplectic (Array2 1 5 [[10; 11; 12; 13; 14]%Z]))) = 1
  ∧ ∀ i row, [[10; 11; 12; 13; 14]%Z] !! i = Some row →
      ∃ row', data (to_symplectic (Array2 1 5 [[10; 11; 12; 13; 14]%Z])) !! i
              = Some row'
              ∧ (∀ j, j < Nat.div2 (S 5) → row' !! j = row !! (2 * j))
              ∧ (∀ j, row' !! (Nat.div2 (S 5) + j) = row !! (2 * j + 1)).
Proof.
  apply (to_symplectic_layout (Array2 1 5 [[10; 11; 12; 13; 14]%Z])).
  split; [reflexivity|repeat constructor].
Defined.

(** X21: [to_symplectic] loses nothing: two matrices with the same image are
    equal, whatever their shapes. *)
Theorem to_symplectic_inj {A : Type} (M1 M2 : ndarray2 A) :
  to_symplectic M1 = to_symplectic M2 → M1 = M2.
Proof.
  intros Heq.
  assert (H0 : shape0 M1 = shape0 M2) by exact (f_equal shape0 Heq).
  assert (H1 : shape1 M1 = shape1 M2).
  { pose proof (f_equal shape1 Heq) as H. cbn [to_symplectic shape1] in H.
    by rewrite !div2_halves in H. }
  assert (Hd : data M1 = data M2).
  { pose proof (f_equal data Heq) as H. rewrite !to_symplectic_data in H.
    revert H. generalize (data M2). generalize (data M1). clear.
    induction l as [|r1 l1 IH]; intros [|r2 l2] H; try done.
    rewrite !fmap_cons in H. injection H as Hr Hl.
    f_equal; [by apply evens_odds_inj|by apply IH]. }
  destruct M1, M2. cbn in *. by subst.
Qed.

Lemma to_symplectic_inj_witness :
  Array2 1 4 [[1; 2; 3; 4]%Z] = Array2 1 4 [[1; 2; 3; 4]%Z].
Proof.
  apply (to_symplectic_inj (Array2 1 4 [[1; 2; 3; 4]%Z])
                           (Array2 1 4 [[1; 2; 3; 4]%Z])).
  reflexivity.
Defined.

(** ** rank_gf2 *)

Lemma rank_gf2_loop_le_cols (m : nat) (cols : list nat) :
  ∀ packed rank, rank_gf2_loop m cols packed rank ≤ rank + length cols.
Proof.
  induction cols as [|col cols IH]; intros packed rank.
  - cbn. lia.
  - cbn [rank_gf2_loop length]. cbn zeta.
    destruct (np_where _) as [|first rest].
    + specialize (IH packed rank). lia.
    + destruct (decide (rank + 1 = m)) as [Hm|Hm]; [lia|].
      match goal with
      | |- rank_gf2_loop m cols ?p ?r ≤ _ => specialize (IH p r)
      end. lia.
Qed.

Lemma in_span_nil (n : nat) (v : list bool) : in_span n [] v → v = vzero n.
Proof. intros (cs & _ & <-). by destruct cs. Qed.

Lemma is_rank_le_rows (n : nat) (rows : list (list bool)) (r : nat) :
  is_rank n rows r → r ≤ length rows.
Proof.
  intros (B & <- & HfB & HiB & HsB).
  apply (lin_indep_le n B rows); [done|done|]. intros v. apply HsB.
Qed.

(** X22: the rank that [rank_gf2] returns for a well-formed matrix is at
    most its number of rows and at most its number of columns. *)
Theorem rank_gf2_bounds (M : ndarray2 Z) :
  wf_array M → rank_gf2 M ≤ shape0 M ∧ rank_gf2 M ≤ shape1 M.
Proof.
  intros HM. split.
  - pose proof (is_rank_le_rows _ _ _ (rank_gf2_correct M HM)) as H.
    unfold gf2_rows in H. rewrite length_fmap in H. destruct HM as [<- _]. done.
  - unfold rank_gf2.
    pose proof (rank_gf2_loop_le_cols (shape0 M) (seq 0 (shape1 M))
                  (data (np_packbits M)) 0) as H.
    by rewrite length_seq in H.
Qed.

Lemma rank_gf2_bounds_witness :
  rank_gf2 (Array2 3 2 [[1; 0]; [0; 1]; [1; 1]]%Z) ≤ 3
  ∧ rank_gf2 (Array2 3 2 [[1; 0]; [0; 1]; [1; 1]]%Z) ≤ 2.
Proof.
  apply (rank_gf2_bounds (Array2 3 2 [[1; 0]; [0; 1]; [1; 1]]%Z)).
  split; [reflexivity|repeat constructor].
Defined.

Lemma span_app_l (n : nat) (A B : list (list bool)) (v : list bool) :
  Forall (λ r, length r = n) A → Forall (λ r, length r = n) B →
  in_span n A v → in_span n (A ++ B) v.
Proof.
  intros HA HB. apply span_sub; [by apply Forall_app|].
  intros r Hr. apply in_span_elem; [by apply Forall_app|].
  apply elem_of_app. by left.
Qed.

Lemma span_app_r (n : nat) (A B : list (list bool)) (v : list bool) :
  Forall (λ r, length r = n) A → Forall (λ r, length r = n) B →
  in_span n B v → in_span n (A ++ B) v.
Proof.
  intros HA HB. apply span_sub; [by apply Forall_app|].
  intros r Hr. apply in_span_elem; [by apply Forall_app|].
  apply elem_of_app. by right.
Qed.

Lemma is_rank_app_bounds (n : nat) (A B : list (list bool)) (ra rb rs : nat) :
  Forall (λ r, length r = n) A → Forall (λ r, length r = n) B →
  is_rank n A ra → is_rank n B rb → is_rank n (A ++ B) rs →
  ra ≤ rs ∧ rb ≤ rs ∧ rs ≤ ra + rb.
Proof.
  intros HA HB (BA & <- & HfA & HiA & HsA) (BB & <- & HfB & HiB & HsB)
         (BS & <- & HfS & HiS & HsS).
  split; [|split].
  - apply (lin_indep_le n BA BS); [done|done|]. intros v Hv.
    apply HsS, span_app_l; [done|done|]. by apply HsA.
  - apply (lin_indep_le n BB BS); [done|done|]. intros v Hv.
    apply HsS, span_app_r; [done|done|]. by apply HsB.
  - rewrite <- length_app.
    apply (lin_indep_le n BS (BA ++ BB)); [done|done|]. intros v Hv.
    apply HsS in Hv. revert Hv.
    apply span_sub; [by apply Forall_app|].
    intros r Hr. apply elem_of_app in Hr as [Hr|Hr].
    + apply span_app_l; [done|done|]. apply HsA. by apply in_span_elem.
    + apply span_app_r; [done|done|]. apply HsB. by apply in_span_elem.
Qed.

(** X23: stacking never lowers the rank and at most adds the ranks.  For
    well-formed matrices with the same number of columns [np.vstack]
    succeeds, and [rank_gf2] of the stack lies between the rank of either
    part and the sum of the two ranks. *)
Theorem rank_gf2_vstack (M1 M2 : ndarray2 Z) :
  wf_array M1 → wf_array M2 → shape1 M1 = shape1 M2 →
  ∃ stacked, np_vstack M1 M2 = Ok stacked
    ∧ rank_gf2 M1 ≤ rank_gf2 stacked
    ∧ rank_gf2 M2 ≤ rank_gf2 stacked
    ∧ rank_gf2 stacked ≤ rank_gf2 M1 + rank_gf2 M2.
Proof.
  intros H1 H2 Hw. unfold np_vstack. rewrite decide_True by done.
  eexists. split; [reflexivity|].
  set (S := Array2 (shape0 M1 + shape0 M2) (shape1 M1) (data M1 ++ data M2)).
  assert (HS : wf_array S).
  { destruct H1 as [H1r H1c], H2 as [H2r H2c]. split; cbn.
    - rewrite length_app. lia.
    - apply Forall_app. split; [done|]. by rewrite Hw. }
  pose proof (rank_gf2_correct M1 H1) as R1.
  pose proof (rank_gf2_correct M2 H2) as R2.
  pose proof (rank_gf2_correct S HS) as RS.
  rewrite <- Hw in R2.
  change (shape1 S) with (shape1 M1) in RS.
  assert (Hrows : gf2_rows S = gf2_rows M1 ++ gf2_rows M2)
    by (unfold gf2_rows, S; cbn [data]; apply fmap_app).
  rewrite Hrows in RS.
  apply (is_rank_app_bounds (shape1 M1) (gf2_rows M1) (gf2_rows M2)); try done.
  - by apply gf2_rows_length.
  - rewrite Hw. by apply gf2_rows_length.
Qed.

Lemma rank_gf2_vstack_witness :
  ∃ stacked,
    np_vstack (Array2 2 2 [[1; 0]; [1; 0]]%Z) (Array2 1 2 [[1; 1]]%Z) = Ok stacked
    ∧ rank_gf2 (Array2 2 2 [[1; 0]; [1; 0]]%Z) ≤ rank_gf2 stacked
    ∧ rank_gf2 (Array2 1 2 [[1; 1]]%Z) ≤ rank_gf2 stacked
    ∧ rank_gf2 stacked
      ≤ rank_gf2 (Array2 2 2 [[1; 0]; [1; 0]]%Z) + rank_gf2 (Array2 1 2 [[1; 1]]%Z).
Proof.
  apply (rank_gf2_vstack (Array2 2 2 [[1; 0]; [1; 0]]%Z) (Array2 1 2 [[1; 1]]%Z));
    [split; [reflexivity|repeat constructor]..|reflexivity].
Defined.

Lemma gf2_row_all_zero (row : list Z) :
  gf2_row row = vzero (length row) ↔ Forall (λ x, x = 0%Z) row.
Proof.
  unfold gf2_row, vzero. induction row as [|x row IH].
  - split; [constructor|done].
  - rewrite fmap_cons. cbn [length replicate]. split.
    + intros H. injection H as Hx Hrow. constructor; [|by apply IH].
      apply bool_decide_eq_false_1 in Hx.
      destruct (decide (x = 0%Z)); [done|by destruct Hx].
    + intros H. apply Forall_cons in H as [-> H].
      f_equal. by apply IH.
Qed.

(** X24: [rank_gf2] of a well-formed matrix is 0 exactly when every entry
    is 0. *)
Theorem rank_gf2_zero_iff (M : ndarray2 Z) :
  wf_array M → rank_gf2 M = 0 ↔ all_zero M.
Proof.
  intros HM. pose proof HM as [Hrows Hcols].
  pose proof (rank_gf2_correct M HM) as HR. split.
  - intros H0. rewrite H0 in HR.
    destruct HR as (B & HB & _ & _ & Hspan).
    apply nil_length_inv in HB as ->.
    unfold all_zero. rewrite Forall_forall in Hcols.
    apply Forall_forall. intros row Hrow.
    apply gf2_row_all_zero. rewrite (Hcols row Hrow).
    apply in_span_nil, Hspan, in_span_elem; [by apply gf2_rows_length|].
    unfold gf2_rows. apply list_elem_of_fmap. by exists row.
  - intros Hz. apply (is_rank_unique (shape1 M) (gf2_rows M)); [done|].
    apply is_rank_zero_rows. unfold gf2_rows. apply Forall_fmap.
    unfold all_zero in Hz. rewrite Forall_forall in Hz, Hcols.
    apply Forall_forall. intros row Hrow. cbn.
    rewrite <- (Hcols row Hrow). apply gf2_row_all_zero. by apply Hz.
Qed.

Lemma rank_gf2_zero_iff_witness :
  rank_gf2 (Array2 2 3 [[0; 0; 0]; [0; 0; 0]]%Z) = 0
  ↔ all_zero (Array2 2 3 [[0; 0; 0]; [0; 0; 0]]%Z).
Proof.
  apply (rank_gf2_zero_iff (Array2 2 3 [[0; 0; 0]; [0; 0; 0]]%Z)).
  split; [reflexivity|repeat constructor].
Defined.

(** A rearrangement of the coordinates that is additive and one-to-one keeps
    the rank. *)
Section Coordinate_map.
Variable n : nat.
Variable p : list bool → list bool.
Hypothesis p_length : ∀ u, length u = n → length (p u) = n.
Hypothesis p_xor : ∀ u v, length u = n → length v = n →
  p (vxor u v) = vxor (p u) (p v).
Hypothesis p_inj : ∀ u v, length u = n → length v = n → p u = p v → u = v.

Lemma coordinate_map_zero : p (vzero n) = vzero n.
Proof.
  rewrite <- (vxor_self n (vzero n)) at 1 by apply length_vzero.
  rewrite p_xor by apply length_vzero.
  apply vxor_self, p_length, length_vzero.
Qed.

Lemma lincomb_image (cs : list bool) (rows : list (list bool)) :
  Forall (λ r, length r = n) rows →
  p (lincomb n cs rows) = lincomb n cs (p <$> rows).
Proof.
  intros Hrows. revert cs. induction Hrows as [|r rows Hr Hrows IH]; intros cs.
  - destruct cs; apply coordinate_map_zero.
  - destruct cs as [|c cs]; [apply coordinate_map_zero|].
    rewrite fmap_cons. cbn [lincomb]. destruct c; [|apply IH].
    rewrite p_xor, IH; [done|done|]. by apply length_lincomb.
Qed.

Lemma in_span_image (rows : list (list bool)) (v : list bool) :
  Forall (λ r, length r = n) rows →
  in_span n (p <$> rows) v ↔ ∃ u, in_span n rows u ∧ v = p u.
Proof.
  intros Hrows. split.
  - intros (cs & Hcs & <-). rewrite length_fmap in Hcs.
    exists (lincomb n cs rows). split; [by exists cs|].
    by rewrite lincomb_image.
  - intros (u & (cs & Hcs & <-) & ->). exists cs.
    split; [by rewrite length_fmap|]. by rewrite lincomb_image.
Qed.

Lemma is_rank_image (rows : list (list bool)) (r : nat) :
  Forall (λ r, length r = n) rows →
  is_rank n rows r → is_rank n (p <$> rows) r.
Proof.
  intros Hrows (B & HB & HfB & HiB & HsB).
  exists (p <$> B). split; [by rewrite length_fmap|]. split; [|split].
  - apply Forall_fmap. eapply Forall_impl; [exact HfB|]. intros b. apply p_length.
  - intros cs Hcs Hzero. rewrite length_fmap in *.
    apply HiB; [done|].
    apply p_inj; [by apply length_lincomb|apply length_vzero|].
    by rewrite lincomb_image, coordinate_map_zero.
  - intros v. rewrite !in_span_image by done.
    split; intros (u & Hu & ->); exists u; (split; [by apply HsB|done]).
Qed.

End Coordinate_map.

Lemma evens_odds_zip_with {A B C : Type} (f : A → B → C) (u : list A) :
  ∀ v, evens (zip_with f u v) = zip_with f (evens u) (evens v)
       ∧ odds (zip_with f u v) = zip_with f (odds u) (odds v).
Proof.
  induction u as [|x u IH]; intros v; [done|].
  destruct v as [|y v]; [by destruct (evens (x :: u)), (odds (x :: u))|].
  cbn [zip_with evens odds]. split; [|apply IH].
  f_equal. apply IH.
Qed.

Lemma gf2_rows_to_symplectic (M : ndarray2 Z) :
  gf2_rows (to_symplectic M) = (λ r, evens r ++ odds r) <$> gf2_rows M.
Proof.
  unfold gf2_rows. rewrite to_symplectic_data, <- !list_fmap_compose.
  apply list_fmap_ext. intros _ row _. cbn. unfold gf2_row.
  destruct (evens_odds_fmap (λ x : Z, bool_decide (x ≠ 0%Z)) row) as [-> ->].
  apply fmap_app.
Qed.

(** X25: moving the interleaved columns into block layout does not change
    the rank: [rank_gf2 (to_symplectic M) = rank_gf2 M] for a well-formed
    matrix. *)
Theorem rank_gf2_to_symplectic (M : ndarray2 Z) :
  wf_array M → rank_gf2 (to_symplectic M) = rank_gf2 M.
Proof.
  intros HM.
  pose proof (rank_gf2_correct _ (to_symplectic_wf M HM)) as HT.
  cbn [to_symplectic shape1] in HT. rewrite div2_halves in HT.
  apply (is_rank_unique (shape1 M) (gf2_rows (to_symplectic M))); [done|].
  rewrite gf2_rows_to_symplectic.
  apply is_rank_image.
  - intros u Hu. by rewrite length_evens_app_odds.
  - intros u v Hu Hv. unfold vxor.
    destruct (evens_odds_zip_with xorb u v) as [-> ->].
    rewrite zip_with_app; [done|].
    destruct (length_evens_odds u) as [-> _].
    destruct (length_evens_odds v) as [-> _]. by rewrite Hu, Hv.
  - intros u v _ _. apply evens_odds_inj.
  - by apply gf2_rows_length.
  - by apply rank_gf2_correct.
Qed.

Lemma rank_gf2_to_symplectic_witness :
  rank_gf2 (to_symplectic (Array2 2 4 [[1; 0; 0; 1]; [0; 1; 1; 0]]%Z))
  = rank_gf2 (Array2 2 4 [[1; 0; 0; 1]; [0; 1; 1; 0]]%Z).
Proof.
  apply (rank_gf2_to_symplectic (Array2 2 4 [[1; 0; 0; 1]; [0; 1; 1; 0]]%Z)).
  split; [reflexivity|repeat constructor].
Defined.

Lemma pack_byte_pattern (row row' : list Z) (w : nat) :
  gf2_row row = gf2_row row' → pack_byte row w = pack_byte row' w.
Proof.
  intros Hg.
  assert (Hpt : ∀ k, bool_decide (default 0%Z (row !! k) ≠ 0%Z)
                     = bool_decide (default 0%Z (row' !! k) ≠ 0%Z)).
  { intros k. pose proof (f_equal (.!! k) Hg) as Hk. cbn beta in Hk.
    unfold gf2_row in Hk. rewrite !list_lookup_fmap in Hk.
    destruct (row !! k), (row' !! k); cbn in *; congruence. }
  unfold pack_byte. cbn [seq foldr]. by rewrite !Hpt.
Qed.

(** X30: [rank_gf2] only looks at which entries are nonzero: two matrices of
    the same shape with the same pattern of nonzero entries get the same
    rank, whatever the nonzero values are. *)
Theorem rank_gf2_nonzero_pattern (M M' : ndarray2 Z) :
  shape0 M = shape0 M' → shape1 M = shape1 M' →
  gf2_rows M = gf2_rows M' →
  rank_gf2 M = rank_gf2 M'.
Proof.
  intros H0 H1 Hrows.
  assert (Hpacked : data (np_packbits M) = data (np_packbits M')).
  { unfold np_packbits. cbn [data]. rewrite <- H1.
    unfold gf2_rows in Hrows. revert Hrows.
    generalize (data M'). generalize (data M). clear.
    induction l as [|row l IH]; intros [|row' l'] Hrows; try done.
    cbn [fmap list_fmap] in Hrows. cbn [fmap list_fmap].
    injection Hrows as Hrow Hl.
    f_equal; [|by apply IH].
    apply list_fmap_ext. intros _ w _. by apply pack_byte_pattern. }
  unfold rank_gf2. by rewrite Hpacked, H0, H1.
Qed.

Lemma rank_gf2_nonzero_pattern_witness :
  rank_gf2 (Array2 2 2 [[2; 0]; [-1; 7]]%Z) = rank_gf2 (Array2 2 2 [[1; 0]; [1; 1]]%Z).
Proof.
  apply (rank_gf2_nonzero_pattern (Array2 2 2 [[2; 0]; [-1; 7]]%Z)
                                  (Array2 2 2 [[1; 0]; [1; 1]]%Z));
    reflexivity.
Defined.

(** ** count_matching_stabilizers_ratio_all_pairs *)

Lemma norm_index_cases (len : nat) (i : Z) :
  ((- Z.of_nat len ≤ i < Z.of_nat len)%Z → ∃ k, norm_index len i = Ok k)
  ∧ (¬ (- Z.of_nat len ≤ i < Z.of_nat len)%Z → norm_index len i = Raise IndexError).
Proof.
  unfold norm_index. split; intros Hi; repeat case_decide; eauto; lia.
Qed.

Lemma getcols_cases (M : ndarray2 Z) (idx : list Z) :
  wf_array M →
  (valid_columns M idx →
   ∃ C, getcols M idx = Ok C ∧ wf_array C
        ∧ shape0 C = shape0 M ∧ shape1 C = length idx)
  ∧ (¬ valid_columns M idx → getcols M idx = Raise IndexError).
Proof.
  intros HM. unfold valid_columns. split.
  - intros Hv.
    destruct (collect_all_ok (norm_index (shape1 M)) idx) as (ks & Hks & _).
    { eapply Forall_impl; [exact Hv|]. intros i Hi. by apply norm_index_cases. }
    destruct (collect_all_ok (λ row, getitems row idx) (data M))
      as (rows & Hrows & Hlen).
    { destruct HM as [_ Hc]. eapply Forall_impl; [exact Hc|].
      intros row Hrow. cbn beta in *.
      destruct (getitems_cases row idx) as [Hok _].
      destruct Hok as (ys & Hys & _); [by rewrite Hrow|]. eauto. }
    assert (Hget : getcols M idx = Ok (Array2 (shape0 M) (length idx) rows)).
    { unfold getcols. rewrite Hks. cbn [mbind result_bind]. by rewrite Hrows. }
    eexists. split; [exact Hget|]. split; [|done].
    by eapply getcols_wf.
  - intros Hv. unfold getcols.
    rewrite (collect_some_raise (norm_index (shape1 M)) IndexError idx); [reflexivity| |].
    + intros i e. unfold norm_index. repeat case_decide; congruence.
    + intros Hall. apply Hv. eapply Forall_impl; [exact Hall|].
      intros i [k Hk]. cbn beta in *.
      destruct (decide (- Z.of_nat (shape1 M) ≤ i < Z.of_nat (shape1 M))%Z)
        as [|Hout]; [done|].
      apply norm_index_cases in Hout. congruence.
Qed.

Lemma rank_stack_mod2_comm (M1 M2 : ndarray2 Z) :
  wf_array M1 → wf_array M2 → shape1 M1 = shape1 M2 →
  rank_gf2 (stack_mod2 M1 M2) = rank_gf2 (stack_mod2 M2 M1).
Proof.
  intros H1 H2 Hw.
  pose proof (rank_gf2_correct _ (stack_mod2_wf M1 M2 H1 H2 Hw)) as R12.
  pose proof (rank_gf2_correct _ (stack_mod2_wf M2 M1 H2 H1 (eq_sym Hw))) as R21.
  change (shape1 (stack_mod2 M1 M2)) with (shape1 M1) in R12.
  change (shape1 (stack_mod2 M2 M1)) with (shape1 M2) in R21.
  rewrite <- Hw in R21.
  apply (is_rank_unique (shape1 M1) (gf2_rows (stack_mod2 M1 M2))); [done|].
  apply (is_rank_perm (shape1 M1) (gf2_rows (stack_mod2 M2 M1))); [| |done].
  - unfold gf2_rows, stack_mod2, uint8_and_1. cbn [data].
    do 2 apply fmap_Permutation. apply Permutation_app_comm.
  - pose proof (gf2_rows_length _ (stack_mod2_wf M2 M1 H2 H1 (eq_sym Hw))) as HL.
    change (shape1 (stack_mod2 M2 M1)) with (shape1 M2) in HL.
    by rewrite Hw.
Qed.

(** The outcome of the function, case by case. *)
Lemma count_matching_eval {TensorLeg : Type}
    (pte1 pte2 : StabilizerCodeTensorEnumerator TensorLeg)
    (legs1 legs2 : list TensorLeg) :
  wf_array (h pte1) → wf_array (h pte2) →
  let idx1 := join_columns pte1 legs1 in
  let idx2 := join_columns pte2 legs2 in
  let run := count_matching_stabilizers_ratio_all_pairs pte1 pte2 legs1 legs2 in
  (legs1 = [] ∨ legs2 = [] → run = Raise ValueError)
  ∧ (legs1 ≠ [] → legs2 ≠ [] →
     ¬ (valid_columns (h pte1) idx1 ∧ valid_columns (h pte2) idx2) →
     run = Raise IndexError)
  ∧ (legs1 ≠ [] → legs2 ≠ [] →
     valid_columns (h pte1) idx1 → valid_columns (h pte2) idx2 →
     ∃ C1 C2, getcols (h pte1) idx1 = Ok C1 ∧ getcols (h pte2) idx2 = Ok C2
       ∧ wf_array C1 ∧ wf_array C2
       ∧ shape1 C1 = length idx1 ∧ shape1 C2 = length idx2
       ∧ run = if decide (length idx1 = length idx2)
               then Ok (py_float (py_pow2 (- Z.of_nat (rank_gf2
                      (stack_mod2 (to_symplectic C1) (to_symplectic C2))))))
               else Raise ValueError).
Proof.
  intros H1 H2 idx1 idx2 run.
  assert (Hidx : ∀ (pte : StabilizerCodeTensorEnumerator TensorLeg) legs,
            legs ≠ [] →
            np_concatenate ((λ leg, get_col_indices pte [leg]) <$> legs)
            = Ok (join_columns pte legs)).
  { intros pte [|leg legs] Hne; done. }
  split; [|split].
  - unfold run, count_matching_stabilizers_ratio_all_pairs.
    intros [-> | ->]; [done|].
    destruct legs1 as [|leg legs1]; [done|].
    rewrite (Hidx pte1 (leg :: legs1)) by discriminate. reflexivity.
  - intros Hne1 Hne2 Hbad.
    unfold run, count_matching_stabilizers_ratio_all_pairs.
    rewrite !Hidx by done. cbn [mbind result_bind]. fold idx1 idx2.
    destruct (getcols_cases (h pte1) idx1 H1) as [Hok1 Hraise1].
    destruct (getcols_cases (h pte2) idx2 H2) as [Hok2 Hraise2].
    assert (Decision (valid_columns (h pte1) idx1)) as [Hv1|Hv1]
      by (unfold valid_columns; apply _).
    + destruct (Hok1 Hv1) as (C1 & -> & _). cbn [mbind result_bind].
      rewrite Hraise2; [done|]. intros Hv2. by apply Hbad.
    + by rewrite Hraise1.
  - intros Hne1 Hne2 Hv1 Hv2.
    destruct (getcols_cases (h pte1) idx1 H1) as [Hok1 _].
    destruct (getcols_cases (h pte2) idx2 H2) as [Hok2 _].
    destruct (Hok1 Hv1) as (C1 & HC1 & Hwf1 & _ & Hs1).
    destruct (Hok2 Hv2) as (C2 & HC2 & Hwf2 & _ & Hs2).
    exists C1, C2. repeat (split; [done|]).
    unfold run, count_matching_stabilizers_ratio_all_pairs.
    rewrite !Hidx by done. cbn [mbind result_bind]. fold idx1 idx2.
    rewrite HC1. cbn [mbind result_bind]. rewrite HC2. cbn [mbind result_bind].
    unfold np_vstack. cbn [to_symplectic shape1].
    rewrite !div2_halves, Hs1, Hs2.
    destruct (decide (length idx1 = length idx2)) as [Hlen|Hlen]; [|done].
    cbn [mbind result_bind]. unfold stack_mod2. cbn [to_symplectic shape0 shape1 data].
    by rewrite !div2_halves, Hs1.
Qed.

(** X26: the ratio does not depend on the order of the two components:
    swapping them, each with its legs, gives the same float, and the same
    exception when the function raises. *)
Theorem count_matching_symmetric {TensorLeg : Type}
    (pte1 pte2 : StabilizerCodeTensorEnumerator TensorLeg)
    (legs1 legs2 : list TensorLeg) :
  wf_array (h pte1) → wf_array (h pte2) →
  count_matching_stabilizers_ratio_all_pairs pte1 pte2 legs1 legs2
  = count_matching_stabilizers_ratio_all_pairs pte2 pte1 legs2 legs1.
Proof.
  intros H1 H2.
  destruct (count_matching_eval pte1 pte2 legs1 legs2 H1 H2) as (Ha & Hb & Hc).
  destruct (count_matching_eval pte2 pte1 legs2 legs1 H2 H1) as (Ha' & Hb' & Hc').
  destruct (decide (legs1 = [])) as [He1|Hne1].
  { rewrite Ha by (by left). by rewrite Ha' by (by right). }
  destruct (decide (legs2 = [])) as [He2|Hne2].
  { rewrite Ha by (by right). by rewrite Ha' by (by left). }
  assert (Decision (valid_columns (h pte1) (join_columns pte1 legs1))) as [Hv1|Hv1]
    by (unfold valid_columns; apply _); cycle 1.
  { rewrite Hb by (done || by intros [? ?]).
    by rewrite Hb' by (done || by intros [? ?]). }
  assert (Decision (valid_columns (h pte2) (join_columns pte2 legs2))) as [Hv2|Hv2]
    by (unfold valid_columns; apply _); cycle 1.
  { rewrite Hb by (done || by intros [? ?]).
    by rewrite Hb' by (done || by intros [? ?]). }
  destruct (Hc Hne1 Hne2 Hv1 Hv2)
    as (C1 & C2 & HC1 & HC2 & Hwf1 & Hwf2 & Hs1 & Hs2 & ->).
  destruct (Hc' Hne2 Hne1 Hv2 Hv1)
    as (C2' & C1' & HC2' & HC1' & _ & _ & _ & _ & ->).
  assert (C1' = C1) as -> by congruence.
  assert (C2' = C2) as -> by congruence.
  destruct (decide (length _ = length _)) as [Hlen|Hlen].
  - rewrite decide_True by done. do 5 f_equal.
    apply rank_stack_mod2_comm; try by apply to_symplectic_wf.
    cbn [to_symplectic shape1]. rewrite !div2_halves. congruence.
  - by rewrite decide_False by done.
Qed.

Lemma count_matching_symmetric_witness :
  count_matching_stabilizers_ratio_all_pairs pte_a pte_b [3] [0]
  = count_matching_stabilizers_ratio_all_pairs pte_b pte_a [0] [3].
Proof.
  apply (count_matching_symmetric pte_a pte_b [3] [0]);
    (split; [reflexivity|repeat constructor]).
Defined.

(** X27: which outcome the function has, for components with well-formed
    matrices.  It returns a float exactly when both leg lists are non-empty,
    every selected index is a column, and both sides select the same number
    of columns; an index that is not a column gives [IndexError]; an empty
    leg list, or different numbers of columns, gives [ValueError]. *)
Theorem count_matching_outcome {TensorLeg : Type}
    (pte1 pte2 : StabilizerCodeTensorEnumerator TensorLeg)
    (legs1 legs2 : list TensorLeg) :
  wf_array (h pte1) → wf_array (h pte2) →
  let idx1 := join_columns pte1 legs1 in
  let idx2 := join_columns pte2 legs2 in
  match count_matching_stabilizers_ratio_all_pairs pte1 pte2 legs1 legs2 with
  | Ok _ =>
      legs1 ≠ [] ∧ legs2 ≠ []
      ∧ valid_columns (h pte1) idx1 ∧ valid_columns (h pte2) idx2
      ∧ length idx1 = length idx2
  | Raise IndexError =>
      legs1 ≠ [] ∧ legs2 ≠ []
      ∧ ¬ (valid_columns (h pte1) idx1 ∧ valid_columns (h pte2) idx2)
  | Raise ValueError =>
      legs1 = [] ∨ legs2 = []
      ∨ (valid_columns (h pte1) idx1 ∧ valid_columns (h pte2) idx2
         ∧ length idx1 ≠ length idx2)
  end.
Proof.
  intros H1 H2 idx1 idx2.
  destruct (count_matching_eval pte1 pte2 legs1 legs2 H1 H2) as (Ha & Hb & Hc).
  fold idx1 idx2 in Hb, Hc.
  destruct (decide (legs1 = [])) as [He1|Hne1].
  { rewrite Ha by (by left). by left. }
  destruct (decide (legs2 = [])) as [He2|Hne2].
  { rewrite Ha by (by right). right. by left. }
  assert (Decision (valid_columns (h pte1) idx1)) as [Hv1|Hv1]
    by (unfold valid_columns; apply _); cycle 1.
  { rewrite Hb by (done || by intros [? ?]).
    repeat (split; [done|]). by intros [? ?]. }
  assert (Decision (valid_columns (h pte2) idx2)) as [Hv2|Hv2]
    by (unfold valid_columns; apply _); cycle 1.
  { rewrite Hb by (done || by intros [? ?]).
    repeat (split; [done|]). by intros [? ?]. }
  destruct (Hc Hne1 Hne2 Hv1 Hv2) as (C1 & C2 & _ & _ & _ & _ & _ & _ & ->).
  destruct (decide (length idx1 = length idx2)) as [Hlen|Hlen].
  - by repeat (split; [done|]).
  - right. right. by repeat (split; [done|]).
Qed.

Lemma count_matching_outcome_witness :
  match count_matching_stabilizers_ratio_all_pairs pte_a pte_b [3] [0; 0] with
  | Ok _ =>
      [3] ≠ [] ∧ [0; 0] ≠ []
      ∧ valid_columns (h pte_a) (join_columns pte_a [3])
      ∧ valid_columns (h pte_b) (join_columns pte_b [0; 0])
      ∧ length (join_columns pte_a [3]) = length (join_columns pte_b [0; 0])
  | Raise IndexError =>
      [3] ≠ [] ∧ [0; 0] ≠ []
      ∧ ¬ (valid_columns (h pte_a) (join_columns pte_a [3])
           ∧ valid_columns (h pte_b) (join_columns pte_b [0; 0]))
  | Raise ValueError =>
      [3] = [] ∨ [0; 0] = []
      ∨ (valid_columns (h pte_a) (join_columns pte_a [3])
         ∧ valid_columns (h pte_b) (join_columns pte_b [0; 0])
         ∧ length (join_columns pte_a [3]) ≠ length (join_columns pte_b [0; 0]))
  end.
Proof.
  apply (count_matching_outcome pte_a pte_b [3] [0; 0]);
    (split; [reflexivity|repeat constructor]).
Defined.

(** * Properties of the operation tracker *)

Lemma tracker_get_increment (self other : nat) (by_ : Z)
    (heap : gmap nat operation_tracker.OperationTracker) :
  operation_tracker.get other (operation_tracker.increment self by_ heap)
  = if decide (other = self)
    then (λ c, c + by_)%Z <$> operation_tracker.get other heap
    else operation_tracker.get other heap.
Proof.
  unfold operation_tracker.get, operation_tracker.increment.
  destruct (decide (other = self)) as [->|Hne].
  - rewrite lookup_alter_eq. by destruct (heap !! self).
  - by rewrite lookup_alter_ne.
Qed.

Lemma tracker_get_increments (self other : nat) (bys : list Z) :
  ∀ heap : gmap nat operation_tracker.OperationTracker,
  operation_tracker.get other
    (foldl (λ hp b, operation_tracker.increment self b hp) heap bys)
  = if decide (other = self)
    then (λ c, c + foldr Z.add 0 bys)%Z <$> operation_tracker.get other heap
    else operation_tracker.get other heap.
Proof.
  induction bys as [|b bys IH]; intros heap.
  - cbn. case_decide; [|done].
    destruct (operation_tracker.get other heap); cbn; [|done]. f_equal. lia.
  - cbn [foldl foldr]. rewrite IH, tracker_get_increment.
    case_decide; [|done].
    destruct (operation_tracker.get other heap); cbn; [|done]. f_equal. lia.
Qed.

(** X28: the tracker counts.  After any sequence of [increment] calls on an
    existing tracker, [get] returns the old count plus the sum of the
    increments; after [reset] and the same calls it returns just the sum; no
    other object changes. *)
Theorem tracker_counts_sum (self : nat) (bys : list Z) (c : Z)
    (heap : gmap nat operation_tracker.OperationTracker) :
  operation_tracker.get self heap = Some c →
  let run := foldl (λ hp b, operation_tracker.increment self b hp) in
  operation_tracker.get self (run heap bys) = Some (c + foldr Z.add 0 bys)%Z
  ∧ operation_tracker.get self (run (operation_tracker.reset self heap) bys)
    = Some (foldr Z.add 0%Z bys)
  ∧ ∀ other, other ≠ self →
      operation_tracker.get other (run (operation_tracker.reset self heap) bys)
      = operation_tracker.get other heap.
Proof.
  intros Hget run. unfold run. split; [|split].
  - rewrite tracker_get_increments, decide_True by done. by rewrite Hget.
  - rewrite tracker_get_increments, decide_True by done.
    unfold operation_tracker.get, operation_tracker.reset in *.
    rewrite lookup_alter_eq. by destruct (heap !! self).
  - intros other Hne. rewrite tracker_get_increments, decide_False by done.
    unfold operation_tracker.get, operation_tracker.reset.
    by rewrite lookup_alter_ne.
Qed.

Lemma tracker_counts_sum_witness :
  let heap := operation_tracker.heap_of (operation_tracker.import_module ∅) in
  let run := foldl (λ hp b, operation_tracker.increment 0 b hp) in
  operation_tracker.get 0 (run heap [1; 5; 2]%Z) = Some (0 + foldr Z.add 0 [1; 5; 2])%Z
  ∧ operation_tracker.get 0 (run (operation_tracker.reset 0 heap) [1; 5; 2]%Z)
    = Some (foldr Z.add 0 [1; 5; 2])%Z
  ∧ ∀ other, other ≠ 0 →
      operation_tracker.get other (run (operation_tracker.reset 0 heap) [1; 5; 2]%Z)
      = operation_tracker.get other heap.
Proof.
  apply (tracker_counts_sum 0 [1; 5; 2]%Z 0
           (operation_tracker.heap_of (operation_tracker.import_module ∅))).
  reflexivity.
Defined.

